(** * fs-gdrive: the mirror tree and the path resolver

    A shallow embedding of [src/classes/node.ts] and [src/classes/gdrive.ts].

    - JavaScript objects live in a heap: a [Node] object is an index into a
      list of records, so that two references to one object are one index
      (a node is reached both from its parent's [children] array and from
      its children's [parent] field).
    - The Google Drive client is an oracle: a record of functions from the
      history of requests to the reply of the next request.  Every request is
      appended to a trace, with its failure message when it threw.
    - An [async] method is a function from a world to a world and either a
      value or the message of the thrown [Error]. *)

From Stdlib Require Import ZArith Ascii String.
From stdpp Require Import base tactics option list strings.

Local Open Scope string_scope.
Local Open Scope list_scope.
Local Open Scope Z_scope.

(** ** Results of a method: a value, or the message of the thrown [Error] *)

Inductive result (A : Type) : Type :=
| Ok (a : A)
| Err (message : string).
Arguments Ok {A} a.
Arguments Err {A} message.

(** ** Paths: [split('/')], [join('/')], [filter(Boolean)], [slice(0, -1)], [pop()] *)

Module Path.

Definition slash : ascii := "/"%char.

(** [s.split('/')]: never empty, [''.split('/')] is [['']]. *)
Fixpoint split (s : string) : list string :=
  match s with
  | EmptyString => [EmptyString]
  | String c s' =>
      if Ascii.eqb c slash then EmptyString :: split s'
      else match split s' with
           | [] => [String c EmptyString]
           | x :: xs => String c x :: xs
           end
  end.

(** [xs.join('/')] *)
Fixpoint join (xs : list string) : string :=
  match xs with
  | [] => ""
  | [x] => x
  | x :: xs' => x +:+ "/" +:+ join xs'
  end.

(** [Boolean(s)] on a string: the empty string is falsy. *)
Definition truthy (s : string) : bool :=
  match s with EmptyString => false | String _ _ => true end.

(** [path.split('/').filter(Boolean)] *)
Definition parts (path : string) : list string :=
  List.filter truthy (split path).

(** [path.split('/').slice(0, -1).join('/') || '/'] *)
Definition parentPath (path : string) : string :=
  let p := join (removelast (split path)) in
  if truthy p then p else "/".

(** [path.split('/').pop()!] *)
Definition leaf (path : string) : string :=
  List.last (split path) "".

End Path.

(** ** [class Node] *)

Abbreviation loc := nat.

Module Node.

(** [DriveMimeTypes.Folder], from [typings/enum.ts]: the marker the Drive
    API gives to folders. *)
Definition Folder : string := "application/vnd.google-apps.folder".

Record t : Type := mk {
  id : string;
  name : string;
  mimeType : string;
  size : Z;
  modifiedTime : option Z;
  createdTime : option Z;
  children : option (list loc);
  parent : option loc
}.

Abbreviation heap := (list t).

(** [new Node({id, name, mimeType, size, modifiedTime, createdTime})]:
    neither [children] nor [parent] is set. *)
Definition new (i n m : string) (sz : Z) (mt ct : option Z) : t :=
  mk i n m sz mt ct None None.

Definition set_name (v : string) (n : t) : t :=
  mk (id n) v (mimeType n) (size n) (modifiedTime n) (createdTime n)
     (children n) (parent n).
Definition set_children (v : option (list loc)) (n : t) : t :=
  mk (id n) (name n) (mimeType n) (size n) (modifiedTime n) (createdTime n)
     v (parent n).
Definition set_parent (v : option loc) (n : t) : t :=
  mk (id n) (name n) (mimeType n) (size n) (modifiedTime n) (createdTime n)
     (children n) v.

Definition isDirectory (n : t) : bool := String.eqb (mimeType n) Folder.
Definition isFile (n : t) : bool := negb (isDirectory n).

(** [this.children || []] *)
Definition kids (n : t) : list loc := default [] (children n).

(** A new object is the next index of the heap. *)
Definition alloc (h : heap) (n : t) : heap * loc := (h ++ [n], List.length h).

(** Reading the object behind a reference.  References are never dangling
    in JavaScript; outside the heap the read gives an object with no
    fields set. *)
Definition nil : t := new "" "" "" 0 None None.
Definition get (h : heap) (l : loc) : t := default nil (h !! l).

(** [addChild(child)]: nothing on a non-folder; otherwise the child is
    pushed on [this.children] (created when absent) and [child.parent] is
    set.  [self] and [child] may be the same object. *)
Definition addChild (h : heap) (self child : loc) : heap :=
  let s := get h self in
  if isDirectory s then
    let h1 := <[self := set_children (Some (kids s ++ [child])) s]> h in
    alter (set_parent (Some self)) child h1
  else h.

(** [findIndex(child => child.id === childId)] *)
Fixpoint findIndex_id (h : heap) (childId : string) (cs : list loc) : option nat :=
  match cs with
  | [] => None
  | c :: cs' =>
      if String.eqb (id (get h c)) childId then Some 0%nat
      else S <$> findIndex_id h childId cs'
  end.

(** [removeChild(childId)]: the first child with that id is spliced out. *)
Definition removeChild (h : heap) (self : loc) (childId : string) : heap * bool :=
  let s := get h self in
  match children s with
  | None => (h, false)
  | Some cs =>
      match findIndex_id h childId cs with
      | Some i => (<[self := set_children (Some (delete i cs)) s]> h, true)
      | None => (h, false)
      end
  end.

(** [getSize()]: the recursion follows [children]; [fuel] is the depth of
    calls the engine allows, and [None] is the call that exceeds it. *)
Fixpoint getSize (fuel : nat) (h : heap) (l : loc) : option Z :=
  match fuel with
  | O => None
  | S fuel' =>
      let n := get h l in
      if isFile n then Some (size n)
      else foldl (fun total child =>
                    t ← total; s ← getSize fuel' h child; Some (t + s))
                 (Some 0) (kids n)
  end.

(** The [while (currentNode)] loop of [getPath()]. *)
Fixpoint getPath_loop (fuel : nat) (h : heap) (path : string) (cur : option loc)
  : option string :=
  match cur with
  | None => Some path
  | Some c =>
      match fuel with
      | O => None
      | S fuel' =>
          let n := get h c in
          getPath_loop fuel' h (name n +:+ "/" +:+ path) (parent n)
      end
  end.

(** [getPath()] *)
Definition getPath (fuel : nat) (h : heap) (l : loc) : option string :=
  let n := get h l in
  p ← getPath_loop fuel h (name n) (parent n);
  Some ("/" +:+ p).

(** [Math.max(...dates.map(d => d.getTime()))] on a list that is not
    empty. *)
Definition latest (d : Z) (ds : list Z) : Z := foldl Z.max d ds.

(** [getLastModified()]: like [getSize], the recursion follows [children]
    and [fuel] is the depth of calls allowed.  A [Date] is its number of
    milliseconds, [null] is [None]. *)
Fixpoint getLastModified (fuel : nat) (h : heap) (l : loc) : option (option Z) :=
  match fuel with
  | O => None
  | S fuel' =>
      let n := get h l in
      if isFile n then Some (modifiedTime n)
      else
        dates ← mapM (getLastModified fuel' h) (kids n);
        match omap (fun d => d) dates with
        | [] => Some None
        | d :: ds => Some (Some (latest d ds))
        end
  end.

End Node.

(** ** The Drive client, as the code sees it *)

Module Drive.

(** [drive_v3.Schema$File], the fields the code asks for.  An absent string
    is the empty string (both are falsy and both differ from every path
    segment); [size] is the number its decimal string denotes; a timestamp
    is the number of milliseconds [new Date(...)] makes of it. *)
Record File : Type := mkFile {
  id : string;
  name : string;
  mimeType : string;
  size : option Z;
  modifiedTime : Z;
  createdTime : Z
}.

(** The clauses [search] adds to its query. *)
Inductive Clause : Type :=
| NameContains (s : string)
| MimeTypeIs (s : string)
| SizeAtLeast (n : Z)
| SizeAtMost (n : Z)
| ModifiedAfter (t : Z)
| ModifiedBefore (t : Z).

(** The [q] of [files.list]:
    - [QChildren p]: ['p' in parents and trashed = false]
    - [QNamed p n]: ['p' in parents and name = 'n' and trashed = false]
    - [QSearch p cs o k]: ['p' in parents and trashed = false and cs...],
      with [orderBy: o] and [pageSize: k]. *)
Inductive Query : Type :=
| QChildren (parentId : string)
| QNamed (parentId name : string)
| QSearch (parentId : string) (clauses : list Clause) (orderBy : string)
          (pageSize : Z).

(** A request to the client, or a reading of the clock. *)
Inductive Call : Type :=
| Now
| FilesGet (fileId : string)
| FilesGetMedia (fileId : string)
| FilesList (q : Query)
| FilesCreate (name : string) (mimeType : option string) (parent : string)
              (body : option string)
| FilesUpdate (fileId name : string) (body : option string)
              (addParents removeParents : option string)
| FilesDelete (fileId : string)
| FilesCopy (fileId name parent : string).

(** What the trace keeps of a call: the request, and the message when the
    call threw. *)
Record Event : Type := mkEvent {
  call : Call;
  threw : option string
}.

(** The remote store: its reply to a request is any function of the
    requests made so far. *)
Record Client : Type := mkClient {
  now : list Event -> Z;
  files_get : list Event -> string -> result File;
  files_get_media : list Event -> string -> result string;
  files_list : list Event -> Query -> result (list File);
  files_create : list Event -> string -> option string -> string ->
                 option string -> result File;
  files_update : list Event -> string -> string -> option string ->
                 option string -> option string -> result File;
  files_delete : list Event -> string -> result unit;
  files_copy : list Event -> string -> string -> string -> result File
}.

End Drive.

(** ** [class GDrive] *)

Module GDrive.

(** [GDriveOptions] *)
Record Options : Type := mkOptions {
  root : string;
  email : string;
  privateKey : string
}.

(** [NodeStat] *)
Record NodeStat : Type := mkStat {
  st_isDirectory : bool;
  st_isFile : bool;
  st_size : Z;
  st_mtime : option Z;
  st_ctime : option Z
}.

(** [NodeSearchOptions] *)
Record NodeSearchOptions : Type := mkSearch {
  so_name : option string;
  so_mimeType : option string;
  so_minSize : option Z;
  so_maxSize : option Z;
  so_modifiedAfter : option Z;
  so_modifiedBefore : option Z;
  so_orderBy : option string;
  so_limit : option Z
}.

(** The private fields of a [GDrive] instance, the heap of [Node] objects
    and the trace of the calls made so far. *)
Record World : Type := mkWorld {
  options : Options;
  connected : bool;            (* [#drive !== null] *)
  rootNode : option loc;
  lastConnect : option Z;
  heap : Node.heap;
  trace : list Drive.Event
}.

(** [new GDrive(options)] *)
Definition init (o : Options) : World := mkWorld o false None None [] [].

Definition set_connected (v : bool) (w : World) : World :=
  mkWorld (options w) v (rootNode w) (lastConnect w) (heap w) (trace w).
Definition set_rootNode (v : option loc) (w : World) : World :=
  mkWorld (options w) (connected w) v (lastConnect w) (heap w) (trace w).
Definition set_lastConnect (v : option Z) (w : World) : World :=
  mkWorld (options w) (connected w) (rootNode w) v (heap w) (trace w).
Definition set_heap (v : Node.heap) (w : World) : World :=
  mkWorld (options w) (connected w) (rootNode w) (lastConnect w) v (trace w).
Definition set_trace (v : list Drive.Event) (w : World) : World :=
  mkWorld (options w) (connected w) (rootNode w) (lastConnect w) (heap w) v.

(** *** The monad of methods *)

Definition M (A : Type) : Type := World -> World * result A.

Definition ret {A} (a : A) : M A := fun w => (w, Ok a).
Definition throw {A} (message : string) : M A := fun w => (w, Err message).
Definition bind {A B} (m : M A) (k : A -> M B) : M B :=
  fun w => match m w with
           | (w', Ok a) => k a w'
           | (w', Err e) => (w', Err e)
           end.
(** [try { m } catch (error) { handler(error.message) }] *)
Definition try_catch {A} (m : M A) (handler : string -> M A) : M A :=
  fun w => match m w with
           | (w', Ok a) => (w', Ok a)
           | (w', Err e) => handler e w'
           end.
(** [try { m } catch (error) { throw new Error(prefix + error.message) }] *)
Definition wrap {A} (prefix : string) (m : M A) : M A :=
  try_catch m (fun message => throw (prefix +:+ message)).
Definition gets {A} (f : World -> A) : M A := fun w => (w, Ok (f w)).
Definition modify (f : World -> World) : M unit := fun w => (f w, Ok tt).

Notation "'let!' x ':=' m 'in' k" := (bind m (fun x => k))
  (at level 10, x name, m at level 100, k at level 200).
Notation "m '>>' k" := (bind m (fun _ => k))
  (at level 80, right associativity).

(** [CONNECTION_TIMEOUT]: 3 hours *)
Definition CONNECTION_TIMEOUT : Z := 3 * 60 * 60 * 1000.

Definition falsy (s : string) : bool := negb (Path.truthy s).

(** [parseInt(file.size ?? '0')] and [parseInt(file.size!) || 0] *)
Definition parseSize (f : Drive.File) : Z := default 0 (Drive.size f).

(** [new Node({ id: file.id!, name: file.name!, ... })] *)
Definition node_of_file (f : Drive.File) : Node.t :=
  Node.new (Drive.id f) (Drive.name f) (Drive.mimeType f) (parseSize f)
           (Some (Drive.modifiedTime f)) (Some (Drive.createdTime f)).

(** [find(child => child.name === part)] on [children] *)
Fixpoint find_name (h : Node.heap) (part : string) (cs : list loc) : option loc :=
  match cs with
  | [] => None
  | c :: cs' =>
      if String.eqb (Node.name (Node.get h c)) part then Some c
      else find_name h part cs'
  end.

(** [currentNode.children?.find(child => child.name === part)] *)
Definition find_child (h : Node.heap) (cur : loc) (part : string) : option loc :=
  find_name h part (Node.kids (Node.get h cur)).

(** The loop of [#resolvePath] when every segment is found in the cache:
    the current node is a folder and has a child of that name. *)
Fixpoint cache_walk (h : Node.heap) (parts : list string) (cur : loc) : option loc :=
  match parts with
  | [] => Some cur
  | part :: rest =>
      if Node.isDirectory (Node.get h cur) then
        c ← find_child h cur part; cache_walk h rest c
      else None
  end.

(** [children.findIndex(child => child.id === existingFile.id)] followed by
    [children[index] = updatedNode] *)
Definition replace_child (h : Node.heap) (self : loc) (childId : string)
           (updated : loc) : Node.heap :=
  let s := Node.get h self in
  match Node.children s with
  | None => h
  | Some cs =>
      match Node.findIndex_id h childId cs with
      | Some i => <[self := Node.set_children (Some (<[i := updated]> cs)) s]> h
      | None => h
      end
  end.

Section Methods.

Variable drive : Drive.Client.
(** The depth of recursion the engine allows to [getSize]. *)
Variable stack : nat.

(** A request: the reply depends on the trace, and the trace grows. *)
Definition request {A} (c : Drive.Call)
           (reply : list Drive.Event -> result A) : M A :=
  fun w =>
    let r := reply (trace w) in
    let e := Drive.mkEvent c (match r with Err m => Some m | Ok _ => None end) in
    (set_trace (trace w ++ [e]) w, r).

(** [new Date()] *)
Definition clock : M Z :=
  request Drive.Now (fun tr => Ok (Drive.now drive tr)).

(** [new Node(...)] *)
Definition new_node (n : Node.t) : M loc :=
  fun w => let '(h, l) := Node.alloc (heap w) n in (set_heap h w, Ok l).

Definition read (l : loc) : M Node.t := gets (fun w => Node.get (heap w) l).
Definition update_heap (f : Node.heap -> Node.heap) : M unit :=
  modify (fun w => set_heap (f (heap w)) w).

(** [connect()] *)
Definition connect : M unit :=
  let! o := gets options in
  if falsy (email o) || falsy (privateKey o) then
    throw "Invalid authentication credentials"
  else
    wrap "Failed to connect to Google Drive: "
      (modify (set_connected true) >>
       let! t := clock in
       modify (set_lastConnect (Some t)) >>
       let! data := request (Drive.FilesGet (root o))
                            (fun tr => Drive.files_get drive tr (root o)) in
       if falsy (Drive.id data) || falsy (Drive.name data) then
         throw "Invalid root folder data received"
       else
         let! l := new_node (node_of_file data) in
         modify (set_rootNode (Some l))).

(** [autoConnect()] *)
Definition autoConnect : M unit :=
  let! currentTime := clock in
  let! c := gets connected in
  let! last := gets lastConnect in
  if negb c || match last with
               | Some t => CONNECTION_TIMEOUT <? currentTime - t
               | None => false
               end
  then connect else ret tt.

(** The [for (const part of parts)] loop of [#resolvePath]. *)
Fixpoint walk (path : string) (parts : list string) (currentNode : loc) : M loc :=
  match parts with
  | [] => ret currentNode
  | part :: rest =>
      let! cur := read currentNode in
      if negb (Node.isDirectory cur) then
        throw (Node.name cur +:+ " is not a directory")
      else
        let! childNode := gets (fun w => find_child (heap w) currentNode part) in
        match childNode with
        | Some c => walk path rest c
        | None =>
            let! files := request (Drive.FilesList (Drive.QNamed (Node.id cur) part))
                            (fun tr => Drive.files_list drive tr
                                         (Drive.QNamed (Node.id cur) part)) in
            match files with
            | [] => throw ("Path not found: " +:+ path)
            | file :: _ =>
                let! newNode := new_node (node_of_file file) in
                update_heap (fun h => Node.addChild h currentNode newNode) >>
                walk path rest newNode
            end
        end
  end.

(** [#resolvePath(path)] *)
Definition resolvePath (path : string) : M loc :=
  let! r := gets rootNode in
  match r with
  | None => throw "Root node not initialized. Please connect first."
  | Some rootNode =>
      if String.eqb path "/" then ret rootNode
      else walk path (Path.parts path) rootNode
  end.

(** The [map] callback of [readdir], run over the listing: each file
    becomes a node, is pushed on the array [node.children] holds at
    that time, and gets its [parent] set. *)
Fixpoint readdir_map (node : loc) (files : list Drive.File) : M (list loc) :=
  match files with
  | [] => ret []
  | file :: rest =>
      let! childNode := new_node (node_of_file file) in
      update_heap (fun h => Node.addChild h node childNode) >>
      let! cs := readdir_map node rest in
      ret (childNode :: cs)
  end.

(** The [try] block of [readdir]. *)
Definition readdir_body (path : string) : M (list loc) :=
  let! node := resolvePath path in
  let! n := read node in
  if negb (Node.isDirectory n) then throw "Not a directory"
  else
    let! files := request (Drive.FilesList (Drive.QChildren (Node.id n)))
                    (fun tr => Drive.files_list drive tr
                                 (Drive.QChildren (Node.id n))) in
    let! cs := readdir_map node files in
    update_heap (alter (Node.set_children (Some cs)) node) >>
    ret cs.

(** [readdir(path)] *)
Definition readdir (path : string) : M (list loc) :=
  autoConnect >> wrap "Failed to read directory: " (readdir_body path).

(** The [try] block of [mkdir]. *)
Definition mkdir_body (path : string) : M loc :=
  let parentPath := Path.parentPath path in
  let folderName := Path.leaf path in
  let! parentNode := resolvePath parentPath in
  let! p := read parentNode in
  let! res := request
                (Drive.FilesCreate folderName (Some Node.Folder) (Node.id p) None)
                (fun tr => Drive.files_create drive tr folderName
                             (Some Node.Folder) (Node.id p) None) in
  let! newNode := new_node
                    (Node.new (Drive.id res) (Drive.name res) (Drive.mimeType res)
                              0 (Some (Drive.modifiedTime res))
                              (Some (Drive.createdTime res))) in
  update_heap (fun h => Node.addChild h parentNode newNode) >>
  ret newNode.

(** [mkdir(path)] *)
Definition mkdir (path : string) : M loc :=
  autoConnect >> wrap "Failed to create directory: " (mkdir_body path).

(** [#findFileInFolder(folderId, fileName)]: [files?.[0] || null] *)
Definition findFileInFolder (folderId fileName : string) : M (option Drive.File) :=
  wrap "Failed to search for file: "
    (let! files := request (Drive.FilesList (Drive.QNamed folderId fileName))
                     (fun tr => Drive.files_list drive tr
                                  (Drive.QNamed folderId fileName)) in
     ret (head files)).

(** The [try] block of [writeFile]. *)
Definition writeFile_body (path content : string) : M loc :=
  let parentPath := Path.parentPath path in
  let fileName := Path.leaf path in
  let! parentNode := resolvePath parentPath in
  let! p := read parentNode in
  let! existingFile := findFileInFolder (Node.id p) fileName in
  match existingFile with
  | Some existing =>
      let! res := request
                    (Drive.FilesUpdate (Drive.id existing) fileName (Some content)
                                       None None)
                    (fun tr => Drive.files_update drive tr (Drive.id existing)
                                 fileName (Some content) None None) in
      let! updatedNode := new_node (node_of_file res) in
      update_heap (fun h => replace_child h parentNode (Drive.id existing)
                                          updatedNode) >>
      ret updatedNode
  | None =>
      let! res := request
                    (Drive.FilesCreate fileName None (Node.id p) (Some content))
                    (fun tr => Drive.files_create drive tr fileName None
                                 (Node.id p) (Some content)) in
      let! newNode := new_node (node_of_file res) in
      update_heap (fun h => Node.addChild h parentNode newNode) >>
      ret newNode
  end.

(** [writeFile(path, content)] *)
Definition writeFile (path content : string) : M loc :=
  autoConnect >> wrap "Failed to write file: " (writeFile_body path content).

(** The [try] block of [readFile]. *)
Definition readFile_body (path : string) : M string :=
  let! node := resolvePath path in
  let! n := read node in
  if Node.isDirectory n then throw "Cannot read a directory as a file"
  else request (Drive.FilesGetMedia (Node.id n))
               (fun tr => Drive.files_get_media drive tr (Node.id n)).

(** [readFile(path)] *)
Definition readFile (path : string) : M string :=
  autoConnect >> wrap "Failed to read file: " (readFile_body path).

(** [if (node.parent) { node.parent.removeChild(node.id); }] *)
Definition detach (node : loc) : M unit :=
  let! n := read node in
  match Node.parent n with
  | Some p => update_heap (fun h => fst (Node.removeChild h p (Node.id n)))
  | None => ret tt
  end.

(** The [try] block of [unlink]. *)
Definition unlink_body (path : string) : M unit :=
  let! node := resolvePath path in
  let! n := read node in
  request (Drive.FilesDelete (Node.id n))
          (fun tr => Drive.files_delete drive tr (Node.id n)) >>
  detach node.

(** [unlink(path)] *)
Definition unlink (path : string) : M unit :=
  autoConnect >> wrap "Failed to delete file/directory: " (unlink_body path).

(** The [try] block of [rename]. *)
Definition rename_body (oldPath newPath : string) : M loc :=
  let! node := resolvePath oldPath in
  let newParentPath := Path.parentPath newPath in
  let newName := Path.leaf newPath in
  let! newParentNode := resolvePath newParentPath in
  let! n := read node in
  let! np := read newParentNode in
  let! h := gets heap in
  let removeParents := (fun p => Node.id (Node.get h p)) <$> Node.parent n in
  request (Drive.FilesUpdate (Node.id n) newName None (Some (Node.id np))
                             removeParents)
          (fun tr => Drive.files_update drive tr (Node.id n) newName None
                       (Some (Node.id np)) removeParents) >>
  update_heap (alter (Node.set_name newName) node) >>
  detach node >>
  update_heap (fun h => Node.addChild h newParentNode node) >>
  ret node.

(** [rename(oldPath, newPath)] *)
Definition rename (oldPath newPath : string) : M loc :=
  autoConnect >> wrap "Failed to rename/move: " (rename_body oldPath newPath).

(** The [try] block of [stat]. *)
Definition stat_body (path : string) : M NodeStat :=
  let! node := resolvePath path in
  let! n := read node in
  let! h := gets heap in
  match Node.getSize stack h node with
  | Some sz =>
      ret (mkStat (Node.isDirectory n) (Node.isFile n) sz
                  (Node.modifiedTime n) (Node.createdTime n))
  | None => throw "Maximum call stack size exceeded"
  end.

(** [stat(path)]: [getSize] recurses, and a recursion deeper than the
    engine allows throws a [RangeError]. *)
Definition stat (path : string) : M NodeStat :=
  autoConnect >> wrap "Failed to get file stats: " (stat_body path).

(** The clauses [search] pushes on [queryParts]; an empty string and the
    number 0 are falsy. *)
Definition search_clauses (o : NodeSearchOptions) : list Drive.Clause :=
  (match so_name o with
   | Some s => if Path.truthy s then [Drive.NameContains s] else []
   | None => [] end) ++
  (match so_mimeType o with
   | Some s => if Path.truthy s then [Drive.MimeTypeIs s] else []
   | None => [] end) ++
  (match so_minSize o with
   | Some n => if n =? 0 then [] else [Drive.SizeAtLeast n]
   | None => [] end) ++
  (match so_maxSize o with
   | Some n => if n =? 0 then [] else [Drive.SizeAtMost n]
   | None => [] end) ++
  (match so_modifiedAfter o with
   | Some t => [Drive.ModifiedAfter t]
   | None => [] end) ++
  (match so_modifiedBefore o with
   | Some t => [Drive.ModifiedBefore t]
   | None => [] end).

Definition search_query (parentId : string) (o : NodeSearchOptions) : Drive.Query :=
  Drive.QSearch parentId (search_clauses o)
    (match so_orderBy o with
     | Some s => if Path.truthy s then s else "modifiedTime desc"
     | None => "modifiedTime desc" end)
    (match so_limit o with
     | Some n => if n =? 0 then 100 else n
     | None => 100 end).

(** [files.map(file => new Node(...))] *)
Fixpoint search_map (files : list Drive.File) : M (list loc) :=
  match files with
  | [] => ret []
  | file :: rest =>
      let! l := new_node (node_of_file file) in
      let! ls := search_map rest in
      ret (l :: ls)
  end.

(** The [try] block of [search]. *)
Definition search_body (o : NodeSearchOptions) (path : string) : M (list loc) :=
  let! parentNode := resolvePath path in
  let! p := read parentNode in
  let! files := request (Drive.FilesList (search_query (Node.id p) o))
                  (fun tr => Drive.files_list drive tr
                               (search_query (Node.id p) o)) in
  search_map files.

(** [search(options, path)] *)
Definition search (o : NodeSearchOptions) (path : string) : M (list loc) :=
  autoConnect >> wrap "Failed to search: " (search_body o path).

(** The [try] block of [copy]. *)
Definition copy_body (sourcePath destinationPath : string) : M loc :=
  let! sourceNode := resolvePath sourcePath in
  let destParentPath := Path.parentPath destinationPath in
  let! destParentNode := resolvePath destParentPath in
  let newName := Path.leaf destinationPath in
  let! s := read sourceNode in
  let! d := read destParentNode in
  let! res := request (Drive.FilesCopy (Node.id s) newName (Node.id d))
                (fun tr => Drive.files_copy drive tr (Node.id s) newName
                             (Node.id d)) in
  let! newNode := new_node (node_of_file res) in
  update_heap (fun h => Node.addChild h destParentNode newNode) >>
  ret newNode.

(** [copy(sourcePath, destinationPath)] *)
Definition copy (sourcePath destinationPath : string) : M loc :=
  autoConnect >> wrap "Failed to copy file: " (copy_body sourcePath destinationPath).

(** *** The public surface, as one type of operations *)

Inductive Op : Type :=
| OConnect
| OResolve (path : string)
| OReaddir (path : string)
| OMkdir (path : string)
| OWriteFile (path content : string)
| OReadFile (path : string)
| OUnlink (path : string)
| ORename (oldPath newPath : string)
| OStat (path : string)
| OSearch (o : NodeSearchOptions) (path : string)
| OCopy (sourcePath destinationPath : string).

Inductive Value : Type :=
| VUnit
| VNode (l : loc)
| VNodes (ls : list loc)
| VText (s : string)
| VStat (st : NodeStat).

Definition fmap {A B} (f : A -> B) (m : M A) : M B :=
  let! a := m in ret (f a).

Definition run (o : Op) : M Value :=
  match o with
  | OConnect => fmap (fun _ => VUnit) connect
  | OResolve p => fmap VNode (resolvePath p)
  | OReaddir p => fmap VNodes (readdir p)
  | OMkdir p => fmap VNode (mkdir p)
  | OWriteFile p c => fmap VNode (writeFile p c)
  | OReadFile p => fmap VText (readFile p)
  | OUnlink p => fmap (fun _ => VUnit) (unlink p)
  | ORename a b => fmap VNode (rename a b)
  | OStat p => fmap VStat (stat p)
  | OSearch o p => fmap VNodes (search o p)
  | OCopy a b => fmap VNode (copy a b)
  end.

(** The message each public operation puts in front of a failure of its
    [try] block, and that block. *)
Definition body (o : Op) : option (string * M Value) :=
  match o with
  | OConnect | OResolve _ => None
  | OReaddir p => Some ("Failed to read directory: ", fmap VNodes (readdir_body p))
  | OMkdir p => Some ("Failed to create directory: ", fmap VNode (mkdir_body p))
  | OWriteFile p c => Some ("Failed to write file: ", fmap VNode (writeFile_body p c))
  | OReadFile p => Some ("Failed to read file: ", fmap VText (readFile_body p))
  | OUnlink p =>
      Some ("Failed to delete file/directory: ", fmap (fun _ => VUnit) (unlink_body p))
  | ORename a b => Some ("Failed to rename/move: ", fmap VNode (rename_body a b))
  | OStat p => Some ("Failed to get file stats: ", fmap VStat (stat_body p))
  | OSearch o p => Some ("Failed to search: ", fmap VNodes (search_body o p))
  | OCopy a b => Some ("Failed to copy file: ", fmap VNode (copy_body a b))
  end.

(** The world after a sequence of operations, whatever each returned. *)
Definition exec (ops : list Op) (w : World) : World :=
  foldl (fun w o => fst (run o w)) w ops.

End Methods.

End GDrive.

(** ** A small remote store, to run the methods on *)

Module Example.

Definition folder (i n : string) : Drive.File :=
  Drive.mkFile i n Node.Folder None 1 1.
Definition file (i n : string) (sz : Z) : Drive.File :=
  Drive.mkFile i n "text/plain" (Some sz) 1 1.

(** The entries of the store, each with the id of its parent: a folder
    [a] under the root, holding the files [x] (10 bytes) and [y] (20
    bytes), and a file [f.txt] under the root. *)
Definition entries : list (string * Drive.File) :=
  [("root", folder "ida" "a");
   ("ida", file "idx" "x" 10);
   ("ida", file "idy" "y" 20);
   ("root", file "idf" "f.txt" 7)].

Definition selects (q : Drive.Query) (e : string * Drive.File) : bool :=
  match q with
  | Drive.QChildren p => String.eqb e.1 p
  | Drive.QNamed p n => String.eqb e.1 p && String.eqb (Drive.name e.2) n
  | Drive.QSearch p _ _ _ => String.eqb e.1 p
  end.

Definition listing (q : Drive.Query) : list Drive.File :=
  List.map snd (List.filter (selects q) entries).

(** A store that never fails and whose listings never change: they select
    from [entries]; every creation, update and copy is accepted; the clock
    advances by one at each call. *)
Definition client : Drive.Client :=
  Drive.mkClient
    (fun tr => Z.of_nat (List.length tr))
    (fun _ _ => Ok (folder "root" "My Drive"))
    (fun _ _ => Ok "hello")
    (fun _ q => Ok (listing q))
    (fun _ n m _ _ => Ok (Drive.mkFile "idnew" n (default "text/plain" m) (Some 0) 2 2))
    (fun _ i n _ _ _ => Ok (Drive.mkFile i n "text/plain" (Some 3) 3 3))
    (fun _ _ => Ok tt)
    (fun _ _ n _ => Ok (Drive.mkFile "idcopy" n "text/plain" (Some 0) 4 4)).

(** The same store, when every listing fails. *)
Definition failing : Drive.Client :=
  Drive.mkClient
    (Drive.now client) (Drive.files_get client) (Drive.files_get_media client)
    (fun _ _ => Err "boom")
    (Drive.files_create client) (Drive.files_update client)
    (Drive.files_delete client) (Drive.files_copy client).

(** The same store, when the root folder cannot be fetched. *)
Definition unreachable : Drive.Client :=
  Drive.mkClient
    (Drive.now client) (fun _ _ => Err "boom") (Drive.files_get_media client)
    (Drive.files_list client)
    (Drive.files_create client) (Drive.files_update client)
    (Drive.files_delete client) (Drive.files_copy client).

Definition options : GDrive.Options := GDrive.mkOptions "root" "me@example.org" "key".

(** A fresh instance, connected. *)
Definition connected : GDrive.World :=
  (GDrive.connect client (GDrive.init options)).1.

(** Upper-case ASCII letters made lower-case. *)
Definition lower_ascii (c : ascii) : ascii :=
  let n := nat_of_ascii c in
  if ((65 <=? n) && (n <=? 90))%nat then ascii_of_nat (n + 32) else c.

Fixpoint lower (s : string) : string :=
  match s with
  | EmptyString => EmptyString
  | String c s' => String (lower_ascii c) (lower s')
  end.

Definition selects_loosely (q : Drive.Query) (e : string * Drive.File) : bool :=
  match q with
  | Drive.QNamed p n =>
      String.eqb e.1 p && String.eqb (lower (Drive.name e.2)) (lower n)
  | _ => selects q e
  end.

(** The same store, when its name filter disregards the case of letters:
    asked for [A], it lists the entry [a]. *)
Definition insensitive : Drive.Client :=
  Drive.mkClient
    (Drive.now client) (Drive.files_get client) (Drive.files_get_media client)
    (fun _ q => Ok (List.map snd (List.filter (selects_loosely q) entries)))
    (Drive.files_create client) (Drive.files_update client)
    (Drive.files_delete client) (Drive.files_copy client).



End Example.

(** * The vocabulary of the properties *)

Import GDrive.

(** Every reference stored in a node is a reference to an object. *)
Definition closed (h : Node.heap) : Prop :=
  forall l, (l < List.length h)%nat ->
    Forall (fun c => (c < List.length h)%nat) (Node.kids (Node.get h l)) /\
    (forall p, Node.parent (Node.get h l) = Some p -> (p < List.length h)%nat).

(** A node that is not a folder has no [children]. *)
Definition files_childless (h : Node.heap) : Prop :=
  forall l, Node.isDirectory (Node.get h l) = false ->
    Node.children (Node.get h l) = None.

Definition heap_ok (h : Node.heap) : Prop := closed h /\ files_childless h.

Definition wf (w : World) : Prop :=
  heap_ok (heap w) /\
  (forall r, rootNode w = Some r -> (r < List.length (heap w))%nat).

(** [grow h h']: objects are kept, with their id, name and type, and
    [children] arrays only get longer at their end. *)
Definition grow (h h' : Node.heap) : Prop :=
  (List.length h <= List.length h')%nat /\
  forall l, (l < List.length h)%nat ->
    Node.id (Node.get h' l) = Node.id (Node.get h l) /\
    Node.name (Node.get h' l) = Node.name (Node.get h l) /\
    Node.mimeType (Node.get h' l) = Node.mimeType (Node.get h l) /\
    Node.kids (Node.get h l) `prefix_of` Node.kids (Node.get h' l).

(** The private fields of the instance are the same. *)
Definition same_fields (w w' : World) : Prop :=
  options w' = options w /\ connected w' = connected w /\
  rootNode w' = rootNode w /\ lastConnect w' = lastConnect w.

(** The world after a request has been logged. *)
Definition logged (w : World) (c : Drive.Call) (failure : option string) : World :=
  set_trace (trace w ++ [Drive.mkEvent c failure]) w.

(** The world after the first entry of a listing has been made a node and
    attached to [cur]. *)
Definition attached (w : World) (cur : loc) (file : Drive.File) : World :=
  set_heap (Node.addChild (heap w ++ [node_of_file file]) cur (List.length (heap w))) w.

(** The name filter of a listing is exact: every entry it returns bears
    the name that was asked for.  This is the contract of the remote
    store's [list(parentId, nameFilter)]. *)
Definition exact_names (drive : Drive.Client) : Prop :=
  forall tr parentId name files,
    Drive.files_list drive tr (Drive.QNamed parentId name) = Ok files ->
    Forall (fun f => Drive.name f = name) files.

(** [below h r n]: following [parent] from [n] reaches [r] in at least one
    step. *)
Inductive below (h : Node.heap) (r : loc) : loc -> Prop :=
| below_child n :
    Node.parent (Node.get h n) = Some r -> below h r n
| below_step n p :
    Node.parent (Node.get h n) = Some p -> below h r p -> below h r n.

(** The sum of a list of sizes. *)
Definition total (zs : list Z) : Z := foldr Z.add 0 zs.



(** [occurs sub s]: [sub] is a substring of [s]. *)
Fixpoint occurs (sub s : string) : bool :=
  String.prefix sub s ||
  match s with
  | EmptyString => false
  | String _ s' => occurs sub s'
  end.

(** No call of [evs] threw. *)
Definition silent (evs : list Drive.Event) : Prop :=
  Forall (fun e => Drive.threw e = None) evs.

Definition ends_with (e message : string) : Prop :=
  exists front, e = front +:+ message.

(** Of the calls made between [w] and [w'], at most one threw; it is the
    last one, the result is an error, and the error ends with the message
    of the call. *)
Definition one_failure_last {A} (w w' : World) (r : result A) : Prop :=
  exists evs, trace w' = trace w ++ evs /\
    (silent evs \/
     exists evs0 c message e,
       evs = evs0 ++ [Drive.mkEvent c (Some message)] /\ silent evs0 /\
       r = Err e /\ ends_with e message).

Definition traced {A} (m : M A) : Prop :=
  forall w w' r, m w = (w', r) -> one_failure_last w w' r.

(** The requests that change the remote store. *)
Definition mutating (c : Drive.Call) : bool :=
  match c with
  | Drive.FilesCreate _ _ _ _ | Drive.FilesUpdate _ _ _ _ _
  | Drive.FilesDelete _ | Drive.FilesCopy _ _ _ => true
  | _ => false
  end.

(** How many of the calls of [evs] change the remote store. *)
Definition mutations (evs : list Drive.Event) : nat :=
  List.length (List.filter (fun e => mutating (Drive.call e)) evs).

(** [m] makes [k] calls that change the remote store when it returns, and
    at most [k] when it throws. *)
Definition mutates {A} (k : nat) (m : M A) : Prop :=
  forall w w' r, m w = (w', r) ->
    exists evs, trace w' = trace w ++ evs /\
      match r with
      | Ok _ => mutations evs = k
      | Err _ => (mutations evs <= k)%nat
      end.

(** The operations that only read the remote store. *)
Definition reads_only (o : Op) : bool :=
  match o with
  | OConnect | OResolve _ | OReaddir _ | OReadFile _ | OStat _ | OSearch _ _ => true
  | _ => false
  end.

Definition is_rename (o : Op) : bool :=
  match o with ORename _ _ => true | _ => false end.

(** [keeps f h h']: the objects of [h] are objects of [h'], with the same
    value of [f]. *)
Definition keeps {A} (f : Node.t -> A) (h h' : Node.heap) : Prop :=
  (List.length h <= List.length h')%nat /\
  forall l, (l < List.length h)%nat -> f (Node.get h' l) = f (Node.get h l).

(** [m] keeps the value of [f] at every object. *)
Definition steady {A B} (f : Node.t -> A) (m : M B) : Prop :=
  forall w w' r, m w = (w', r) -> keeps f (heap w) (heap w').

(** [grows m]: [m] keeps the world well formed and the root of the
    instance, and only adds to the cache. *)
Definition grows {A} (m : M A) : Prop :=
  forall w w' r, m w = (w', r) -> wf w ->
    wf w' /\ grow (heap w) (heap w') /\ rootNode w' = rootNode w.

(** [unfailing m]: [m] returns, whatever the world. *)
Definition unfailing {A} (m : M A) : Prop :=
  forall w, exists w' a, m w = (w', Ok a).

(** [careful m]: when [m] throws, it has kept the root of the instance and
    has only added to the cache. *)
Definition careful {A} (m : M A) : Prop :=
  forall w w' e, m w = (w', Err e) -> wf w ->
    grow (heap w) (heap w') /\ rootNode w' = rootNode w.

(** * Properties *)

(** ** The heap: reading after allocation and update *)

Section HeapFacts.

Implicit Types (h : Node.heap) (l c : loc) (n : Node.t).

Lemma get_allocated h l : (l < List.length h)%nat -> h !! l = Some (Node.get h l).
Proof.
  intros Hl. unfold Node.get.
  destruct (lookup_lt_is_Some_2 h l Hl) as [n ->]. done.
Qed.

Lemma get_dangling h l : (List.length h <= l)%nat -> Node.get h l = Node.nil.
Proof. intros Hl. unfold Node.get. by rewrite lookup_ge_None_2. Qed.

Lemma get_app_old h h' l : (l < List.length h)%nat -> Node.get (h ++ h') l = Node.get h l.
Proof. intros Hl. unfold Node.get. by rewrite lookup_app_l. Qed.

Lemma get_app_new h n : Node.get (h ++ [n]) (List.length h) = n.
Proof. unfold Node.get. by rewrite list_lookup_middle. Qed.

Lemma get_insert_eq h l n : (l < List.length h)%nat -> Node.get (<[l := n]> h) l = n.
Proof. intros Hl. unfold Node.get. by rewrite list_lookup_insert_eq. Qed.

Lemma get_insert_ne h l l' n : l <> l' -> Node.get (<[l := n]> h) l' = Node.get h l'.
Proof. intros Hl. unfold Node.get. by rewrite list_lookup_insert_ne. Qed.

Lemma get_alter_eq h l (f : Node.t -> Node.t) :
  (l < List.length h)%nat -> Node.get (alter f l h) l = f (Node.get h l).
Proof.
  intros Hl. unfold Node.get. rewrite list_lookup_alter_eq.
  destruct (lookup_lt_is_Some_2 h l Hl) as [n ->]. done.
Qed.

Lemma get_alter_ne h l l' (f : Node.t -> Node.t) :
  l <> l' -> Node.get (alter f l h) l' = Node.get h l'.
Proof. intros Hl. unfold Node.get. by rewrite list_lookup_alter_ne. Qed.

Lemma directory_allocated h l :
  Node.isDirectory (Node.get h l) = true -> (l < List.length h)%nat.
Proof.
  intros Hd. destruct (decide (l < List.length h)%nat) as [|Hge]; [done|].
  rewrite get_dangling in Hd by lia. discriminate.
Qed.

Lemma length_addChild h self child :
  List.length (Node.addChild h self child) = List.length h.
Proof.
  unfold Node.addChild. destruct (Node.isDirectory _); [|done].
  by rewrite length_alter, length_insert.
Qed.

(** What [addChild] leaves at each reference. *)
Lemma get_addChild h self child l :
  (child < List.length h)%nat ->
  Node.get (Node.addChild h self child) l =
    if Node.isDirectory (Node.get h self) then
      let n := Node.get h l in
      let n1 := if decide (l = self)
                then Node.set_children (Some (Node.kids n ++ [child])) n else n in
      if decide (l = child) then Node.set_parent (Some self) n1 else n1
    else Node.get h l.
Proof.
  intros Hc. unfold Node.addChild.
  destruct (Node.isDirectory (Node.get h self)) eqn:Hd; [|done].
  pose proof (directory_allocated _ _ Hd) as Hs. simpl.
  destruct (decide (l = child)) as [->|Hlc].
  - rewrite get_alter_eq by (by rewrite length_insert).
    destruct (decide (child = self)) as [->|Hcs].
    + by rewrite get_insert_eq.
    + by rewrite get_insert_ne.
  - rewrite get_alter_ne by done.
    destruct (decide (l = self)) as [->|Hls].
    + by rewrite get_insert_eq.
    + by rewrite get_insert_ne.
Qed.

Lemma length_removeChild h self childId :
  List.length (Node.removeChild h self childId).1 = List.length h.
Proof.
  unfold Node.removeChild. destruct (Node.children _); [|done].
  destruct (Node.findIndex_id _ _ _); [|done]. simpl. by rewrite length_insert.
Qed.

Lemma length_replace_child h self childId updated :
  List.length (replace_child h self childId updated) = List.length h.
Proof.
  unfold replace_child. destruct (Node.children _); [|done].
  destruct (Node.findIndex_id _ _ _); [|done]. by rewrite length_insert.
Qed.

End HeapFacts.

(** ** Invariants of the heap, and how resolution extends it *)

Section Invariants.

Implicit Types (h : Node.heap) (l c : loc) (n : Node.t).

Lemma grow_refl h : grow h h.
Proof. split; [done|]. intros l _. by repeat split. Qed.

Lemma grow_trans h1 h2 h3 : grow h1 h2 -> grow h2 h3 -> grow h1 h3.
Proof.
  intros [Hl1 H1] [Hl2 H2]. split; [lia|]. intros l Hl.
  destruct (H1 l Hl) as (Hi & Hn & Hm & Hk).
  destruct (H2 l ltac:(lia)) as (Hi' & Hn' & Hm' & Hk').
  repeat split; try congruence. by etrans.
Qed.

Lemma grow_directory h h' l :
  grow h h' -> Node.isDirectory (Node.get h l) = true ->
  Node.isDirectory (Node.get h' l) = true.
Proof.
  intros [_ H] Hd. pose proof (directory_allocated _ _ Hd) as Hl.
  destruct (H l Hl) as (_ & _ & Hm & _). unfold Node.isDirectory in *.
  by rewrite Hm.
Qed.

Lemma grow_alloc h n : grow h (h ++ [n]).
Proof.
  split; [rewrite length_app; lia|]. intros l Hl.
  rewrite get_app_old by done. by repeat split.
Qed.

Lemma grow_addChild h self child :
  (child < List.length h)%nat -> grow h (Node.addChild h self child).
Proof.
  intros Hc. split; [by rewrite length_addChild|]. intros l Hl.
  rewrite get_addChild by done.
  destruct (Node.isDirectory (Node.get h self)); [|by repeat split].
  simpl. destruct (decide (l = child)), (decide (l = self)); simpl;
    repeat split; try done; by apply prefix_app_r.
Qed.

Lemma heap_ok_alloc h n :
  heap_ok h -> Node.children n = None -> Node.parent n = None ->
  heap_ok (h ++ [n]).
Proof.
  intros [Hc Hf] Hch Hp. split.
  - intros l Hl. rewrite length_app in *. simpl in *.
    destruct (decide (l < List.length h)%nat) as [Hlt|Hge].
    + rewrite get_app_old by done. destruct (Hc l Hlt) as [Hk Hpar]. split.
      * eapply Forall_impl; [exact Hk|]. simpl. intros; lia.
      * intros p Hpp. specialize (Hpar p Hpp). lia.
    + assert (l = List.length h) as -> by lia. rewrite get_app_new.
      unfold Node.kids. rewrite Hch, Hp. split; [constructor|done].
  - intros l Hd.
    destruct (decide (l < List.length h)%nat) as [Hlt|Hge].
    + rewrite get_app_old in * by done. by apply Hf.
    + destruct (decide (l = List.length h)) as [->|Hne].
      * by rewrite get_app_new.
      * rewrite get_dangling; [done|]. rewrite length_app. simpl. lia.
Qed.

Lemma heap_ok_addChild h self child :
  heap_ok h -> (child < List.length h)%nat ->
  heap_ok (Node.addChild h self child).
Proof.
  intros [Hc Hf] Hch.
  destruct (Node.isDirectory (Node.get h self)) eqn:Hd; cycle 1.
  { unfold Node.addChild. by rewrite Hd. }
  pose proof (directory_allocated _ _ Hd) as Hs. split.
  - intros l Hl. rewrite length_addChild in *. rewrite get_addChild, Hd by done.
    destruct (Hc l Hl) as [Hk Hpar]. simpl.
    destruct (decide (l = child)), (decide (l = self)); simpl; split;
      try done; try (intros p [= <-]; done);
      unfold Node.kids at 1; simpl; apply Forall_app; split; try done;
      by repeat constructor.
  - intros l. rewrite get_addChild, Hd by done. simpl.
    destruct (decide (l = child)), (decide (l = self)); simpl; subst;
      try apply Hf; unfold Node.isDirectory in *; simpl; congruence.
Qed.

(** *** Looking a child up by name *)

Lemma find_name_elem h part cs c : find_name h part cs = Some c -> c ∈ cs.
Proof.
  induction cs as [|x cs IH]; simpl; [done|].
  destruct (String.eqb _ _).
  - intros [= ->]. constructor.
  - intros H. constructor. by apply IH.
Qed.


Lemma find_name_app h part cs k :
  find_name h part (cs ++ k) =
    match find_name h part cs with
    | Some c => Some c
    | None => find_name h part k
    end.
Proof.
  induction cs as [|x cs IH]; simpl; [done|]. by destruct (String.eqb _ _).
Qed.

Lemma find_name_ext h h' part cs :
  Forall (fun c => Node.name (Node.get h' c) = Node.name (Node.get h c)) cs ->
  find_name h' part cs = find_name h part cs.
Proof.
  induction 1 as [|x cs Hx _ IH]; simpl; [done|]. by rewrite Hx, IH.
Qed.

(** A hit in the cache is the same hit after the heap has grown. *)
Lemma find_child_grow h h' cur part c :
  closed h -> grow h h' -> (cur < List.length h)%nat ->
  find_child h cur part = Some c -> find_child h' cur part = Some c.
Proof.
  intros Hc [_ Hg] Hcur Hfind. unfold find_child in *.
  destruct (Hg cur Hcur) as (_ & _ & _ & [k ->]).
  rewrite find_name_app.
  rewrite (find_name_ext h h'), Hfind; [done|].
  destruct (Hc cur Hcur) as [Hk _].
  eapply Forall_impl; [exact Hk|]. simpl. intros x Hx.
  by destruct (Hg x Hx) as (_ & -> & _).
Qed.

End Invariants.

(** ** Path resolution *)

Section Resolution.

Variable drive : Drive.Client.

Implicit Types (w : World) (h : Node.heap) (l c cur : loc).

(** One turn of the loop of [#resolvePath]. *)
Lemma walk_cons path part rest cur w :
  walk drive path (part :: rest) cur w =
    let n := Node.get (heap w) cur in
    let q := Drive.QNamed (Node.id n) part in
    if negb (Node.isDirectory n) then
      (w, Err (Node.name n +:+ " is not a directory"))
    else
      match find_child (heap w) cur part with
      | Some c => walk drive path rest c w
      | None =>
          match Drive.files_list drive (trace w) q with
          | Err m => (logged w (Drive.FilesList q) (Some m), Err m)
          | Ok [] => (logged w (Drive.FilesList q) None,
                      Err ("Path not found: " +:+ path))
          | Ok (file :: _) =>
              walk drive path rest (List.length (heap w))
                   (attached (logged w (Drive.FilesList q) None) cur file)
          end
      end.
Proof.
  simpl. unfold bind, read, gets, request, throw, new_node, update_heap, modify.
  simpl. destruct (Node.isDirectory _); simpl; [|done].
  destruct (find_child _ _ _); [done|].
  destruct (Drive.files_list _ _ _) as [[|file fs]|m]; done.
Qed.

Lemma heap_ok_attached w cur file :
  heap_ok (heap w) -> heap_ok (heap (attached w cur file)).
Proof.
  intros H. simpl. apply heap_ok_addChild.
  - by apply heap_ok_alloc.
  - rewrite length_app. simpl. lia.
Qed.

Lemma grow_attached w cur file : grow (heap w) (heap (attached w cur file)).
Proof.
  simpl. eapply grow_trans; [apply grow_alloc|].
  apply grow_addChild. rewrite length_app. simpl. lia.
Qed.

Lemma length_attached w cur file :
  List.length (heap (attached w cur file)) = S (List.length (heap w)).
Proof. simpl. rewrite length_addChild, length_app. simpl. lia. Qed.

Lemma same_fields_refl w : same_fields w w.
Proof. by repeat split. Qed.

(** What a walk does to the world: the heap stays well formed and only
    grows, the node returned is an object, the fields of the instance are
    untouched and the trace is extended. *)
Lemma walk_spec path parts : forall cur w w' r,
  walk drive path parts cur w = (w', r) ->
  heap_ok (heap w) -> (cur < List.length (heap w))%nat ->
  heap_ok (heap w') /\ grow (heap w) (heap w') /\
  (forall l, r = Ok l -> (l < List.length (heap w'))%nat) /\
  same_fields w w' /\ trace w `prefix_of` trace w'.
Proof.
  induction parts as [|part rest IH]; intros cur w w' r Hwalk Hok Hcur.
  - injection Hwalk as <- <-. split_and!; try done; try apply grow_refl.
    by intros l [= <-].
  - rewrite walk_cons in Hwalk. simpl in Hwalk.
    destruct (Node.isDirectory (Node.get (heap w) cur)) eqn:Hd; simpl in Hwalk;
      cycle 1.
    { injection Hwalk as <- <-. split_and!; try done; apply grow_refl. }
    destruct (find_child (heap w) cur part) as [c|] eqn:Hfind.
    { apply IH in Hwalk; [done..|].
      apply find_name_elem in Hfind. destruct Hok as [Hc _].
      destruct (Hc cur Hcur) as [Hk _].
      by eapply Forall_forall in Hk. }
    destruct (Drive.files_list drive (trace w) _) as [[|file fs]|m].
    + injection Hwalk as <- <-.
      split_and!; try done; try apply grow_refl. by apply prefix_app_r.
    + apply IH in Hwalk; cycle 1.
      { by apply heap_ok_attached. }
      { rewrite length_attached. simpl. lia. }
      destruct Hwalk as (Hok' & Hg & Hl & Hsf & Htr).
      split_and!; try done.
      * eapply grow_trans; [|exact Hg].
        apply (grow_attached (logged w _ None)).
      * etrans; [|exact Htr]. by apply prefix_app_r.
    + injection Hwalk as <- <-.
      split_and!; try done; try apply grow_refl. by apply prefix_app_r.
Qed.

(** A walk that succeeded, run again on the world it left, finds every
    segment in the cache. *)
Lemma walk_again path parts : forall cur w w' l,
  exact_names drive ->
  walk drive path parts cur w = (w', Ok l) ->
  heap_ok (heap w) -> (cur < List.length (heap w))%nat ->
  walk drive path parts cur w' = (w', Ok l).
Proof.
  induction parts as [|part rest IH]; intros cur w w' l Hex Hwalk Hok Hcur.
  - by injection Hwalk as <- <-.
  - pose proof Hwalk as Hw. rewrite walk_cons in Hw. simpl in Hw.
    destruct (Node.isDirectory (Node.get (heap w) cur)) eqn:Hd; simpl in Hw;
      [|done].
    destruct (walk_spec _ _ _ _ _ _ Hwalk Hok Hcur) as (_ & Hg & _).
    rewrite walk_cons. simpl.
    rewrite (grow_directory _ _ _ Hg Hd). simpl.
    destruct (find_child (heap w) cur part) as [c|] eqn:Hfind.
    { rewrite (find_child_grow _ _ _ _ _ (proj1 Hok) Hg Hcur Hfind).
      eapply IH; [done..|].
      apply find_name_elem in Hfind.
      destruct (proj1 Hok cur Hcur) as [Hk _]. by eapply Forall_forall in Hk. }
    destruct (Drive.files_list drive (trace w) _) as [[|file fs]|m] eqn:Hlist;
      [done| |done].
    set (w1 := attached (logged w _ None) cur file) in *.
    assert (heap_ok (heap w1)) as Hok1 by by apply heap_ok_attached.
    assert (List.length (heap w) < List.length (heap w1))%nat as Hlen.
    { unfold w1. rewrite length_attached. simpl. lia. }
    destruct (walk_spec _ _ _ _ _ _ Hw Hok1 Hlen) as (_ & Hg1 & _).
    assert (find_child (heap w1) cur part = Some (List.length (heap w))) as Hhit.
    { unfold find_child, w1. simpl.
      rewrite get_addChild by (rewrite length_app; simpl; lia).
      rewrite !get_app_old by done. rewrite Hd. simpl.
      destruct (decide (cur = List.length (heap w))) as [->|_]; [lia|].
      rewrite decide_True by done.
      unfold Node.kids at 1. simpl. rewrite find_name_app.
      rewrite (find_name_ext (heap w)); cycle 1.
      { destruct (proj1 Hok cur Hcur) as [Hk _].
        eapply Forall_impl; [exact Hk|]. simpl. intros x Hx.
        rewrite get_addChild by (rewrite length_app; simpl; lia).
        rewrite !get_app_old by done. rewrite Hd. simpl.
        destruct (decide (x = _)), (decide (x = cur)); done. }
      unfold find_child in Hfind. rewrite Hfind. simpl.
      rewrite get_addChild by (rewrite length_app; simpl; lia).
      rewrite !get_app_old by done. rewrite Hd. simpl.
      rewrite get_app_new.
      rewrite decide_True by done.
      destruct (decide (_ = cur)); simpl;
        apply Hex in Hlist; apply Forall_cons in Hlist as [-> _];
        by rewrite String.eqb_refl. }
    assert (cur < List.length (heap w1))%nat as Hcur1 by lia.
    rewrite (find_child_grow _ _ _ _ _ (proj1 Hok1) Hg1 Hcur1 Hhit).
    eapply IH; [done..|lia].
Qed.

End Resolution.

(** ** Paths and their segments *)

Section PathFacts.

Lemma split_nonempty s : Path.split s <> [].
Proof.
  destruct s as [|c s]; simpl; [done|].
  destruct (Ascii.eqb c Path.slash); [done|]. by destruct (Path.split s).
Qed.

(** [(a + '/' + b).split('/')] is [a.split('/')] followed by [b.split('/')]. *)
Lemma split_slash a b :
  Path.split (a +:+ "/" +:+ b) = Path.split a ++ Path.split b.
Proof.
  induction a as [|c a IH]; simpl; [done|].
  destruct (Ascii.eqb c Path.slash); simpl; [by rewrite IH|].
  change (String.append a (String "/" b)) with (a +:+ "/" +:+ b).
  rewrite IH. pose proof (split_nonempty a).
  by destruct (Path.split a).
Qed.

Lemma parts_slash a b : Path.parts (a +:+ "/" +:+ b) = Path.parts a ++ Path.parts b.
Proof. unfold Path.parts. by rewrite split_slash, List.filter_app. Qed.

End PathFacts.

Section ResolutionFacts.

Variable drive : Drive.Client.

Implicit Types (w : World) (l c cur : loc).

(** The loop over [pre ++ rest] is the loop over [pre], then over [rest]
    from the node and the world it reached. *)
Lemma walk_app path pre rest : forall cur w,
  walk drive path (pre ++ rest) cur w =
    match walk drive path pre cur w with
    | (w1, Ok n) => walk drive path rest n w1
    | (w1, Err e) => (w1, Err e)
    end.
Proof.
  induction pre as [|part pre IH]; intros cur w; [done|].
  rewrite <- app_comm_cons, !walk_cons. simpl.
  destruct (negb _); [done|].
  destruct (find_child _ _ _); [apply IH|].
  destruct (Drive.files_list _ _ _) as [[|file fs]|m]; try done; apply IH.
Qed.

(** The requested path only shows in the message of a failure. *)
Lemma walk_ok_path path path' parts : forall cur w w' l,
  walk drive path parts cur w = (w', Ok l) ->
  walk drive path' parts cur w = (w', Ok l).
Proof.
  induction parts as [|part rest IH]; intros cur w w' l; [done|].
  rewrite !walk_cons. simpl.
  destruct (negb _); [done|].
  destruct (find_child _ _ _); [apply IH|].
  destruct (Drive.files_list _ _ _) as [[|file fs]|m]; try done; apply IH.
Qed.

Lemma resolvePath_walk path w r :
  rootNode w = Some r ->
  resolvePath drive path w = walk drive path (Path.parts path) r w.
Proof.
  intros Hr. unfold resolvePath, bind, gets. rewrite Hr.
  destruct (String.eqb path "/") eqn:E; [|done].
  apply String.eqb_eq in E as ->. done.
Qed.

Lemma resolvePath_no_root path w :
  rootNode w = None ->
  resolvePath drive path w =
    (w, Err "Root node not initialized. Please connect first.").
Proof. intros Hr. unfold resolvePath, bind, gets. by rewrite Hr. Qed.

Lemma resolvePath_ok_root path w w' l :
  resolvePath drive path w = (w', Ok l) -> exists r, rootNode w = Some r.
Proof.
  destruct (rootNode w) as [r|] eqn:Hr; [eauto|].
  by rewrite resolvePath_no_root.
Qed.

(** What [#resolvePath] does to a well-formed world. *)
Lemma resolvePath_spec path w w' r :
  resolvePath drive path w = (w', r) -> wf w ->
  wf w' /\ grow (heap w) (heap w') /\
  (forall l, r = Ok l -> (l < List.length (heap w'))%nat) /\
  same_fields w w' /\ trace w `prefix_of` trace w'.
Proof.
  intros Hres [Hok Hroot].
  destruct (rootNode w) as [root|] eqn:Hr.
  - rewrite (resolvePath_walk _ _ _ Hr) in Hres.
    apply walk_spec in Hres as (Hok' & Hg & Hl & Hsf & Htr); [|done|by apply Hroot].
    split_and!; try done. split; [done|].
    intros r'. destruct Hsf as (_ & _ & -> & _). rewrite Hr.
    intros [= <-]. destruct Hg as [Hlen _]. specialize (Hroot root eq_refl). lia.
  - rewrite resolvePath_no_root in Hres by done. injection Hres as <- <-.
    split_and!; try done; try apply grow_refl. split; [done|by rewrite Hr].
Qed.

End ResolutionFacts.

(** ** The updates the operations make keep the heap well formed *)

Section Updates.

Implicit Types (h : Node.heap) (l c self : loc) (n : Node.t).

(** An update in place keeps the heap well formed when, at every object,
    it keeps the type, stores references to objects only, and gives
    [children] to folders only. *)
Lemma heap_ok_change h h' :
  heap_ok h -> List.length h' = List.length h ->
  (forall l, (l < List.length h)%nat ->
     Node.mimeType (Node.get h' l) = Node.mimeType (Node.get h l) /\
     Forall (fun c => (c < List.length h)%nat) (Node.kids (Node.get h' l)) /\
     (forall p, Node.parent (Node.get h' l) = Some p -> (p < List.length h)%nat) /\
     (Node.children (Node.get h' l) <> None ->
      Node.isDirectory (Node.get h l) = true)) ->
  heap_ok h'.
Proof.
  intros [Hc Hf] Hlen H. split.
  - intros l Hl. rewrite Hlen in *. destruct (H l Hl) as (_ & Hk & Hp & _). done.
  - intros l Hd.
    destruct (decide (l < List.length h)%nat) as [Hl|Hl].
    + destruct (H l Hl) as (Hm & _ & _ & Hch).
      destruct (Node.children (Node.get h' l)) eqn:E; [|done].
      unfold Node.isDirectory in *. rewrite Hm in Hd.
      rewrite Hch in Hd; done.
    + rewrite get_dangling; [done|lia].
Qed.

Lemma children_directory h l cs :
  heap_ok h -> Node.children (Node.get h l) = Some cs ->
  Node.isDirectory (Node.get h l) = true.
Proof.
  intros [_ Hf] Hcs. destruct (Node.isDirectory _) eqn:Hd; [done|].
  apply Hf in Hd. congruence.
Qed.

Lemma heap_ok_set_name h l v :
  heap_ok h -> heap_ok (alter (Node.set_name v) l h).
Proof.
  intros Hok. apply (heap_ok_change h); [done|by rewrite length_alter|].
  intros x Hx. destruct (decide (l = x)) as [->|Hne].
  - rewrite get_alter_eq by done. simpl.
    destruct (proj1 Hok x Hx) as [Hk Hp]. split_and!; try done.
    intros Hch. destruct (Node.children (Node.get h x)) eqn:E; [|done].
    by eapply children_directory.
  - rewrite get_alter_ne by done.
    destruct (proj1 Hok x Hx) as [Hk Hp]. split_and!; try done.
    intros Hch. destruct (Node.children (Node.get h x)) eqn:E; [|done].
    by eapply children_directory.
Qed.

(** Storing an array of objects in [children] of a folder. *)
Lemma heap_ok_store_children h self cs :
  heap_ok h -> Node.isDirectory (Node.get h self) = true ->
  Forall (fun c => (c < List.length h)%nat) cs ->
  heap_ok (<[self := Node.set_children (Some cs) (Node.get h self)]> h).
Proof.
  intros Hok Hd Hcs. apply (heap_ok_change h); [done|by rewrite length_insert|].
  intros x Hx. destruct (proj1 Hok x Hx) as [Hk Hp].
  destruct (decide (self = x)) as [->|Hne].
  - rewrite get_insert_eq by done. simpl. split_and!; done.
  - rewrite get_insert_ne by done. split_and!; try done.
    intros Hch. destruct (Node.children (Node.get h x)) eqn:E; [|done].
    by eapply children_directory.
Qed.

Lemma alter_set_children h self v :
  alter (Node.set_children v) self h =
    <[self := Node.set_children v (Node.get h self)]> h.
Proof.
  destruct (decide (self < List.length h)%nat) as [Hl|Hl].
  - apply list_eq. intros i. destruct (decide (self = i)) as [->|Hne].
    + rewrite list_lookup_alter_eq, list_lookup_insert_eq by done.
      by rewrite (get_allocated h i Hl).
    + by rewrite list_lookup_alter_ne, list_lookup_insert_ne.
  - rewrite list_insert_ge by lia.
    apply list_eq. intros i. destruct (decide (self = i)) as [->|Hne].
    + rewrite list_lookup_alter_eq. by rewrite lookup_ge_None_2 by lia.
    + by rewrite list_lookup_alter_ne.
Qed.

Lemma heap_ok_removeChild h self childId :
  heap_ok h -> heap_ok (Node.removeChild h self childId).1.
Proof.
  intros Hok. unfold Node.removeChild.
  destruct (Node.children (Node.get h self)) as [cs|] eqn:Hcs; [|done].
  destruct (Node.findIndex_id h childId cs) as [i|]; [|done]. simpl.
  apply heap_ok_store_children; [done|by eapply children_directory|].
  pose proof (directory_allocated _ _ (children_directory _ _ _ Hok Hcs)) as Hs.
  destruct (proj1 Hok self Hs) as [Hk _]. unfold Node.kids in Hk.
  rewrite Hcs in Hk. simpl in Hk.
  by apply Forall_delete.
Qed.

Lemma heap_ok_replace_child h self childId updated :
  heap_ok h -> (updated < List.length h)%nat ->
  heap_ok (replace_child h self childId updated).
Proof.
  intros Hok Hu. unfold replace_child.
  destruct (Node.children (Node.get h self)) as [cs|] eqn:Hcs; [|done].
  destruct (Node.findIndex_id h childId cs) as [i|]; [|done].
  apply heap_ok_store_children; [done|by eapply children_directory|].
  pose proof (directory_allocated _ _ (children_directory _ _ _ Hok Hcs)) as Hs.
  destruct (proj1 Hok self Hs) as [Hk _]. unfold Node.kids in Hk.
  rewrite Hcs in Hk. simpl in Hk.
  by apply Forall_insert.
Qed.

End Updates.

(** ** Every operation keeps the world well formed *)

Ltac unfold_m :=
  unfold detach, findFileInFolder, fmap in *;
  unfold wrap in *;
  unfold clock, read, update_heap in *;
  unfold bind, try_catch, ret, throw, gets, modify, new_node, request,
    Node.alloc in *.

Section Operations.

Variable drive : Drive.Client.
Variable stack : nat.

Implicit Types (w : World) (l c : loc).

Lemma wf_init o : wf (init o).
Proof.
  split; [split|done].
  - intros l Hl. simpl in Hl. lia.
  - intros l _. done.
Qed.

Lemma wf_set_heap w h :
  wf w -> heap_ok h -> (List.length (heap w) <= List.length h)%nat ->
  wf (set_heap h w).
Proof.
  intros [_ Hr] Hok Hlen. split; [done|]. simpl. intros r Hroot.
  specialize (Hr r Hroot). lia.
Qed.

Lemma connect_wf w w' r : connect drive w = (w', r) -> wf w -> wf w'.
Proof.
  unfold connect. unfold_m. intros H Hwf.
  destruct (falsy _ || falsy _); [by injection H as <- <-|].
  simpl in H.
  destruct (Drive.files_get drive _ _) as [data|m]; cycle 1.
  { injection H as <- <-. done. }
  destruct (falsy _ || falsy _).
  { injection H as <- <-. done. }
  injection H as <- <-. destruct Hwf as [Hok Hr]. split; simpl.
  - by apply heap_ok_alloc.
  - intros r' [= <-]. rewrite length_app. simpl. lia.
Qed.

Lemma autoConnect_wf w w' r : autoConnect drive w = (w', r) -> wf w -> wf w'.
Proof.
  unfold autoConnect. unfold_m. intros H Hwf.
  destruct (negb _ || _).
  - eapply connect_wf; [exact H|]. done.
  - by injection H as <- <-.
Qed.

Lemma readdir_map_spec node files : forall w w' r,
  readdir_map node files w = (w', r) ->
  heap_ok (heap w) ->
  heap_ok (heap w') /\ grow (heap w) (heap w') /\ same_fields w w' /\
  trace w' = trace w /\
  exists cs, r = Ok cs /\ Forall (fun c => (c < List.length (heap w'))%nat) cs.
Proof.
  induction files as [|file rest IH]; intros w w' r H Hok.
  - injection H as <- <-. split_and!; try done; try apply grow_refl.
    exists []. by split.
  - simpl in H. unfold_m. simpl in H.
    destruct (readdir_map node rest _) as [w1 [cs|e]] eqn:Hrest;
      apply IH in Hrest as (Hok1 & Hg & Hsf & Htr & cs' & Hcs & Hall);
      try (by apply (heap_ok_attached w)); try discriminate.
    injection Hcs as <-. injection H as <- <-.
    split_and!; try done.
    + eapply grow_trans; [apply (grow_attached w node file)|done].
    + exists (List.length (heap w) :: cs). split; [done|].
      constructor; [|done]. destruct Hg as [Hlen _]. simpl in Hlen.
      rewrite length_addChild, length_app in Hlen. simpl in Hlen. lia.
Qed.

Lemma wf_alloc w n :
  wf w -> Node.children n = None -> Node.parent n = None ->
  wf (set_heap (heap w ++ [n]) w).
Proof.
  intros Hwf Hc Hp. apply wf_set_heap; [done| |rewrite length_app; lia].
  apply heap_ok_alloc; [apply Hwf|done..].
Qed.

Lemma wf_addChild w self child :
  wf w -> (child < List.length (heap w))%nat ->
  wf (set_heap (Node.addChild (heap w) self child) w).
Proof.
  intros Hwf Hc. apply wf_set_heap; [done| |by rewrite length_addChild].
  apply heap_ok_addChild; [apply Hwf|done].
Qed.

(** A new node, attached to [self]. *)
Lemma wf_attach_new w self n :
  wf w -> Node.children n = None -> Node.parent n = None ->
  wf (set_heap (Node.addChild (heap w ++ [n]) self (List.length (heap w))) w).
Proof.
  intros Hwf Hc Hp.
  apply (wf_addChild (set_heap (heap w ++ [n]) w)); [by apply wf_alloc|].
  simpl. rewrite length_app. simpl. lia.
Qed.

Lemma wf_detach w node : wf w -> wf (detach node w).1.
Proof.
  intros Hwf. unfold_m. destruct (Node.parent _); [|done]. simpl.
  apply wf_set_heap; [done|by apply heap_ok_removeChild, Hwf|].
  by rewrite length_removeChild.
Qed.

Lemma search_map_wf files : forall w w' r,
  search_map files w = (w', r) -> wf w -> wf w'.
Proof.
  induction files as [|file rest IH]; intros w w' r H Hwf.
  - by injection H as <- <-.
  - simpl in H. unfold_m.
    destruct (search_map rest _) as [w1 [ls|e]] eqn:Hrest;
      apply IH in Hrest; try (by apply wf_alloc); by injection H as <- <-.
Qed.

Ltac auto_connect H w1 :=
  let Ha := fresh "Ha" in
  destruct (autoConnect drive _) as [w1 [[]|?]] eqn:Ha;
  apply autoConnect_wf in Ha; try done; [|by injection H as <- <-].

Ltac resolve H w1 w2 node Hwf2 Hg Hl :=
  let Hres := fresh "Hres" in
  destruct (resolvePath drive _ w1) as [w2 [node|?]] eqn:Hres;
  apply resolvePath_spec in Hres as (Hwf2 & Hg & Hl & _ & _); try done;
  [specialize (Hl _ eq_refl)|by injection H as <- <-].

Lemma readdir_wf path w w' r : readdir drive path w = (w', r) -> wf w -> wf w'.
Proof.
  unfold readdir, readdir_body. unfold_m. intros H Hwf.
  auto_connect H w1. resolve H w1 w2 node Hwf2 Hg2 Hl.
  destruct (Node.isDirectory (Node.get (heap w2) node)) eqn:Hd; simpl in H;
    [|by injection H as <- <-].
  destruct (Drive.files_list drive _ _) as [files|m];
    [|by injection H as <- <-].
  destruct (readdir_map node files _) as [w3 [cs|e]] eqn:Hmap;
    apply readdir_map_spec in Hmap as (Hok3 & Hg & Hsf & _ & cs' & Hcs & Hall);
    try apply Hwf2; try discriminate.
  injection Hcs as <-. injection H as <- <-.
  apply wf_set_heap.
  - split; [done|]. destruct Hsf as (_ & _ & -> & _). simpl.
    intros r0 Hr0. apply Hwf2 in Hr0. destruct Hg as [Hlen _]. simpl in Hlen. lia.
  - rewrite alter_set_children. apply heap_ok_store_children; try done.
    eapply grow_directory; [exact Hg|done].
  - by rewrite length_alter.
Qed.

Lemma mkdir_wf path w w' r : mkdir drive path w = (w', r) -> wf w -> wf w'.
Proof.
  unfold mkdir, mkdir_body. unfold_m. intros H Hwf.
  auto_connect H w1. resolve H w1 w2 node Hwf2 Hg2 Hl.
  destruct (Drive.files_create drive _ _ _ _ _) as [res|m];
    injection H as <- <-; [|done].
  by apply (wf_attach_new (set_trace _ w2)).
Qed.

Lemma writeFile_wf path content w w' r :
  writeFile drive path content w = (w', r) -> wf w -> wf w'.
Proof.
  unfold writeFile, writeFile_body. unfold_m. intros H Hwf.
  auto_connect H w1. resolve H w1 w2 node Hwf2 Hg2 Hl.
  destruct (Drive.files_list drive _ _) as [files|m];
    [|by injection H as <- <-].
  destruct (head files) as [existing|].
  - destruct (Drive.files_update drive _ _ _ _ _ _) as [res|m];
      injection H as <- <-; [|done].
    apply wf_set_heap; simpl.
    + by apply (wf_alloc (set_trace _ w2)).
    + apply heap_ok_replace_child;
        [apply heap_ok_alloc; [apply Hwf2|done..]|].
      rewrite length_app. simpl. lia.
    + by rewrite length_replace_child.
  - destruct (Drive.files_create drive _ _ _ _ _) as [res|m];
      injection H as <- <-; [|done].
    by apply (wf_attach_new (set_trace _ w2)).
Qed.

Lemma readFile_wf path w w' r : readFile drive path w = (w', r) -> wf w -> wf w'.
Proof.
  unfold readFile, readFile_body. unfold_m. intros H Hwf.
  auto_connect H w1. resolve H w1 w2 node Hwf2 Hg2 Hl.
  destruct (Node.isDirectory _); [by injection H as <- <-|].
  destruct (Drive.files_get_media drive _ _); by injection H as <- <-.
Qed.

Lemma unlink_wf path w w' r : unlink drive path w = (w', r) -> wf w -> wf w'.
Proof.
  unfold unlink, unlink_body. intros H Hwf. unfold wrap, bind, try_catch, throw in H.
  auto_connect H w1. resolve H w1 w2 node Hwf2 Hg2 Hl.
  unfold read, gets, request in H.
  destruct (Drive.files_delete drive _ _) as [[]|m];
    [|by injection H as <- <-].
  match type of H with
  | context [detach node ?w3] =>
      pose proof (wf_detach w3 node) as Hd; destruct (detach node w3) as [w4 [[]|?]]
  end; injection H as <- <-; by apply Hd.
Qed.

Lemma rename_wf oldPath newPath w w' r :
  rename drive oldPath newPath w = (w', r) -> wf w -> wf w'.
Proof.
  unfold rename, rename_body. intros H Hwf. unfold wrap, bind, try_catch, throw in H.
  auto_connect H w1. resolve H w1 w2 node Hwf2 Hg2 Hl.
  resolve H w2 w3 parent Hwf3 Hg3 Hp.
  unfold read, gets, request, update_heap, modify, ret in H.
  destruct (Drive.files_update drive _ _ _ _ _ _) as [res|m];
    [|by injection H as <- <-].
  match type of H with
  | context [detach node ?w4] =>
      pose proof (wf_detach w4 node) as Hd;
      pose proof (length_removeChild (heap w4)) as Hlen;
      destruct (detach node w4) as [w5 [[]|?]] eqn:Hdet
  end; injection H as <- <-; cycle 1.
  { apply Hd. apply wf_set_heap; [done| |by rewrite length_alter].
    apply heap_ok_set_name, Hwf3. }
  apply wf_addChild.
  - apply Hd. apply wf_set_heap; [done| |by rewrite length_alter].
    apply heap_ok_set_name, Hwf3.
  - unfold_m. destruct (Node.parent _); injection Hdet as <-; simpl.
    + rewrite Hlen. simpl. rewrite length_alter. destruct Hg3 as [Hle _]. lia.
    + rewrite length_alter. destruct Hg3 as [Hle _]. lia.
Qed.

Lemma stat_wf path w w' r : stat drive stack path w = (w', r) -> wf w -> wf w'.
Proof.
  unfold stat, stat_body. unfold_m. intros H Hwf.
  auto_connect H w1. resolve H w1 w2 node Hwf2 Hg2 Hl.
  destruct (Node.getSize _ _ _); by injection H as <- <-.
Qed.

Lemma search_wf o path w w' r : search drive o path w = (w', r) -> wf w -> wf w'.
Proof.
  unfold search, search_body. unfold_m. intros H Hwf.
  auto_connect H w1. resolve H w1 w2 node Hwf2 Hg2 Hl.
  destruct (Drive.files_list drive _ _) as [files|m];
    [|by injection H as <- <-].
  destruct (search_map files _) as [w3 [ls|e]] eqn:Hmap;
    apply search_map_wf in Hmap; try done; by injection H as <- <-.
Qed.

Lemma copy_wf src dst w w' r : copy drive src dst w = (w', r) -> wf w -> wf w'.
Proof.
  unfold copy, copy_body. unfold_m. intros H Hwf.
  auto_connect H w1. resolve H w1 w2 node Hwf2 Hg2 Hl.
  resolve H w2 w3 parent Hwf3 Hg3 Hp.
  destruct (Drive.files_copy drive _ _ _ _) as [res|m];
    injection H as <- <-; [|done].
  by apply (wf_attach_new (set_trace _ w3)).
Qed.

Lemma fmap_world {A B} (f : A -> B) (m : M A) w : (fmap f m w).1 = (m w).1.
Proof. unfold fmap, bind, ret. by destruct (m w) as [w1 [a|e]]. Qed.

(** Every operation keeps the world well formed. *)
Lemma run_wf o w : wf w -> wf (run drive stack o w).1.
Proof.
  intros Hwf. destruct o; simpl; rewrite fmap_world.
  - destruct (connect drive w) eqn:E. by eapply connect_wf.
  - destruct (resolvePath drive path w) eqn:E.
    by apply resolvePath_spec in E as [? _].
  - destruct (readdir drive path w) eqn:E. by eapply readdir_wf.
  - destruct (mkdir drive path w) eqn:E. by eapply mkdir_wf.
  - destruct (writeFile drive path content w) eqn:E. by eapply writeFile_wf.
  - destruct (readFile drive path w) eqn:E. by eapply readFile_wf.
  - destruct (unlink drive path w) eqn:E. by eapply unlink_wf.
  - destruct (rename drive oldPath newPath w) eqn:E. by eapply rename_wf.
  - destruct (stat drive stack path w) eqn:E. by eapply stat_wf.
  - destruct (search drive o path w) eqn:E. by eapply search_wf.
  - destruct (copy drive sourcePath destinationPath w) eqn:E. by eapply copy_wf.
Qed.

Lemma exec_wf ops : forall w, wf w -> wf (exec drive stack ops w).
Proof.
  induction ops as [|o ops IH]; intros w Hwf; [done|].
  simpl. apply IH. by apply run_wf.
Qed.

End Operations.

(** ** A file never has children *)

Section FilesChildless.

Variable drive : Drive.Client.
Variable stack : nat.

(** [addChild] on a node that is not a folder does nothing. *)
Lemma addChild_file h self child :
  Node.isFile (Node.get h self) = true -> Node.addChild h self child = h.
Proof.
  unfold Node.isFile, Node.addChild. by destruct (Node.isDirectory _).
Qed.

(** [readdir] of a path that resolves to a file fails before it lists
    anything, and stores no [children]. *)
Lemma readdir_file path w w0 w1 node :
  autoConnect drive w = (w0, Ok tt) ->
  resolvePath drive path w0 = (w1, Ok node) ->
  Node.isFile (Node.get (heap w1) node) = true ->
  readdir drive path w = (w1, Err "Failed to read directory: Not a directory").
Proof.
  intros Ha Hres Hf. unfold readdir, readdir_body. unfold_m. rewrite Ha, Hres.
  unfold Node.isFile in Hf. by rewrite Hf.
Qed.

(** C9. In the world reached from a new instance by any sequence of
    operations, against any remote store, a node whose [mimeType] is not
    the folder marker has no [children]: [addChild] does nothing on such a
    node, and [readdir] of a path that resolves to one fails before it
    stores anything. *)
Theorem file_never_has_children (o : Options) (ops : list Op) :
  let w := exec drive stack ops (init o) in
  (forall l,
     Node.isFile (Node.get (heap w) l) = true ->
     Node.children (Node.get (heap w) l) = None) /\
  (forall h self child,
     Node.isFile (Node.get h self) = true -> Node.addChild h self child = h) /\
  (forall path w0 w1 node,
     autoConnect drive w = (w0, Ok tt) ->
     resolvePath drive path w0 = (w1, Ok node) ->
     Node.isFile (Node.get (heap w1) node) = true ->
     readdir drive path w =
       (w1, Err "Failed to read directory: Not a directory")).
Proof.
  intros w. split_and!.
  - intros l Hf.
    pose proof (exec_wf drive stack ops _ (wf_init o)) as [[_ Hc] _].
    apply Hc. unfold Node.isFile in Hf. by destruct (Node.isDirectory _).
  - apply addChild_file.
  - intros path w0 w1 node. apply readdir_file.
Qed.

End FilesChildless.

Lemma file_never_has_children_witness :
  let w := exec Example.client 8 [OConnect; OReaddir "/a"; OWriteFile "/a/x" "new"]
                (init Example.options) in
  Node.isFile (Node.get (heap w) 2) = true /\
  Node.children (Node.get (heap w) 2) = None.
Proof.
  split; [vm_compute; reflexivity|].
  apply (proj1 (file_never_has_children Example.client 8 Example.options
                  [OConnect; OReaddir "/a"; OWriteFile "/a/x" "new"]) 2%nat).
  vm_compute; reflexivity.
Defined.

(** ** Resolving twice *)

Section ResolveTwice.

Variable drive : Drive.Client.

Lemma cache_walk_walk path parts : forall cur w l,
  cache_walk (heap w) parts cur = Some l ->
  walk drive path parts cur w = (w, Ok l).
Proof.
  induction parts as [|part rest IH]; intros cur w l H.
  - by injection H as <-.
  - rewrite walk_cons. simpl in *.
    destruct (Node.isDirectory _); [|done]. simpl.
    destruct (find_child _ _ _) as [c|]; [|done]. by apply IH.
Qed.

(** A walk that leaves the world as it was found every segment in the
    cache. *)
Lemma walk_fixed_cache path parts : forall cur w l,
  walk drive path parts cur w = (w, Ok l) ->
  heap_ok (heap w) -> (cur < List.length (heap w))%nat ->
  cache_walk (heap w) parts cur = Some l.
Proof.
  induction parts as [|part rest IH]; intros cur w l H Hok Hcur.
  - by injection H as <-.
  - pose proof H as H'. rewrite walk_cons in H. simpl in *.
    destruct (Node.isDirectory _) eqn:Hd; [|done]. simpl in H.
    destruct (find_child _ _ _) as [c|] eqn:Hfind.
    { simpl. apply IH; [done..|]. apply find_name_elem in Hfind.
      destruct (proj1 Hok cur Hcur) as [Hk _]. by eapply Forall_forall in Hk. }
    destruct (Drive.files_list _ _ _) as [[|file fs]|m]; try done.
    apply walk_spec in H as (_ & _ & _ & _ & Htr).
    + apply prefix_length in Htr. simpl in Htr. rewrite length_app in Htr.
      simpl in Htr. lia.
    + by apply heap_ok_attached.
    + rewrite length_attached. simpl. lia.
Qed.

(** C1, as the code has it.  When the name filter of the remote store is
    exact, so that every entry it lists bears the name that was asked for,
    a path that resolved, resolved again at once, leaves the world as it
    is: no call is made and nothing is added to the trace, the same node
    is returned, and every segment is found by name among the cached
    children. *)
Theorem resolve_twice_cached path w w' l :
  exact_names drive -> wf w ->
  resolvePath drive path w = (w', Ok l) ->
  resolvePath drive path w' = (w', Ok l) /\
  exists r, rootNode w' = Some r /\
    cache_walk (heap w') (Path.parts path) r = Some l.
Proof.
  intros Hex [Hok Hroot] Hres.
  destruct (resolvePath_ok_root _ _ _ _ _ Hres) as [r Hr].
  rewrite (resolvePath_walk _ _ _ _ Hr) in Hres.
  pose proof (walk_spec _ _ _ _ _ _ _ Hres Hok (Hroot r Hr))
    as (Hok' & [Hlen _] & _ & (_ & _ & Hr' & _) & _).
  rewrite Hr in Hr'.
  pose proof (walk_again _ _ _ _ _ _ _ Hex Hres Hok (Hroot r Hr)) as Hagain.
  split.
  - by rewrite (resolvePath_walk _ _ _ _ Hr').
  - exists r. split; [done|]. eapply walk_fixed_cache; [done..|].
    specialize (Hroot r Hr). lia.
Qed.

End ResolveTwice.

Lemma example_exact_names : exact_names Example.client.
Proof.
  intros tr p n files [= <-]. apply Forall_forall. intros f Hf.
  apply list_elem_of_In, List.in_map_iff in Hf as ([q e] & <- & He).
  apply List.filter_In in He as [_ He]. simpl in He.
  apply andb_prop in He as [_ He]. by apply String.eqb_eq.
Qed.

Lemma resolve_twice_cached_witness :
  let w' := (resolvePath Example.client "/a/x" Example.connected).1 in
  resolvePath Example.client "/a/x" w' = (w', Ok 2%nat) /\
  exists r, rootNode w' = Some r /\
    cache_walk (heap w') (Path.parts "/a/x") r = Some 2%nat.
Proof.
  apply (resolve_twice_cached Example.client "/a/x" Example.connected).
  - exact example_exact_names.
  - apply (connect_wf Example.client (init Example.options) _ (Ok tt));
      [reflexivity|apply wf_init].
  - reflexivity.
Defined.

(** C1, as it is stated, fails.  Resolution caches the name the store
    gives an entry, not the segment that was asked for.  Against a store
    whose name filter disregards the case of letters, [/A] resolves to a
    node named [a]; resolved again at once, the segment [A] is not found
    among the cached children, the store is asked again, and a second node
    is made and returned. *)
Lemma resolve_twice_not_cached :
  let w := (connect Example.insensitive (init Example.options)).1 in
  let first := resolvePath Example.insensitive "/A" w in
  let second := resolvePath Example.insensitive "/A" first.1 in
  first.2 = Ok 1%nat /\
  Node.name (Node.get (heap first.1) 1) = "a" /\
  second.2 = Ok 2%nat /\
  List.length (trace second.1) = S (List.length (trace first.1)) /\
  last (trace second.1) =
    Some (Drive.mkEvent (Drive.FilesList (Drive.QNamed "root" "A")) None) /\
  Node.children (Node.get (heap second.1) 0) = Some [1; 2]%nat /\
  ~ exact_names Example.insensitive.
Proof.
  intros w first second.
  split_and!; try (vm_compute; reflexivity).
  intros H.
  specialize (H [] "root" "A" [Example.folder "ida" "a"] eq_refl).
  apply Forall_cons in H as [H _]. discriminate H.
Qed.

(** ** Failures of resolution *)

Section ResolutionFailures.

Variable drive : Drive.Client.

Lemma resolvePath_slash p1 p2 w w1 n :
  resolvePath drive p1 w = (w1, Ok n) ->
  resolvePath drive (p1 +:+ "/" +:+ p2) w =
    walk drive (p1 +:+ "/" +:+ p2) (Path.parts p2) n w1.
Proof.
  intros Hres. destruct (resolvePath_ok_root _ _ _ _ _ Hres) as [r Hr].
  rewrite (resolvePath_walk _ _ _ _ Hr) in Hres.
  rewrite (resolvePath_walk _ _ _ _ Hr), parts_slash, walk_app.
  by rewrite (walk_ok_path _ _ (p1 +:+ "/" +:+ p2) _ _ _ _ _ Hres).
Qed.

(** C7. When a path resolves to a file, every longer path through it
    fails with the "not a directory" error in the world the prefix left:
    no call is made for the segments that remain.  When it resolves to a
    folder, one more segment resolves to whatever the cache or the first
    entry of the listing gives for it, a file as well as a folder: the
    node of the last segment is never asked to be a folder. *)
Theorem traverse_file_not_a_directory p1 w w1 n :
  resolvePath drive p1 w = (w1, Ok n) ->
  (Node.isFile (Node.get (heap w1) n) = true ->
   forall p2, Path.parts p2 <> [] ->
     resolvePath drive (p1 +:+ "/" +:+ p2) w =
       (w1, Err (Node.name (Node.get (heap w1) n) +:+ " is not a directory"))) /\
  (Node.isDirectory (Node.get (heap w1) n) = true ->
   forall s, Path.parts s = [s] ->
     (forall c, find_child (heap w1) n s = Some c ->
        resolvePath drive (p1 +:+ "/" +:+ s) w = (w1, Ok c)) /\
     (forall file files,
        find_child (heap w1) n s = None ->
        Drive.files_list drive (trace w1)
          (Drive.QNamed (Node.id (Node.get (heap w1) n)) s) = Ok (file :: files) ->
        let q := Drive.QNamed (Node.id (Node.get (heap w1) n)) s in
        let w2 := attached (logged w1 (Drive.FilesList q) None) n file in
        resolvePath drive (p1 +:+ "/" +:+ s) w = (w2, Ok (List.length (heap w1))) /\
        Node.mimeType (Node.get (heap w2) (List.length (heap w1))) =
          Drive.mimeType file)).
Proof.
  intros Hres. split.
  - intros Hf p2 Hp2. rewrite (resolvePath_slash _ _ _ _ _ Hres).
    destruct (Path.parts p2) as [|part rest]; [done|].
    rewrite walk_cons. simpl. unfold Node.isFile in Hf.
    by destruct (Node.isDirectory _).
  - intros Hd s Hs. split.
    + intros c Hc. rewrite (resolvePath_slash _ _ _ _ _ Hres), Hs, walk_cons.
      simpl. by rewrite Hd, Hc.
    + intros file files Hmiss Hlist q w2.
      rewrite (resolvePath_slash _ _ _ _ _ Hres), Hs, walk_cons.
      simpl. rewrite Hd, Hmiss, Hlist. simpl. split; [done|].
      rewrite get_addChild by (rewrite length_app; simpl; lia).
      rewrite get_app_new.
      pose proof (directory_allocated _ _ Hd) as Hn.
      rewrite get_app_old by done. rewrite Hd. simpl.
      rewrite decide_True by done.
      destruct (decide (_ = n)); [lia|done].
Qed.

(** C3, as the code has it. When the listing for a segment is empty, the
    error is "Path not found: " followed by the path as it was requested,
    whole, whichever segment was missing. *)
Theorem path_not_found_message path pre part rest w r w1 d :
  rootNode w = Some r ->
  Path.parts path = pre ++ part :: rest ->
  walk drive path pre r w = (w1, Ok d) ->
  Node.isDirectory (Node.get (heap w1) d) = true ->
  find_child (heap w1) d part = None ->
  Drive.files_list drive (trace w1)
    (Drive.QNamed (Node.id (Node.get (heap w1) d)) part) = Ok [] ->
  resolvePath drive path w =
    (logged w1 (Drive.FilesList (Drive.QNamed (Node.id (Node.get (heap w1) d)) part))
            None,
     Err ("Path not found: " +:+ path)).
Proof.
  intros Hr Hparts Hwalk Hd Hmiss Hlist.
  rewrite (resolvePath_walk _ _ _ _ Hr), Hparts, walk_app, Hwalk, walk_cons.
  simpl. by rewrite Hd, Hmiss, Hlist.
Qed.

End ResolutionFailures.

Lemma traverse_file_not_a_directory_witness :
  let w1 := (resolvePath Example.client "/f.txt" Example.connected).1 in
  Node.isFile (Node.get (heap w1) 1) = true /\
  Path.parts "child" <> [] /\
  resolvePath Example.client "/f.txt/child" Example.connected =
    (w1, Err "f.txt is not a directory").
Proof.
  split; [reflexivity|]. split; [discriminate|].
  refine (proj1 (traverse_file_not_a_directory Example.client "/f.txt"
                   Example.connected _ 1%nat _) _ "child" _).
  - reflexivity.
  - reflexivity.
  - discriminate.
Defined.

Lemma path_not_found_message_witness :
  exists w', resolvePath Example.client "/a/b/c" Example.connected =
               (w', Err "Path not found: /a/b/c").
Proof.
  eexists.
  apply (path_not_found_message Example.client "/a/b/c" ["a"] "b" ["c"]
           Example.connected 0%nat
           (walk Example.client "/a/b/c" ["a"] 0 Example.connected).1 1%nat);
    reflexivity.
Defined.

(** C3, as it is stated, fails.  In the example store [/a] exists and has no
    [b]: the folder in which the first missing segment of [/a/b/c] was not
    found is [/a], which [getPath] calls [/My Drive/a]; the message names
    neither, it names the requested path. *)
Lemma path_not_found_not_containing_path :
  let w := Example.connected in
  let w1 := (resolvePath Example.client "/a" w).1 in
  (resolvePath Example.client "/a" w).2 = Ok 1%nat /\
  find_child (heap w1) 1 "b" = None /\
  Drive.files_list Example.client (trace w1) (Drive.QNamed "ida" "b") = Ok [] /\
  Node.getPath 8 (heap w1) 1 = Some "/My Drive/a" /\
  (resolvePath Example.client "/a/b/c" w).2 = Err "Path not found: /a/b/c" /\
  "Path not found: /a/b/c" <> "Path not found: /a" /\
  "Path not found: /a/b/c" <> "Path not found: /My Drive/a".
Proof. repeat split; try reflexivity; discriminate. Qed.

(** ** [getPath] *)

Section GetPath.

Implicit Types (h : Node.heap) (l n r : loc).

Lemma append_cons c a b : String c a +:+ b = String c (a +:+ b).
Proof. reflexivity. Qed.

Lemma append_assoc a b c : (a +:+ b) +:+ c = a +:+ (b +:+ c).
Proof.
  induction a as [|x a IH]; [done|]. by rewrite !append_cons, IH.
Qed.

Lemma getPath_loop_done fuel h path : Node.getPath_loop fuel h path None = Some path.
Proof. by destruct fuel. Qed.

(** From the root, the loop puts the name of the root in front and stops. *)
Lemma getPath_loop_root h r fuel path :
  Node.parent (Node.get h r) = None -> (1 <= fuel)%nat ->
  Node.getPath_loop fuel h path (Some r) =
    Some (Node.name (Node.get h r) +:+ "/" +:+ path).
Proof.
  intros Hr Hf. destruct fuel as [|fuel]; [lia|]. simpl.
  by rewrite Hr, getPath_loop_done.
Qed.

(** From a node below the root, the loop ends with the name of the root in
    front, whatever lies between. *)
Lemma getPath_loop_below h r n :
  Node.parent (Node.get h r) = None -> below h r n ->
  exists k mid, forall fuel path, (k <= fuel)%nat ->
    Node.getPath_loop fuel h path (Some n) =
      Some (Node.name (Node.get h r) +:+ "/" +:+ mid +:+ path).
Proof.
  intros Hr. induction 1 as [n Hn|n p Hn _ (k & mid & IH)].
  - exists 2%nat, (Node.name (Node.get h n) +:+ "/"). intros fuel path Hf.
    destruct fuel as [|fuel]; [lia|]. simpl. rewrite Hn.
    rewrite getPath_loop_root by (done || lia).
    by rewrite append_assoc.
  - exists (S k), (mid +:+ Node.name (Node.get h n) +:+ "/").
    intros fuel path Hf. destruct fuel as [|fuel]; [lia|]. simpl. rewrite Hn.
    rewrite IH by lia. by rewrite !append_assoc.
Qed.

End GetPath.

(** C10. [getPath] starts at the name of the root: on the root it is ['/']
    and the name of the root, which is not ['/'] since that name is not
    empty; on a node below the root it is ['/'], the name of the root,
    ['/'] and the rest.  Resolution reads the first segment of a path as the
    name of a child of the root, so the two do not compose to the identity:
    in the example store, neither the path of the root nor the path of its
    child [a] resolves to the node it was taken from. *)
Theorem getPath_starts_at_root_name (h : Node.heap) (r : loc) :
  Node.parent (Node.get h r) = None ->
  Path.truthy (Node.name (Node.get h r)) = true ->
  (forall fuel,
     Node.getPath fuel h r = Some ("/" +:+ Node.name (Node.get h r)) /\
     Node.getPath fuel h r <> Some "/") /\
  (forall n, below h r n ->
     exists k rest, forall fuel, (k <= fuel)%nat ->
       Node.getPath fuel h n =
         Some ("/" +:+ Node.name (Node.get h r) +:+ "/" +:+ rest)) /\
  (let w := (resolvePath Example.client "/a" Example.connected).1 in
   rootNode w = Some 0%nat /\ below (heap w) 0 1 /\
   (exists p, Node.getPath 8 (heap w) 0 = Some p /\
              (resolvePath Example.client p w).2 <> Ok 0%nat) /\
   (exists p, Node.getPath 8 (heap w) 1 = Some p /\
              (resolvePath Example.client p w).2 <> Ok 1%nat)).
Proof.
  intros Hr Hname. split_and!.
  - intros fuel. unfold Node.getPath. rewrite Hr, getPath_loop_done. simpl.
    split; [done|]. destruct (Node.name (Node.get h r)); [done|]. discriminate.
  - intros n Hn. unfold Node.getPath. inversion Hn as [n' Hp|n' p Hp Hb]; subst.
    + exists 1%nat, (Node.name (Node.get h n)). intros fuel Hf. rewrite Hp.
      by rewrite getPath_loop_root.
    + destruct (getPath_loop_below h r p Hr Hb) as (k & mid & Hloop).
      exists k, (mid +:+ Node.name (Node.get h n)). intros fuel Hf.
      rewrite Hp, Hloop by done. done.
  - split_and!.
    + reflexivity.
    + by apply below_child.
    + exists "/My Drive". split; [reflexivity|discriminate].
    + exists "/My Drive/a". split; [reflexivity|discriminate].
Qed.

Lemma getPath_starts_at_root_name_witness :
  let h := heap (resolvePath Example.client "/a/x" Example.connected).1 in
  (exists k rest, forall fuel, (k <= fuel)%nat ->
     Node.getPath fuel h 2 = Some ("/" +:+ "My Drive" +:+ "/" +:+ rest)) /\
  Node.getPath 8 h 2 = Some "/My Drive/a/x".
Proof.
  split; [|reflexivity].
  refine (proj1 (proj2 (getPath_starts_at_root_name _ 0%nat _ _)) 2%nat _).
  - reflexivity.
  - reflexivity.
  - eapply below_step; [reflexivity|]. by apply below_child.
Defined.

(** ** [getSize] *)

Section GetSize.

Implicit Types (h : Node.heap) (l c : loc).

Lemma getSize_file fuel h l :
  Node.isFile (Node.get h l) = true ->
  Node.getSize (S fuel) h l = Some (Node.size (Node.get h l)).
Proof. intros Hf. simpl. by rewrite Hf. Qed.





End GetSize.

(** ** [readdir] populates, [stat] sums *)

Section Listing.

Variable drive : Drive.Client.
Variable stack : nat.

Implicit Types (w : World) (l c node : loc).

(** The nodes [readdir] makes of a listing: one new object for each entry,
    in order, each with its [parent] set and without [children]; no other
    object changes but [node]. *)
Lemma readdir_map_nodes node files : forall w,
  Node.isDirectory (Node.get (heap w) node) = true ->
  exists w',
    readdir_map node files w =
      (w', Ok (seq (List.length (heap w)) (List.length files))) /\
    List.length (heap w') = (List.length (heap w) + List.length files)%nat /\
    trace w' = trace w /\
    Node.isDirectory (Node.get (heap w') node) = true /\
    (forall l, (l < List.length (heap w))%nat -> l <> node ->
       Node.get (heap w') l = Node.get (heap w) l) /\
    (forall i f, files !! i = Some f ->
       Node.get (heap w') (List.length (heap w) + i) =
         Node.set_parent (Some node) (node_of_file f)).
Proof.
  induction files as [|file rest IH]; intros w Hd.
  - exists w. split_and!; try done; simpl; lia.
  - pose proof (directory_allocated _ _ Hd) as Hnode.
    set (w1 := attached w node file).
    assert (Node.isDirectory (Node.get (heap w1) node) = true) as Hd1.
    { eapply grow_directory; [apply grow_attached|done]. }
    assert (forall l, (l < List.length (heap w))%nat -> l <> node ->
              Node.get (heap w1) l = Node.get (heap w) l) as Hold.
    { intros l Hl Hne. unfold w1. simpl.
      rewrite get_addChild by (rewrite length_app; simpl; lia).
      rewrite !get_app_old by done. rewrite Hd. simpl.
      destruct (decide (l = List.length (heap w))); [lia|].
      by rewrite decide_False. }
    assert (Node.get (heap w1) (List.length (heap w)) =
              Node.set_parent (Some node) (node_of_file file)) as Hnew.
    { unfold w1. simpl.
      rewrite get_addChild by (rewrite length_app; simpl; lia).
      rewrite get_app_old by done. rewrite Hd. simpl. rewrite get_app_new.
      rewrite decide_True by done.
      destruct (decide (List.length (heap w) = node)); [lia|done]. }
    destruct (IH w1 Hd1) as (w' & Hrun & Hlen & Htr & Hd' & Hframe & Hnodes).
    assert (List.length (heap w1) = S (List.length (heap w))) as Hlen1
      by apply length_attached.
    rewrite Hlen1 in *.
    exists w'. split_and!; try done.
    + change (readdir_map node (file :: rest) w) with
        (let '(w2, r) := readdir_map node rest w1 in
         match r with
         | Ok cs => (w2, Ok (List.length (heap w) :: cs))
         | Err e => (w2, Err e)
         end).
      by rewrite Hrun.
    + simpl. lia.
    + intros l Hl Hne. rewrite Hframe by (done || lia). by apply Hold.
    + intros [|i] f Hf; simpl in Hf.
      * injection Hf as <-. rewrite Nat.add_0_r, Hframe by lia. done.
      * replace (List.length (heap w) + S i)%nat
          with (S (List.length (heap w)) + i)%nat by lia.
        by apply Hnodes.
Qed.




End Listing.

(** The scenario of the folder [/a] with the files [x] (10 bytes) and [y]
    (20 bytes): [stat('/a').size] is 0 before [/a] is listed and 30 after. *)
Lemma stat_before_and_after_listing :
  let w := Example.connected in
  let before := stat Example.client 8 "/a" w in
  let listed := readdir Example.client "/a" before.1 in
  let after := stat Example.client 8 "/a" listed.1 in
  st_size <$> (match before.2 with Ok st => Some st | Err _ => None end) = Some 0 /\
  listed.2 = Ok [2; 3]%nat /\
  st_size <$> (match after.2 with Ok st => Some st | Err _ => None end) = Some 30.
Proof. repeat split. Qed.


(** ** Finding a child by its id *)

Section ChildById.

Implicit Types (h : Node.heap) (l c p : loc).

Lemma findIndex_id_None h i cs :
  Node.findIndex_id h i cs = None <->
  Forall (fun c => Node.id (Node.get h c) <> i) cs.
Proof.
  induction cs as [|c cs IH]; simpl; [by split; [constructor|]|].
  destruct (String.eqb _ _) eqn:E.
  - apply String.eqb_eq in E. split; [done|]. intros H.
    apply Forall_cons in H as [H _]. done.
  - apply String.eqb_neq in E.
    destruct (Node.findIndex_id h i cs) as [k|]; simpl.
    + split; [done|]. intros H. apply Forall_cons in H as [_ H].
      apply IH in H. done.
    + split; [|done]. intros _. constructor; [done|]. by apply IH.
Qed.

Lemma findIndex_id_Some h i cs k :
  Node.findIndex_id h i cs = Some k ->
  exists before c after,
    cs = before ++ c :: after /\ List.length before = k /\
    Node.id (Node.get h c) = i /\
    Forall (fun x => Node.id (Node.get h x) <> i) before.
Proof.
  revert k. induction cs as [|c cs IH]; intros k; simpl; [done|].
  destruct (String.eqb _ _) eqn:E.
  - apply String.eqb_eq in E. intros [= <-]. by exists [], c, cs.
  - apply String.eqb_neq in E.
    destruct (Node.findIndex_id h i cs) as [k'|]; simpl; [|done].
    intros [= <-]. destruct (IH k' eq_refl) as (before & x & after & -> & <- & Hx & Hb).
    exists (c :: before), x, after. split_and!; try done. by constructor.
Qed.

Lemma findIndex_id_first h i before c after :
  Node.id (Node.get h c) = i ->
  Forall (fun x => Node.id (Node.get h x) <> i) before ->
  Node.findIndex_id h i (before ++ c :: after) = Some (List.length before).
Proof.
  intros Hc Hb. induction Hb as [|x xs Hx _ IH]; simpl.
  - apply String.eqb_eq in Hc. by rewrite Hc.
  - apply String.eqb_neq in Hx. by rewrite Hx, IH.
Qed.

Lemma removeChild_cut h p i before c after :
  Node.kids (Node.get h p) = before ++ c :: after ->
  Node.id (Node.get h c) = i ->
  Forall (fun x => Node.id (Node.get h x) <> i) before ->
  Node.removeChild h p i =
    (<[p := Node.set_children (Some (before ++ after)) (Node.get h p)]> h, true).
Proof.
  intros Hk Hc Hb. unfold Node.removeChild, Node.kids in *.
  destruct (Node.children (Node.get h p)) as [cs|]; simpl in Hk;
    [|by destruct before].
  subst cs. rewrite (findIndex_id_first _ _ _ _ _ Hc Hb).
  by rewrite delete_middle.
Qed.

Lemma removeChild_none h p i :
  Forall (fun c => Node.id (Node.get h c) <> i) (Node.kids (Node.get h p)) ->
  Node.removeChild h p i = (h, false).
Proof.
  intros H. unfold Node.removeChild, Node.kids in *.
  destruct (Node.children (Node.get h p)) as [cs|]; [|done]. simpl in H.
  apply findIndex_id_None in H. by rewrite H.
Qed.

End ChildById.

(** ** [writeFile] *)

Section WriteFile.

Variable drive : Drive.Client.

Implicit Types (w : World) (h : Node.heap) (l c : loc).

Lemma findIndex_id_ext h h' childId cs :
  Forall (fun c => Node.id (Node.get h' c) = Node.id (Node.get h c)) cs ->
  Node.findIndex_id h' childId cs = Node.findIndex_id h childId cs.
Proof.
  induction 1 as [|c cs Hc _ IH]; simpl; [done|]. by rewrite Hc, IH.
Qed.

Lemma findIndex_id_alloc h n childId l :
  closed h -> (l < List.length h)%nat ->
  Node.findIndex_id (h ++ [n]) childId (Node.kids (Node.get h l)) =
    Node.findIndex_id h childId (Node.kids (Node.get h l)).
Proof.
  intros Hc Hl. apply findIndex_id_ext.
  destruct (Hc l Hl) as [Hk _]. eapply Forall_impl; [exact Hk|].
  simpl. intros c Hlt. by rewrite get_app_old.
Qed.

End WriteFile.

Section WriteFileNodes.

Variable drive : Drive.Client.

Implicit Types (w : World) (h : Node.heap) (l c : loc).

Lemma insert_middle {A} (before after : list A) (c u : A) :
  <[List.length before := u]> (before ++ c :: after) = before ++ u :: after.
Proof. induction before as [|x xs IH]; simpl; [done|]. by rewrite IH. Qed.

Lemma replace_child_cut h self childId updated before c after :
  Node.kids (Node.get h self) = before ++ c :: after ->
  Node.id (Node.get h c) = childId ->
  Forall (fun x => Node.id (Node.get h x) <> childId) before ->
  replace_child h self childId updated =
    <[self := Node.set_children (Some (before ++ updated :: after))
                                (Node.get h self)]> h.
Proof.
  intros Hk Hc Hb. unfold replace_child, Node.kids in *.
  destruct (Node.children (Node.get h self)) as [cs|]; simpl in Hk;
    [|by destruct before].
  subst cs. rewrite (findIndex_id_first _ _ _ _ _ Hc Hb).
  by rewrite insert_middle.
Qed.

Lemma replace_child_none h self childId updated :
  Forall (fun x => Node.id (Node.get h x) <> childId) (Node.kids (Node.get h self)) ->
  replace_child h self childId updated = h.
Proof.
  intros H. unfold replace_child, Node.kids in *.
  destruct (Node.children (Node.get h self)) as [cs|]; [|done]. simpl in H.
  apply findIndex_id_None in H. by rewrite H.
Qed.

(** C6. A [writeFile] that succeeds resolved the parent path, then listed
    the parent's entries of the leaf name.  When the listing has a first
    entry, that entry was updated under its own id, and the node made of the
    reply takes the place, in the parent's cached children, of the first
    child bearing that id, between the children before it and the children
    after it; the parent is left as it was when no cached child bears the
    id, and the new node has no parent.  When the listing is empty, an
    entry was created under the parent's id and the node made of the reply
    was attached with [addChild]: on a folder it becomes the last child and
    has the folder as its parent, on a file nothing is attached.  Either
    way the node returned is a new object that carries the id, the name,
    the type, the size (0 when the reply has none), the modification time
    and the creation time of the reply, and has no children; the parent
    changes in its [children] only, and no other object changes. *)
Theorem writeFile_updates_or_creates path content w w' l :
  wf w -> writeFile drive path content w = (w', Ok l) ->
  exists w0 w1 parent files res,
    autoConnect drive w = (w0, Ok tt) /\
    resolvePath drive (Path.parentPath path) w0 = (w1, Ok parent) /\
    let p := Node.get (heap w1) parent in
    let name := Path.leaf path in
    let probe := Drive.FilesList (Drive.QNamed (Node.id p) name) in
    let tr := trace w1 ++ [Drive.mkEvent probe None] in
    Drive.files_list drive (trace w1) (Drive.QNamed (Node.id p) name) = Ok files /\
    l = List.length (heap w1) /\
    List.length (heap w') = S (List.length (heap w1)) /\
    Node.id (Node.get (heap w') l) = Drive.id res /\
    Node.name (Node.get (heap w') l) = Drive.name res /\
    Node.mimeType (Node.get (heap w') l) = Drive.mimeType res /\
    Node.size (Node.get (heap w') l) =
      match Drive.size res with Some bytes => bytes | None => 0 end /\
    Node.modifiedTime (Node.get (heap w') l) = Some (Drive.modifiedTime res) /\
    Node.createdTime (Node.get (heap w') l) = Some (Drive.createdTime res) /\
    Node.children (Node.get (heap w') l) = None /\
    (forall x, (x < List.length (heap w1))%nat -> x <> parent ->
       Node.get (heap w') x = Node.get (heap w1) x) /\
    Node.set_children (Node.children p) (Node.get (heap w') parent) = p /\
    match head files with
    | Some existing =>
        let request := Drive.FilesUpdate (Drive.id existing) name (Some content)
                                         None None in
        Drive.files_update drive tr (Drive.id existing) name (Some content)
                           None None = Ok res /\
        trace w' = tr ++ [Drive.mkEvent request None] /\
        (forall before c after,
           Node.kids p = before ++ c :: after ->
           Node.id (Node.get (heap w1) c) = Drive.id existing ->
           Forall (fun x => Node.id (Node.get (heap w1) x) <> Drive.id existing)
                  before ->
           Node.children (Node.get (heap w') parent) =
             Some (before ++ l :: after)) /\
        (Forall (fun x => Node.id (Node.get (heap w1) x) <> Drive.id existing)
                (Node.kids p) ->
         Node.get (heap w') parent = p) /\
        Node.parent (Node.get (heap w') l) = None
    | None =>
        let request := Drive.FilesCreate name None (Node.id p) (Some content) in
        Drive.files_create drive tr name None (Node.id p) (Some content) = Ok res /\
        trace w' = tr ++ [Drive.mkEvent request None] /\
        heap w' = Node.addChild (heap w1 ++ [node_of_file res]) parent l /\
        (Node.isDirectory p = true ->
         Node.children (Node.get (heap w') parent) = Some (Node.kids p ++ [l]) /\
         Node.parent (Node.get (heap w') l) = Some parent) /\
        (Node.isDirectory p = false ->
         Node.get (heap w') parent = p /\
         Node.parent (Node.get (heap w') l) = None)
    end.
Proof.
  intros Hwf H. unfold writeFile, writeFile_body in H. unfold_m.
  destruct (autoConnect drive w) as [w0 [[]|e]] eqn:Ha; [|done].
  apply autoConnect_wf in Ha as Hwf0; [|done].
  destruct (resolvePath drive _ w0) as [w1 [parent|e]] eqn:Hres; [|done].
  apply resolvePath_spec in Hres as Hspec; [|done].
  destruct Hspec as (Hwf1 & _ & Hl & _). specialize (Hl _ eq_refl).
  destruct (Drive.files_list drive (trace w1) _) as [files|m] eqn:Hlist; [|done].
  exists w0, w1, parent, files.
  assert (forall res cs,
            Forall (fun x => (x < List.length (heap w1))%nat) cs ->
            Forall (fun x => Node.id (Node.get (heap w1 ++ [node_of_file res]) x) =
                             Node.id (Node.get (heap w1) x)) cs) as Hids.
  { intros res cs Hcs. eapply Forall_impl; [exact Hcs|]. simpl.
    intros x Hx. by rewrite get_app_old. }
  destruct (head files) as [existing|] eqn:Hhead.
  - cbn [trace set_trace] in H.
    destruct (Drive.files_update drive _ _ _ _ _ _) as [res|m] eqn:Hup; [|done].
    injection H as <- <-. exists res. cbn [heap set_heap trace set_trace].
    set (h := heap w1 ++ [node_of_file res]).
    assert (Node.get h parent = Node.get (heap w1) parent) as Hp
      by (by apply get_app_old).
    assert (List.length h = S (List.length (heap w1))) as Hlen.
    { unfold h. rewrite length_app. simpl. lia. }
    assert (forall x, x <> parent ->
              Node.get (replace_child h parent (Drive.id existing)
                          (List.length (heap w1))) x = Node.get h x) as Hframe.
    { intros x Hx. unfold replace_child.
      destruct (Node.children _); [|done].
      destruct (Node.findIndex_id _ _ _); [|done]. by rewrite get_insert_ne. }
    assert (Node.get (replace_child h parent (Drive.id existing)
                        (List.length (heap w1)))
                     (List.length (heap w1)) = node_of_file res) as Hnew.
    { rewrite Hframe by lia. apply get_app_new. }
    rewrite Hnew, length_replace_child.
    destruct (proj1 (proj1 Hwf1) parent Hl) as [Hkids _].
    split_and!; try done.
    + intros x Hx Hne. rewrite Hframe by done. by apply get_app_old.
    + unfold replace_child. rewrite Hp.
      destruct (Node.children (Node.get (heap w1) parent)) as [cs|] eqn:Hcs;
        [|rewrite Hp, <- Hcs; by destruct (Node.get (heap w1) parent)].
      destruct (Node.findIndex_id h _ cs);
        [|rewrite Hp, <- Hcs; by destruct (Node.get (heap w1) parent)].
      rewrite get_insert_eq by lia. simpl.
      rewrite <- Hcs. by destruct (Node.get (heap w1) parent).
    + intros before c after Hk Hc Hb.
      rewrite (replace_child_cut h parent _ _ before c after).
      * by rewrite get_insert_eq by lia.
      * by rewrite Hp.
      * rewrite Hk in Hkids. apply Forall_app in Hkids as [_ Hkids].
        apply Forall_cons in Hkids as [Hcl _]. unfold h.
        by rewrite get_app_old.
      * rewrite Hk in Hkids. apply Forall_app in Hkids as [Hkids _].
        clear Hk. induction Hb as [|x xs Hx _ IH]; [constructor|].
        apply Forall_cons in Hkids as [Hxl Hxs]. constructor; [|by apply IH].
        unfold h. by rewrite get_app_old.
    + intros Hnone. rewrite replace_child_none; [done|]. rewrite Hp.
      induction Hnone as [|x xs Hx _ IH]; [constructor|].
      apply Forall_cons in Hkids as [Hxl Hxs]. constructor; [|by apply IH].
      unfold h. by rewrite get_app_old.
  - cbn [trace set_trace] in H.
    destruct (Drive.files_create drive _ _ _ _ _) as [res|m] eqn:Hcr; [|done].
    injection H as <- <-. exists res. cbn [heap set_heap trace set_trace].
    set (h := heap w1 ++ [node_of_file res]).
    assert (List.length h = S (List.length (heap w1))) as Hlen.
    { unfold h. rewrite length_app. simpl. lia. }
    assert (forall x, Node.get (Node.addChild h parent (List.length (heap w1))) x =
              if Node.isDirectory (Node.get (heap w1) parent) then
                let n := Node.get h x in
                let n1 := if decide (x = parent)
                          then Node.set_children
                                 (Some (Node.kids n ++ [List.length (heap w1)])) n
                          else n in
                if decide (x = List.length (heap w1))
                then Node.set_parent (Some parent) n1 else n1
              else Node.get h x) as Hget.
    { intros x. rewrite get_addChild by lia. unfold h at 1.
      by rewrite get_app_old. }
    assert (Node.get h (List.length (heap w1)) = node_of_file res) as Hnew
      by apply get_app_new.
    assert (Node.get h parent = Node.get (heap w1) parent) as Hp
      by (by apply get_app_old).
    rewrite length_addChild, !Hget.
    split_and!; try done.
    + destruct (Node.isDirectory _); simpl; rewrite ?Hnew; [|done].
      rewrite decide_True by done. by destruct (decide (_ = parent)).
    + destruct (Node.isDirectory _); simpl; rewrite ?Hnew; [|done].
      rewrite decide_True by done. by destruct (decide (_ = parent)).
    + destruct (Node.isDirectory _); simpl; rewrite ?Hnew; [|done].
      rewrite decide_True by done. by destruct (decide (_ = parent)).
    + destruct (Node.isDirectory _); simpl; rewrite ?Hnew; [|done].
      rewrite decide_True by done. by destruct (decide (_ = parent)).
    + destruct (Node.isDirectory _); simpl; rewrite ?Hnew; [|done].
      rewrite decide_True by done. by destruct (decide (_ = parent)).
    + destruct (Node.isDirectory _); simpl; rewrite ?Hnew; [|done].
      rewrite decide_True by done. by destruct (decide (_ = parent)).
    + destruct (Node.isDirectory _); simpl; rewrite ?Hnew; [|done].
      rewrite decide_True by done. destruct (decide (_ = parent)); [lia|done].
    + intros x Hx Hne. rewrite Hget.
      destruct (Node.isDirectory _); simpl; [|by apply get_app_old].
      rewrite (decide_False (P := x = parent)) by done.
      rewrite (decide_False (P := x = List.length (heap w1))) by lia.
      by apply get_app_old.
    + rewrite Hp. destruct (Node.isDirectory _); simpl;
        [|by destruct (Node.get (heap w1) parent)].
      rewrite (decide_True (P := parent = parent)) by done.
      destruct (decide (parent = _)); [lia|].
      by destruct (Node.get (heap w1) parent).
    + intros Hd. rewrite Hd. simpl. rewrite Hp, Hnew.
      rewrite (decide_True (P := parent = parent)) by done.
      rewrite (decide_True (P := List.length (heap w1) = List.length (heap w1)))
        by done.
      by destruct (decide (parent = _)); [lia|].
    + intros Hd. rewrite Hd. by rewrite Hp, Hnew.
Qed.

End WriteFileNodes.

Lemma writeFile_updates_or_creates_witness :
  let w := exec Example.client 0 [OConnect; OReaddir "/a"] (init Example.options) in
  let w' := (writeFile Example.client "/a/y" "new" w).1 in
  writeFile Example.client "/a/y" "new" w = (w', Ok 4%nat) /\
  Node.children (Node.get (heap w) 1) = Some [2; 3]%nat /\
  Node.id (Node.get (heap w) 3) = "idy" /\
  Node.children (Node.get (heap w') 1) = Some [2; 4]%nat /\
  Node.get (heap w') 4 = Node.mk "idy" "y" "text/plain" 3 (Some 3) (Some 3) None None /\
  exists before c after,
    Node.kids (Node.get (heap w) 1) = before ++ c :: after /\
    Node.children (Node.get (heap w') 1) = Some (before ++ 4%nat :: after).
Proof.
  intros w w'.
  assert (writeFile Example.client "/a/y" "new" w = (w', Ok 4%nat)) as Hrun
    by (vm_compute; reflexivity).
  split; [exact Hrun|].
  do 4 (split; [vm_compute; reflexivity|]).
  destruct (writeFile_updates_or_creates Example.client "/a/y" "new" w w' 4%nat
              (exec_wf Example.client 0 _ _ (wf_init Example.options)) Hrun)
    as (w0 & w1 & parent & files & res & Ha & Hres & Hlist & _ & _ & _ & _ & _ &
        _ & _ & _ & _ & _ & _ & Hcase).
  assert (w0 = (autoConnect Example.client w).1) as -> by by rewrite Ha.
  vm_compute in Hres. injection Hres as <- <-.
  vm_compute in Hlist. injection Hlist as <-.
  destruct Hcase as (_ & _ & Hcut & _).
  exists [2%nat], 3%nat, []. split; [vm_compute; reflexivity|].
  apply (Hcut [2%nat] 3%nat []); [vm_compute; reflexivity..|].
  constructor; [vm_compute; discriminate|constructor].
Defined.

(** ** Failures of the operations *)

Section Traces.

Variable drive : Drive.Client.
Variable stack : nat.

Lemma one_failure_last_refl {A} w (r : result A) : one_failure_last w w r.
Proof. exists []. split; [by rewrite app_nil_r|left; constructor]. Qed.

Lemma traced_ret {A} (a : A) : traced (ret a).
Proof. intros w w' r [= <- <-]. apply one_failure_last_refl. Qed.

Lemma traced_throw {A} e : traced (@throw A e).
Proof. intros w w' r [= <- <-]. apply one_failure_last_refl. Qed.

Lemma traced_gets {A} (f : World -> A) : traced (gets f).
Proof. intros w w' r [= <- <-]. apply one_failure_last_refl. Qed.

Lemma traced_modify f : (forall w, trace (f w) = trace w) -> traced (modify f).
Proof.
  intros Hf w w' r [= <- <-]. exists []. rewrite Hf, app_nil_r.
  split; [done|left; constructor].
Qed.

Lemma traced_new_node n : traced (new_node n).
Proof.
  intros w w' r [= <- <-]. exists []. simpl. rewrite app_nil_r.
  split; [done|left; constructor].
Qed.

Lemma traced_request {A} c (reply : list Drive.Event -> result A) :
  traced (request c reply).
Proof.
  intros w w' r [= <- <-]. eexists. split; [done|].
  destruct (reply (trace w)) as [a|m].
  - left. by repeat constructor.
  - right. exists [], c, m, m. split_and!; try done; [constructor|by exists ""].
Qed.

Lemma traced_bind {A B} (m : M A) (k : A -> M B) :
  traced m -> (forall a, traced (k a)) -> traced (bind m k).
Proof.
  intros Hm Hk w w' r H. unfold bind in H.
  destruct (m w) as [w1 [a|e]] eqn:E.
  - destruct (Hm _ _ _ E) as (evs1 & Htr1 & [Hs1|(? & ? & ? & ? & _ & _ & ? & _)]);
      [|done].
    destruct (Hk a _ _ _ H) as (evs2 & Htr2 & H2).
    exists (evs1 ++ evs2). split; [by rewrite Htr2, Htr1, app_assoc|].
    destruct H2 as [Hs2|(evs0 & c & msg & e & -> & Hs0 & -> & He)].
    + left. by apply Forall_app.
    + right. exists (evs1 ++ evs0), c, msg, e.
      split_and!; try done; [by rewrite app_assoc|by apply Forall_app].
  - injection H as <- <-.
    destruct (Hm _ _ _ E) as (evs1 & Htr1 & H1). exists evs1. split; [done|].
    destruct H1 as [Hs1|(evs0 & c & msg & e' & -> & Hs0 & [= <-] & He)];
      [by left|].
    right. by exists evs0, c, msg, e.
Qed.

Lemma traced_wrap {A} front (m : M A) : traced m -> traced (wrap front m).
Proof.
  intros Hm w w' r H. unfold wrap, try_catch, throw in H.
  destruct (m w) as [w1 [a|e]] eqn:E; injection H as <- <-.
  - destruct (Hm _ _ _ E) as (evs1 & Htr1 & [Hs1|(? & ? & ? & ? & _ & _ & ? & _)]);
      [|done].
    exists evs1. split; [done|by left].
  - destruct (Hm _ _ _ E) as (evs1 & Htr1 & H1). exists evs1. split; [done|].
    destruct H1 as [Hs1|(evs0 & c & msg & e' & -> & Hs0 & [= <-] & [fr ->])];
      [by left|].
    right. exists evs0, c, msg, (front +:+ fr +:+ msg). split_and!; try done.
    exists (front +:+ fr). by rewrite append_assoc.
Qed.

Lemma traced_fmap {A B} (f : A -> B) (m : M A) : traced m -> traced (fmap f m).
Proof. intros Hm. apply traced_bind; [done|]. intros a. apply traced_ret. Qed.

End Traces.

Ltac traced_step :=
  lazymatch goal with
  | |- traced (ret _) => apply traced_ret
  | |- traced (throw _) => apply traced_throw
  | |- traced (gets _) => apply traced_gets
  | |- traced (read _) => apply traced_gets
  | |- traced (new_node _) => apply traced_new_node
  | |- traced (request _ _) => apply traced_request
  | |- traced (clock _) => apply traced_request
  | |- traced (wrap _ _) => apply traced_wrap
  | |- traced (fmap _ _) => apply traced_fmap
  | |- traced (modify _) => apply traced_modify; intros; reflexivity
  | |- traced (update_heap _) => apply traced_modify; intros; reflexivity
  | |- traced (bind _ _) => apply traced_bind; [|intros ?]
  | |- traced (if ?b then _ else _) => destruct b
  | |- traced (match ?x with _ => _ end) => destruct x
  end.

Section OperationFailures.

Variable drive : Drive.Client.
Variable stack : nat.

Lemma traced_connect : traced (connect drive).
Proof. unfold connect. repeat traced_step. Qed.

Lemma traced_autoConnect : traced (autoConnect drive).
Proof.
  unfold autoConnect. repeat first [apply traced_connect | traced_step].
Qed.

Lemma traced_walk path parts : forall cur, traced (walk drive path parts cur).
Proof.
  induction parts as [|part rest IH]; intros cur; cbn [walk].
  - apply traced_ret.
  - repeat first [apply IH | traced_step].
Qed.

Lemma traced_resolvePath path : traced (resolvePath drive path).
Proof. unfold resolvePath. repeat first [apply traced_walk | traced_step]. Qed.

Lemma traced_readdir_map node files : traced (readdir_map node files).
Proof.
  induction files as [|file rest IH]; cbn [readdir_map].
  - apply traced_ret.
  - repeat first [apply IH | traced_step].
Qed.

Lemma traced_search_map files : traced (search_map files).
Proof.
  induction files as [|file rest IH]; cbn [search_map].
  - apply traced_ret.
  - repeat first [apply IH | traced_step].
Qed.

Lemma traced_detach node : traced (detach node).
Proof. unfold detach. repeat traced_step. Qed.

Ltac traced_op :=
  repeat first
    [ apply traced_autoConnect | apply traced_connect | apply traced_resolvePath
    | apply traced_readdir_map | apply traced_search_map | apply traced_detach
    | traced_step ].

Lemma traced_run o : traced (run drive stack o).
Proof.
  destruct o; cbn [run];
    unfold readdir, readdir_body, mkdir, mkdir_body, writeFile, writeFile_body,
      findFileInFolder, readFile, readFile_body, unlink, unlink_body, rename,
      rename_body, stat, stat_body, search, search_body, copy, copy_body;
    traced_op.
Qed.

(** An operation is its reconnection, then its [try] block under the
    message of the operation. *)
Lemma run_body o front b w :
  body drive stack o = Some (front, b) ->
  run drive stack o w = (autoConnect drive >> wrap front b) w.
Proof.
  destruct o; intros [= <- <-]; simpl;
    unfold readdir, mkdir, writeFile, readFile, unlink, rename, stat, search,
      copy, fmap, wrap, bind, try_catch, throw, ret;
    destruct (autoConnect drive w) as [w0 [[]|e]]; try done;
    match goal with
    | |- context [?m w0] =>
        lazymatch m with
        | context [w0] => fail
        | _ => destruct (m w0) as [w1 [a|e]]; done
        end
    end.
Qed.

(** A failure of [autoConnect] is a failure of [connect]. *)
Lemma autoConnect_error w w' e :
  autoConnect drive w = (w', Err e) ->
  e = "Invalid authentication credentials" \/
  exists cause, e = "Failed to connect to Google Drive: " +:+ cause.
Proof.
  unfold autoConnect, connect. unfold_m. intros H.
  destruct (negb _ || _); [|done].
  destruct (falsy _ || falsy _); [left; by injection H as <- <-|].
  right. simpl in H.
  destruct (Drive.files_get drive _ _) as [data|m].
  - destruct (falsy _ || falsy _); [|done]. injection H as <- <-. eauto.
  - injection H as <- <-. eauto.
Qed.

(** C8, as the code has it.  A public operation first reconnects when it
    must, outside its [try] block: a failure there is raised as [connect]
    raised it.  A failure of the [try] block, of a remote call or of
    resolution, is raised once, as the fixed message of the operation
    followed by the message of the cause; the path is not added.  Of the
    calls the operation made, none but the last threw, and when the last
    threw the operation failed with an error that ends with its message:
    nothing is retried and nothing is swallowed. *)
Theorem operation_failure_wrapped o front b w w' r :
  body drive stack o = Some (front, b) ->
  run drive stack o w = (w', r) ->
  one_failure_last w w' r /\
  match autoConnect drive w with
  | (w0, Ok _) =>
      match b w0 with
      | (w1, Ok v) => w' = w1 /\ r = Ok v
      | (w1, Err cause) => w' = w1 /\ r = Err (front +:+ cause)
      end
  | (w0, Err e) =>
      w' = w0 /\ r = Err e /\
      (e = "Invalid authentication credentials" \/
       exists cause, e = "Failed to connect to Google Drive: " +:+ cause)
  end.
Proof.
  intros Hb Hrun. split; [by eapply traced_run|].
  rewrite (run_body _ _ _ _ Hb) in Hrun. unfold bind, wrap, try_catch, throw in Hrun.
  destruct (autoConnect drive w) as [w0 [[]|e]] eqn:Ha.
  - destruct (b w0) as [w1 [v|cause]]; by injection Hrun as <- <-.
  - injection Hrun as <- <-. split_and!; try done. by eapply autoConnect_error.
Qed.

End OperationFailures.

Lemma operation_failure_wrapped_witness :
  exists w',
    run Example.failing 8 (OReaddir "/docs") Example.connected =
      (w', Err "Failed to read directory: boom") /\
    one_failure_last Example.connected w'
      (Err "Failed to read directory: boom" : result Value).
Proof.
  eexists. split; [vm_compute; reflexivity|].
  apply (operation_failure_wrapped Example.failing 8 (OReaddir "/docs")
           "Failed to read directory: "
           (fmap VNodes (readdir_body Example.failing "/docs"))
           Example.connected); [reflexivity|vm_compute; reflexivity].
Defined.

(** C8, as it is stated, fails.  The error [readdir('/docs')] raises when
    the listing throws carries the message of the cause after the message of
    the operation, and neither the path nor the name of the operation.  On
    an instance that was never connected, the error it raises when the root
    folder cannot be fetched is the error of [connect], without the message
    of the operation. *)
Lemma wrapped_error_lacks_path :
  (readdir Example.failing "/docs" Example.connected).2 =
    Err "Failed to read directory: boom" /\
  occurs "/docs" "Failed to read directory: boom" = false /\
  occurs "readdir" "Failed to read directory: boom" = false /\
  (readdir Example.unreachable "/docs" (init Example.options)).2 =
    Err "Failed to connect to Google Drive: boom" /\
  occurs "Failed to read directory" "Failed to connect to Google Drive: boom" = false.
Proof. vm_compute. repeat split. Qed.

(** ** [rename] *)

Section PathLeaf.

(** The pieces [split] cuts have no ['/'] in them. *)
Lemma split_pieces s : Forall (fun x => Path.split x = [x]) (Path.split s).
Proof.
  induction s as [|c s IH]; simpl; [by repeat constructor|].
  destruct (Ascii.eqb c Path.slash) eqn:Hc; [by constructor|].
  destruct (Path.split s) as [|x xs].
  { constructor; [|constructor]. simpl. by rewrite Hc. }
  apply Forall_cons in IH as [Hx Hxs]. constructor; [|done].
  simpl. by rewrite Hc, Hx.
Qed.

Lemma split_join xs :
  xs <> [] -> Forall (fun x => Path.split x = [x]) xs ->
  Path.split (Path.join xs) = xs.
Proof.
  intros Hne H. induction H as [|x xs Hx Hxs IH]; [done|].
  destruct xs as [|y ys]; [done|].
  change (Path.join (x :: y :: ys)) with (x +:+ "/" +:+ Path.join (y :: ys)).
  by rewrite split_slash, Hx, IH.
Qed.

Lemma truthy_empty s : Path.truthy s = false -> s = "".
Proof. by destruct s. Qed.

Lemma join_falsy xs :
  Path.truthy (Path.join xs) = false -> List.filter Path.truthy xs = [].
Proof.
  intros H. apply truthy_empty in H.
  destruct xs as [|x [|y ys]]; [done| |].
  - simpl in H. by subst.
  - change (Path.join (x :: y :: ys)) with (x +:+ "/" +:+ Path.join (y :: ys)) in H.
    by destruct x.
Qed.

(** The segments of the parent path are the segments cut off before the
    last piece. *)
Lemma parts_parentPath path :
  Path.parts (Path.parentPath path) =
    List.filter Path.truthy (removelast (Path.split path)).
Proof.
  unfold Path.parentPath, Path.parts.
  pose proof (split_pieces path) as Hp.
  assert (Forall (fun x => Path.split x = [x]) (removelast (Path.split path))) as Hi.
  { apply Forall_forall. intros x Hx. eapply Forall_forall in Hp; [done|].
    apply list_elem_of_In. apply list_elem_of_In in Hx.
    clear -Hx. induction (Path.split path) as [|y [|z ys] IH]; simpl in *; [done..|].
    destruct Hx as [->|Hx]; [by left|]. right. by apply IH. }
  destruct (Path.truthy (Path.join _)) eqn:Hj.
  - rewrite split_join; [done| |done]. intros E. by rewrite E in Hj.
  - by rewrite (join_falsy _ Hj).
Qed.

(** A path whose last piece is not empty: its segments are those of the
    parent path, then that piece. *)
Lemma parts_leaf path :
  Path.truthy (Path.leaf path) = true ->
  Path.parts path = Path.parts (Path.parentPath path) ++ [Path.leaf path].
Proof.
  intros Hl. rewrite parts_parentPath. unfold Path.parts, Path.leaf in *.
  rewrite (app_removelast_last "" (split_nonempty path)) at 1.
  rewrite List.filter_app. simpl. by rewrite Hl.
Qed.

End PathLeaf.

Section Rename.

Variable drive : Drive.Client.

Implicit Types (w : World) (h : Node.heap) (l c n d : loc).

(** Storing in [children] leaves the other fields. *)
Lemma get_store_children h p v l :
  let n' := Node.get (<[p := Node.set_children v (Node.get h p)]> h) l in
  Node.id n' = Node.id (Node.get h l) /\
  Node.name n' = Node.name (Node.get h l) /\
  Node.mimeType n' = Node.mimeType (Node.get h l) /\
  Node.parent n' = Node.parent (Node.get h l).
Proof.
  simpl. destruct (decide (p = l)) as [->|Hne]; [|by rewrite get_insert_ne].
  destruct (decide (l < List.length h)%nat).
  - by rewrite get_insert_eq.
  - by rewrite list_insert_ge by lia.
Qed.

Lemma get_removeChild h p i l :
  let n' := Node.get (Node.removeChild h p i).1 l in
  Node.id n' = Node.id (Node.get h l) /\
  Node.name n' = Node.name (Node.get h l) /\
  Node.mimeType n' = Node.mimeType (Node.get h l) /\
  Node.parent n' = Node.parent (Node.get h l).
Proof.
  unfold Node.removeChild. destruct (Node.children _); [|done].
  destruct (Node.findIndex_id _ _ _); [|done]. apply get_store_children.
Qed.


(** The first child of a given name is [n] when [n] is a child of that name
    and no other child bears it. *)
Lemma find_name_only h part cs n :
  n ∈ cs -> Node.name (Node.get h n) = part ->
  (forall c, c ∈ cs -> c <> n -> Node.name (Node.get h c) <> part) ->
  find_name h part cs = Some n.
Proof.
  induction cs as [|x cs IH]; intros Hin Hn Hothers; [by apply elem_of_nil in Hin|].
  simpl. destruct (String.eqb _ _) eqn:E.
  - apply String.eqb_eq in E. destruct (decide (x = n)) as [->|Hne]; [done|].
    exfalso. eapply Hothers; [constructor|done..].
  - apply String.eqb_neq in E. apply IH; [|done|].
    + apply elem_of_cons in Hin as [->|Hin]; [done|done].
    + intros c Hc. apply Hothers. by constructor.
Qed.


Lemma get_addChild_fields h self child l :
  (child < List.length h)%nat ->
  let n' := Node.get (Node.addChild h self child) l in
  Node.id n' = Node.id (Node.get h l) /\
  Node.name n' = Node.name (Node.get h l) /\
  Node.mimeType n' = Node.mimeType (Node.get h l).
Proof.
  intros Hc. simpl. rewrite get_addChild by done.
  destruct (Node.isDirectory _); [|done]. simpl.
  by destruct (decide (l = child)), (decide (l = self)).
Qed.

End Rename.

Section RenameMoves.

Variable drive : Drive.Client.

Implicit Types (w : World) (h : Node.heap) (l c n d p : loc).




End RenameMoves.



(** ** A cycle *)

(** C4 fails on the code.  From a new instance, [connect()] and then
    [rename('/a', '/a/b')], which the example store accepts: both paths of
    the call resolve to the folder [a], so [a] is detached from the root
    and added to its own children.  Its parent is itself, the parent links
    from it never reach the root, and [getPath] on it does not return. *)
Theorem rename_into_itself_makes_cycle :
  let w := exec Example.client 8 [OConnect; ORename "/a" "/a/b"]
                (init Example.options) in
  run Example.client 8 (ORename "/a" "/a/b")
      (exec Example.client 8 [OConnect] (init Example.options)) = (w, Ok (VNode 1)) /\
  rootNode w = Some 0%nat /\
  Node.parent (Node.get (heap w) 1) = Some 1%nat /\
  Node.children (Node.get (heap w) 1) = Some [1%nat] /\
  ~ below (heap w) 0 1 /\
  forall fuel, Node.getPath fuel (heap w) 1 = None.
Proof.
  intros w.
  assert (Node.parent (Node.get (heap w) 1) = Some 1%nat) as Hp
    by (vm_compute; reflexivity).
  split_and!; try (vm_compute; reflexivity).
  - assert (forall n, below (heap w) 0 n -> n <> 1%nat) as Hb.
    { induction 1 as [n Hn|n p Hn _ IH]; intros ->; rewrite Hp in Hn.
      - discriminate.
      - injection Hn as <-. by apply IH. }
    intros H. by apply Hb in H.
  - assert (forall fuel path,
              Node.getPath_loop fuel (heap w) path (Some 1%nat) = None) as Hloop.
    { induction fuel as [|fuel IH]; intros path; [done|].
      cbn [Node.getPath_loop]. rewrite Hp. apply IH. }
    intros fuel. unfold Node.getPath. by rewrite Hp, Hloop.
Qed.

(** * Further properties of the code *)

(** ** Paths: how an operation cuts its argument *)

Section PathCuts.

Variable drive : Drive.Client.

(** X1.  The segments of a path are the segments of its parent path, followed by
    its last piece when that piece is not empty.  A path that ends in a
    slash has the empty last piece, and its parent path has the segments of
    the path itself: [mkdir('/x/')] resolves [/x] and asks for a folder with
    the empty name under it. *)
Theorem path_parent_and_leaf path :
  Path.parts path =
    Path.parts (Path.parentPath path) ++
    (if Path.truthy (Path.leaf path) then [Path.leaf path] else []) /\
  Path.leaf (path +:+ "/") = "" /\
  Path.parts (Path.parentPath (path +:+ "/")) = Path.parts path.
Proof.
  split_and!.
  - destruct (Path.truthy (Path.leaf path)) eqn:Hl; [by apply parts_leaf|].
    rewrite parts_parentPath, app_nil_r. unfold Path.parts, Path.leaf in *.
    rewrite (app_removelast_last "" (split_nonempty path)) at 1.
    rewrite List.filter_app. simpl. by rewrite Hl, app_nil_r.
  - unfold Path.leaf. change (path +:+ "/") with (path +:+ "/" +:+ "").
    rewrite split_slash. simpl. by rewrite List.last_last.
  - rewrite parts_parentPath. change (path +:+ "/") with (path +:+ "/" +:+ "").
    rewrite split_slash. simpl. by rewrite List.removelast_last.
Qed.

(** X2.  Resolution reads a path through its segments only: two paths with the
    same segments resolve alike, and a path without segments resolves to
    the root without a call. *)
Theorem resolve_reads_segments p q w :
  Path.parts p = Path.parts q ->
  (forall w' l, resolvePath drive p w = (w', Ok l) ->
                resolvePath drive q w = (w', Ok l)) /\
  (Path.parts p = [] -> forall r, rootNode w = Some r ->
     resolvePath drive p w = (w, Ok r)).
Proof.
  intros Hpq. split.
  - intros w' l Hres. destruct (resolvePath_ok_root _ _ _ _ _ Hres) as [r Hr].
    rewrite (resolvePath_walk _ p _ _ Hr) in Hres.
    rewrite (resolvePath_walk _ q _ _ Hr), <- Hpq.
    by apply (walk_ok_path _ p).
  - intros Hp r Hr. by rewrite (resolvePath_walk _ _ _ _ Hr), Hp.
Qed.

End PathCuts.

Lemma resolve_reads_segments_witness :
  let w' := (resolvePath Example.client "/a/x" Example.connected).1 in
  resolvePath Example.client "//a///x/" Example.connected = (w', Ok 2%nat).
Proof.
  intros w'.
  apply (proj1 (resolve_reads_segments Example.client "/a/x" "//a///x/"
                  Example.connected eq_refl)).
  vm_compute; reflexivity.
Defined.

(** ** [removeChild] *)

Section RemoveChild.

Implicit Types (h : Node.heap) (l c p : loc).

(** X3.  [removeChild] answers [false] exactly when no cached child bears the id,
    an unpopulated folder included, and then it changes nothing. *)
Theorem removeChild_not_found h p i :
  ((Node.removeChild h p i).2 = false <->
   Forall (fun c => Node.id (Node.get h c) <> i) (Node.kids (Node.get h p))) /\
  ((Node.removeChild h p i).2 = false -> (Node.removeChild h p i).1 = h).
Proof.
  unfold Node.removeChild, Node.kids.
  destruct (Node.children (Node.get h p)) as [cs|]; simpl.
  - destruct (Node.findIndex_id h i cs) as [k|] eqn:E; simpl.
    + split; [|done]. split; [done|]. intros H. apply findIndex_id_None in H.
      congruence.
    + split; [|done]. split; [|done]. intros _. by apply findIndex_id_None.
  - split; [|done]. split; [|done]. intros _. constructor.
Qed.

(** X4.  When [removeChild] answers [true], it took out one child: the first
    that bears the id.  The other children keep their order, no other
    object changes, and the child taken out keeps its [parent]. *)
Theorem removeChild_removes_first h p i :
  (Node.removeChild h p i).2 = true ->
  let h' := (Node.removeChild h p i).1 in
  exists before c after,
    Node.kids (Node.get h p) = before ++ c :: after /\
    Node.id (Node.get h c) = i /\
    Forall (fun x => Node.id (Node.get h x) <> i) before /\
    Node.children (Node.get h' p) = Some (before ++ after) /\
    (forall l, l <> p -> Node.get h' l = Node.get h l) /\
    (c <> p -> Node.parent (Node.get h' c) = Node.parent (Node.get h c)) /\
    (Forall (fun x => Node.id (Node.get h x) <> i) after ->
     Forall (fun x => Node.id (Node.get h' x) <> i) (Node.kids (Node.get h' p))).
Proof.
  unfold Node.removeChild, Node.kids.
  destruct (Node.children (Node.get h p)) as [cs|] eqn:Hcs; simpl; [|done].
  destruct (Node.findIndex_id h i cs) as [k|] eqn:E; simpl; [|done].
  intros _. destruct (findIndex_id_Some _ _ _ _ E)
    as (before & c & after & -> & <- & Hc & Hb).
  assert (p < List.length h)%nat as Hp.
  { destruct (decide (p < List.length h)%nat); [done|].
    rewrite get_dangling in Hcs by lia. done. }
  assert (delete (List.length before) (before ++ c :: after) = before ++ after)
    as Hdel.
  { rewrite delete_middle. done. }
  rewrite Hdel.
  exists before, c, after. split_and!; try done.
  - by rewrite get_insert_eq.
  - intros l Hl. by rewrite get_insert_ne.
  - intros Hcp. by rewrite get_insert_ne.
  - intros Ha. rewrite get_insert_eq by done. simpl.
    apply Forall_forall. intros x Hx.
    destruct (get_store_children h p (Some (before ++ after)) x) as (-> & _).
    apply elem_of_app in Hx as [Hx|Hx].
    + exact (proj1 (Forall_forall _ _) Hb x Hx).
    + exact (proj1 (Forall_forall _ _) Ha x Hx).
Qed.

(** X5.  [addChild] of a node, then [removeChild] of its id, when no cached
    child bore that id: the children are what they were, and the node keeps
    the [parent] that [addChild] gave it. *)
Theorem addChild_then_removeChild h p c :
  Node.isDirectory (Node.get h p) = true -> (c < List.length h)%nat -> c <> p ->
  Forall (fun x => Node.id (Node.get h x) <> Node.id (Node.get h c))
         (Node.kids (Node.get h p)) ->
  let h1 := Node.addChild h p c in
  let r := Node.removeChild h1 p (Node.id (Node.get h c)) in
  r.2 = true /\
  Node.children (Node.get r.1 p) = Some (Node.kids (Node.get h p)) /\
  Node.parent (Node.get r.1 c) = Some p /\
  (forall l, l <> p -> l <> c -> Node.get r.1 l = Node.get h l).
Proof.
  intros Hd Hc Hcp Hfresh h1 r.
  pose proof (directory_allocated _ _ Hd) as Hp.
  assert (forall l, Node.id (Node.get h1 l) = Node.id (Node.get h l)) as Hid.
  { intros l. unfold h1.
    by destruct (get_addChild_fields h p c l Hc) as (-> & _). }
  assert (Node.children (Node.get h1 p) = Some (Node.kids (Node.get h p) ++ [c]))
    as Hkids.
  { unfold h1. rewrite get_addChild, Hd by done. simpl.
    by repeat case_decide. }
  assert (Node.findIndex_id h1 (Node.id (Node.get h c))
            (Node.kids (Node.get h p) ++ [c]) =
          Some (List.length (Node.kids (Node.get h p)))) as Hfind.
  { clear Hkids. induction Hfresh as [|x xs Hx _ IH]; simpl.
    - by rewrite Hid, String.eqb_refl.
    - rewrite Hid. apply String.eqb_neq in Hx. rewrite Hx. by rewrite IH. }
  assert (r = (<[p := Node.set_children (Some (Node.kids (Node.get h p)))
                        (Node.get h1 p)]> h1, true)) as ->.
  { unfold r, Node.removeChild. rewrite Hkids, Hfind. do 3 f_equal.
    by rewrite delete_middle, app_nil_r. }
  assert (List.length h1 = List.length h) as Hlen by apply length_addChild.
  simpl. split_and!; try done.
  - rewrite get_insert_eq by lia. done.
  - rewrite get_insert_ne by done. unfold h1.
    rewrite get_addChild, Hd by done. simpl. by repeat case_decide.
  - intros l Hlp Hlc. rewrite get_insert_ne by done. unfold h1.
    rewrite get_addChild, Hd by done. simpl. by repeat case_decide.
Qed.

End RemoveChild.

Lemma removeChild_removes_first_witness :
  let h := [Node.mk "d" "docs" Node.Folder 0 None None (Some [1; 2; 3]%nat) None;
            Node.mk "x" "one" "text/plain" 1 None None None (Some 0%nat);
            Node.mk "y" "two" "text/plain" 2 None None None (Some 0%nat);
            Node.mk "y" "three" "text/plain" 3 None None None (Some 0%nat)] in
  (Node.removeChild h 0 "y").2 = true /\
  exists before c after,
    Node.kids (Node.get h 0) = before ++ c :: after /\
    Node.id (Node.get h c) = "y" /\
    Node.children (Node.get (Node.removeChild h 0 "y").1 0) = Some (before ++ after).
Proof.
  intros h.
  assert ((Node.removeChild h 0 "y").2 = true) as Hrun by (vm_compute; reflexivity).
  split; [exact Hrun|].
  destruct (removeChild_removes_first h 0%nat "y" Hrun)
    as (before & c & after & Hk & Hid & _ & Hc & _).
  exists before, c, after. split_and!; [exact Hk|exact Hid|exact Hc].
Defined.

Lemma addChild_then_removeChild_witness :
  let h := [Node.mk "d" "docs" Node.Folder 0 None None (Some [1]%nat) None;
            Node.mk "x" "one" "text/plain" 1 None None None (Some 0%nat);
            Node.mk "y" "two" "text/plain" 2 None None None None] in
  let r := Node.removeChild (Node.addChild h 0 2) 0 "y" in
  r.2 = true /\ Node.children (Node.get r.1 0) = Some [1]%nat /\
  Node.parent (Node.get r.1 2) = Some 0%nat.
Proof.
  intros h r.
  destruct (addChild_then_removeChild h 0%nat 2%nat) as (Ht & Hc & Hp & _).
  - vm_compute; reflexivity.
  - vm_compute; lia.
  - lia.
  - constructor; [vm_compute; discriminate|constructor].
  - split_and!; [exact Ht|exact Hc|exact Hp].
Defined.

Lemma removeChild_not_found_witness :
  let h := [Node.mk "d" "docs" Node.Folder 0 None None (Some [1]%nat) None;
            Node.mk "x" "one" "text/plain" 1 None None None (Some 0%nat)] in
  (Node.removeChild h 0 "z").2 = false /\ (Node.removeChild h 0 "z").1 = h.
Proof.
  intros h. destruct (removeChild_not_found h 0%nat "z") as [Hiff Hsame].
  assert ((Node.removeChild h 0 "z").2 = false) as Hf.
  { apply Hiff. constructor; [vm_compute; discriminate|constructor]. }
  split; [exact Hf|exact (Hsame Hf)].
Defined.

(** ** [getLastModified] *)

Section LastModified.

Implicit Types (h : Node.heap) (l c : loc).

(** The latest of a date and a list of dates is one of them, and none of
    them is later. *)
Lemma latest_spec ds : forall d,
  Node.latest d ds ∈ d :: ds /\ Forall (fun x => x <= Node.latest d ds) (d :: ds).
Proof.
  unfold Node.latest. induction ds as [|y ds IH]; intros d; simpl.
  - split; [constructor|]. by repeat constructor.
  - destruct (IH (Z.max d y)) as [Hin Hall].
    apply Forall_cons in Hall as [Hd Hall]. split.
    + apply elem_of_cons in Hin as [Hin|Hin].
      * rewrite Hin. destruct (Z.max_spec d y) as [[_ ->]|[_ ->]].
        -- right. constructor.
        -- constructor.
      * right. by right.
    + constructor; [lia|]. constructor; [lia|done].
Qed.

(** X6.  [getLastModified] of a file is its stored date.  On a folder it is
    [null] exactly when every cached child answers [null]; otherwise it is
    the answer of one of the children, and no child answers a later date. *)
Theorem getLastModified_is_latest fuel h l r :
  Node.getLastModified (S fuel) h l = Some r ->
  (Node.isFile (Node.get h l) = true -> r = Node.modifiedTime (Node.get h l)) /\
  (Node.isDirectory (Node.get h l) = true ->
   exists dates,
     Forall2 (fun c d => Node.getLastModified fuel h c = Some d)
             (Node.kids (Node.get h l)) dates /\
     match r with
     | None => Forall (fun d => d = None) dates
     | Some m => Some m ∈ dates /\
                 Forall (fun d => forall x, d = Some x -> x <= m) dates
     end).
Proof.
  simpl. unfold Node.isFile. destruct (Node.isDirectory (Node.get h l)); simpl.
  - intros H. split; [done|]. intros _.
    destruct (mapM _ _) as [dates|] eqn:Hm; [|done]. simpl in H.
    apply mapM_Some in Hm. exists dates. split; [done|].
    destruct (omap (fun d => d) dates) as [|d ds] eqn:Ho; injection H as <-.
    + apply Forall_forall. intros [x|] Hx; [|done].
      assert (x ∈ omap (fun d => d) dates) as Hin
        by (apply list_elem_of_omap; eauto).
      rewrite Ho in Hin. by apply elem_of_nil in Hin.
    + destruct (latest_spec ds d) as [Hin Hall]. rewrite <- Ho in Hin, Hall.
      split.
      * apply list_elem_of_omap in Hin as (y & Hy & ->). done.
      * apply Forall_forall. intros y Hy x ->.
        eapply Forall_forall in Hall; [exact Hall|].
        apply list_elem_of_omap. eauto.
  - intros [= <-]. split; [done|]. done.
Qed.

End LastModified.

Lemma getLastModified_is_latest_witness :
  let folder := Node.mk "d" "docs" Node.Folder 0 (Some 1) (Some 1) (Some [1; 2; 3]%nat) None in
  let old := Node.mk "o" "old" "text/plain" 4 (Some 5) (Some 5) None (Some 0%nat) in
  let new := Node.mk "n" "new" "text/plain" 4 (Some 9) (Some 9) None (Some 0%nat) in
  let sub := Node.mk "s" "sub" Node.Folder 0 (Some 20) (Some 20) None (Some 0%nat) in
  let h := [folder; old; new; sub] in
  Node.getLastModified 2 h 0 = Some (Some 9) /\
  exists dates,
    Forall2 (fun c d => Node.getLastModified 1 h c = Some d) [1; 2; 3]%nat dates /\
    Some 9 ∈ dates /\ Forall (fun d => forall x, d = Some x -> x <= 9) dates.
Proof.
  intros folder old new sub h.
  assert (Node.getLastModified 2 h 0 = Some (Some 9)) as Hrun
    by (vm_compute; reflexivity).
  split; [exact Hrun|].
  destruct (getLastModified_is_latest 1 h 0%nat (Some 9) Hrun) as [_ Hd].
  destruct Hd as (dates & Hdates & Hin & Hall); [vm_compute; reflexivity|].
  exists dates. split_and!; [exact Hdates|exact Hin|exact Hall].
Defined.

(** ** What no operation changes *)

Section Steady.

Context {F : Type} (f : Node.t -> F).
(** [f] reads a field other than [children] and [parent]. *)
Hypothesis f_children : forall v n, f (Node.set_children v n) = f n.
Hypothesis f_parent : forall v n, f (Node.set_parent v n) = f n.

Implicit Types (h : Node.heap) (l c p : loc).

Lemma keeps_refl h : keeps f h h.
Proof. by split. Qed.

Lemma keeps_trans h1 h2 h3 : keeps f h1 h2 -> keeps f h2 h3 -> keeps f h1 h3.
Proof.
  intros [Hl1 H1] [Hl2 H2]. split; [lia|]. intros l Hl.
  rewrite H2 by lia. by apply H1.
Qed.

Lemma keeps_alloc h n : keeps f h (h ++ [n]).
Proof.
  split; [rewrite length_app; lia|]. intros l Hl. by rewrite get_app_old.
Qed.

Lemma keeps_alter h p (g : Node.t -> Node.t) :
  (forall n, f (g n) = f n) -> keeps f h (alter g p h).
Proof.
  intros Hg. split; [by rewrite length_alter|]. intros l Hl.
  destruct (decide (p = l)) as [->|Hne].
  - by rewrite get_alter_eq.
  - by rewrite get_alter_ne.
Qed.

Lemma keeps_store h p v : keeps f h (<[p := Node.set_children v (Node.get h p)]> h).
Proof.
  split; [by rewrite length_insert|]. intros l Hl.
  destruct (decide (p = l)) as [->|Hne].
  - by rewrite get_insert_eq.
  - by rewrite get_insert_ne.
Qed.

Lemma keeps_addChild h p c : keeps f h (Node.addChild h p c).
Proof.
  unfold Node.addChild. destruct (Node.isDirectory _); [|apply keeps_refl].
  eapply keeps_trans; [apply keeps_store|]. by apply keeps_alter.
Qed.

Lemma keeps_removeChild h p i : keeps f h (Node.removeChild h p i).1.
Proof.
  unfold Node.removeChild. destruct (Node.children _); [|apply keeps_refl].
  destruct (Node.findIndex_id _ _ _); [|apply keeps_refl]. apply keeps_store.
Qed.

Lemma keeps_replace_child h p i u : keeps f h (replace_child h p i u).
Proof.
  unfold replace_child. destruct (Node.children _); [|apply keeps_refl].
  destruct (Node.findIndex_id _ _ _); [|apply keeps_refl]. apply keeps_store.
Qed.

Lemma steady_ret {A} (a : A) : steady f (ret a).
Proof. intros w w' r [= <- <-]. apply keeps_refl. Qed.

Lemma steady_throw {A} e : steady f (@throw A e).
Proof. intros w w' r [= <- <-]. apply keeps_refl. Qed.

Lemma steady_gets {A} (g : World -> A) : steady f (gets g).
Proof. intros w w' r [= <- <-]. apply keeps_refl. Qed.

Lemma steady_modify g : (forall w, heap (g w) = heap w) -> steady f (modify g).
Proof. intros Hg w w' r [= <- <-]. rewrite Hg. apply keeps_refl. Qed.

Lemma steady_update_heap g :
  (forall h, keeps f h (g h)) -> steady f (update_heap g).
Proof. intros Hg w w' r [= <- <-]. apply Hg. Qed.

Lemma steady_new_node n : steady f (new_node n).
Proof. intros w w' r [= <- <-]. apply keeps_alloc. Qed.

Lemma steady_request {A} (call : Drive.Call)
      (reply : list Drive.Event -> result A) :
  steady f (request call reply).
Proof. intros w w' r [= <- <-]. apply keeps_refl. Qed.

Lemma steady_bind {A B} (m : M A) (k : A -> M B) :
  steady f m -> (forall a, steady f (k a)) -> steady f (bind m k).
Proof.
  intros Hm Hk w w' r H. unfold bind in H.
  destruct (m w) as [w1 [a|e]] eqn:E.
  - eapply keeps_trans; [by eapply Hm|by eapply Hk].
  - injection H as <- <-. by eapply Hm.
Qed.

Lemma steady_wrap {A} front (m : M A) : steady f m -> steady f (wrap front m).
Proof.
  intros Hm w w' r H. unfold wrap, try_catch, throw in H.
  destruct (m w) as [w1 [a|e]] eqn:E; injection H as <- <-; by eapply Hm.
Qed.

Lemma steady_fmap {A B} (g : A -> B) (m : M A) : steady f m -> steady f (fmap g m).
Proof. intros Hm. apply steady_bind; [done|]. intros a. apply steady_ret. Qed.

End Steady.

Ltac steady_step :=
  lazymatch goal with
  | |- steady _ (ret _) => apply steady_ret
  | |- steady _ (throw _) => apply steady_throw
  | |- steady _ (gets _) => apply steady_gets
  | |- steady _ (read _) => apply steady_gets
  | |- steady _ (new_node _) => apply steady_new_node
  | |- steady _ (request _ _) => apply steady_request
  | |- steady _ (clock _) => apply steady_request
  | |- steady _ (wrap _ _) => apply steady_wrap
  | |- steady _ (fmap _ _) => apply steady_fmap
  | |- steady _ (modify _) => apply steady_modify; intros; reflexivity
  | |- steady _ (update_heap _) =>
      apply steady_update_heap; intros;
      first [ apply keeps_addChild | apply keeps_removeChild
            | apply keeps_replace_child | apply keeps_alter ]; try done
  | |- steady _ (bind _ _) => apply steady_bind; [|intros ?]
  | |- steady _ (if ?b then _ else _) => destruct b
  | |- steady _ (match ?x with _ => _ end) => destruct x
  end.

Section SteadyOperations.

Variable drive : Drive.Client.
Variable stack : nat.
Context {F : Type} (f : Node.t -> F).
Hypothesis f_children : forall v n, f (Node.set_children v n) = f n.
Hypothesis f_parent : forall v n, f (Node.set_parent v n) = f n.

Lemma steady_connect : steady f (connect drive).
Proof. unfold connect. repeat steady_step. Qed.

Lemma steady_autoConnect : steady f (autoConnect drive).
Proof. unfold autoConnect. repeat first [apply steady_connect | steady_step]. Qed.

Lemma steady_walk path parts : forall cur, steady f (walk drive path parts cur).
Proof.
  induction parts as [|part rest IH]; intros cur; cbn [walk].
  - apply steady_ret.
  - repeat first [apply IH | steady_step].
Qed.

Lemma steady_resolvePath path : steady f (resolvePath drive path).
Proof. unfold resolvePath. repeat first [apply steady_walk | steady_step]. Qed.

Lemma steady_readdir_map node files : steady f (readdir_map node files).
Proof.
  induction files as [|file rest IH]; cbn [readdir_map].
  - apply steady_ret.
  - repeat first [apply IH | steady_step].
Qed.

Lemma steady_search_map files : steady f (search_map files).
Proof.
  induction files as [|file rest IH]; cbn [search_map].
  - apply steady_ret.
  - repeat first [apply IH | steady_step].
Qed.

Lemma steady_detach node : steady f (detach node).
Proof. unfold detach. repeat steady_step. Qed.

(** Every operation but [rename] keeps [f]; [rename] keeps it when
    [f] does not read [name]. *)
Lemma steady_run o :
  (is_rename o = true -> forall v n, f (Node.set_name v n) = f n) ->
  steady f (run drive stack o).
Proof.
  intros Hname.
  destruct o; cbn [run];
    unfold readdir, readdir_body, mkdir, mkdir_body, writeFile, writeFile_body,
      findFileInFolder, readFile, readFile_body, unlink, unlink_body, rename,
      rename_body, stat, stat_body, search, search_body, copy, copy_body;
    repeat first
      [ apply steady_autoConnect | apply steady_connect | apply steady_resolvePath
      | apply steady_readdir_map | apply steady_search_map | apply steady_detach
      | steady_step ]; try done.
  all: by apply Hname.
Qed.

Lemma steady_exec ops :
  (forall o, o ∈ ops -> is_rename o = true ->
     forall v n, f (Node.set_name v n) = f n) ->
  forall w, keeps f (heap w) (heap (exec drive stack ops w)).
Proof.
  induction ops as [|o ops IH]; intros Hops w; [apply keeps_refl|].
  simpl. destruct (run drive stack o w) as [w1 r] eqn:E. simpl.
  apply (keeps_trans f _ (heap w1)).
  - eapply steady_run; [|exact E]. apply Hops. constructor.
  - apply IH. intros o' Ho'. apply Hops. by constructor.
Qed.

End SteadyOperations.

Section Identity.

Variable drive : Drive.Client.
Variable stack : nat.

(** X7.  Whatever the operations and the remote store, an object stays an
    object and keeps its [id] and its [mimeType]: a folder stays a folder
    and a file a file. *)
Theorem node_identity_is_stable ops w l :
  (l < List.length (heap w))%nat ->
  let w' := exec drive stack ops w in
  (l < List.length (heap w'))%nat /\
  Node.id (Node.get (heap w') l) = Node.id (Node.get (heap w) l) /\
  Node.mimeType (Node.get (heap w') l) = Node.mimeType (Node.get (heap w) l) /\
  Node.isDirectory (Node.get (heap w') l) = Node.isDirectory (Node.get (heap w) l).
Proof.
  intros Hl w'. subst w'.
  destruct (steady_exec drive stack (fun n => (Node.id n, Node.mimeType n))
              ltac:(done) ltac:(done) ops ltac:(done) w) as [Hlen H].
  specialize (H l Hl). injection H as Hid Hm.
  split_and!; [lia|done..|]. unfold Node.isDirectory. by rewrite Hm.
Qed.

(** X8.  Only [rename] changes a name: through any other operations, an object
    keeps its [name]. *)
Theorem only_rename_changes_names ops w l :
  Forall (fun o => is_rename o = false) ops ->
  (l < List.length (heap w))%nat ->
  Node.name (Node.get (heap (exec drive stack ops w)) l) =
    Node.name (Node.get (heap w) l).
Proof.
  intros Hops Hl.
  destruct (steady_exec drive stack Node.name ltac:(done) ltac:(done) ops) with (w := w)
    as [_ H]; [|by apply H].
  intros o Ho Hr. eapply Forall_forall in Hops; [|exact Ho]. congruence.
Qed.

End Identity.

Lemma node_identity_is_stable_witness :
  let w := exec Example.client 0 [OConnect; OReaddir "/a"] (init Example.options) in
  let w' := exec Example.client 0
              [ORename "/a/x" "/a/z"; OWriteFile "/a/y" "new"; OUnlink "/a"] w in
  (2 < List.length (heap w))%nat /\
  Node.id (Node.get (heap w) 2) = "idx" /\
  Node.id (Node.get (heap w') 2) = Node.id (Node.get (heap w) 2) /\
  Node.isDirectory (Node.get (heap w') 2) = Node.isDirectory (Node.get (heap w) 2).
Proof.
  intros w w'.
  assert (2 < List.length (heap w))%nat as Hl by (vm_compute; lia).
  split; [exact Hl|]. split; [vm_compute; reflexivity|].
  destruct (node_identity_is_stable Example.client 0
              [ORename "/a/x" "/a/z"; OWriteFile "/a/y" "new"; OUnlink "/a"]
              w 2%nat Hl) as (_ & Hid & _ & Hd).
  split; [exact Hid|exact Hd].
Defined.

Lemma only_rename_changes_names_witness :
  let w := exec Example.client 0 [OConnect; OReaddir "/a"] (init Example.options) in
  let w' := exec Example.client 0
              [OWriteFile "/a/y" "new"; OCopy "/a/x" "/x2"; OUnlink "/a/x"] w in
  (2 < List.length (heap w))%nat /\
  Node.name (Node.get (heap w) 2) = "x" /\
  Node.name (Node.get (heap w') 2) = Node.name (Node.get (heap w) 2).
Proof.
  intros w w'.
  assert (2 < List.length (heap w))%nat as Hl by (vm_compute; lia).
  split; [exact Hl|]. split; [vm_compute; reflexivity|].
  apply (only_rename_changes_names Example.client 0
           [OWriteFile "/a/y" "new"; OCopy "/a/x" "/x2"; OUnlink "/a/x"] w 2%nat);
    [|exact Hl].
  repeat constructor.
Defined.

(** ** The requests that change the remote store *)

Section Mutations.

Lemma mutations_app evs1 evs2 :
  mutations (evs1 ++ evs2) = (mutations evs1 + mutations evs2)%nat.
Proof. unfold mutations. by rewrite List.filter_app, length_app. Qed.

Lemma mutates_quiet {A} (m : M A) k :
  (forall w w' r, m w = (w', r) -> trace w' = trace w /\ (k = 0%nat \/ exists e, r = Err e)) ->
  mutates k m.
Proof.
  intros H w w' r E. destruct (H _ _ _ E) as [Htr Hk]. exists [].
  rewrite app_nil_r. split; [done|].
  destruct r; [|unfold mutations; simpl; lia].
  destruct Hk as [->|[e He]]; done.
Qed.

Lemma mutates_ret {A} (a : A) : mutates 0 (ret a).
Proof. apply mutates_quiet. intros w w' r [= <- <-]. auto. Qed.

Lemma mutates_throw {A} k e : mutates k (@throw A e).
Proof. apply mutates_quiet. intros w w' r [= <- <-]. eauto. Qed.

Lemma mutates_gets {A} (g : World -> A) : mutates 0 (gets g).
Proof. apply mutates_quiet. intros w w' r [= <- <-]. auto. Qed.

Lemma mutates_modify g : (forall w, trace (g w) = trace w) -> mutates 0 (modify g).
Proof. intros Hg. apply mutates_quiet. intros w w' r [= <- <-]. auto. Qed.

Lemma mutates_new_node n : mutates 0 (new_node n).
Proof. apply mutates_quiet. intros w w' r [= <- <-]. auto. Qed.

Lemma mutates_request {A} (call : Drive.Call)
      (reply : list Drive.Event -> result A) :
  mutates (if mutating call then 1 else 0) (request call reply).
Proof.
  intros w w' r [= <- <-]. eexists. split; [done|].
  unfold mutations. simpl. destruct (reply (trace w)); simpl;
    destruct (mutating call); simpl; lia.
Qed.

Lemma mutates_bind {A B} k1 k2 (m : M A) (k : A -> M B) :
  mutates k1 m -> (forall a, mutates k2 (k a)) -> mutates (k1 + k2) (bind m k).
Proof.
  intros Hm Hk w w' r H. unfold bind in H.
  destruct (m w) as [w1 [a|e]] eqn:E.
  - destruct (Hm _ _ _ E) as (evs1 & Htr1 & H1).
    destruct (Hk a _ _ _ H) as (evs2 & Htr2 & H2).
    exists (evs1 ++ evs2). split; [by rewrite Htr2, Htr1, app_assoc|].
    rewrite mutations_app. destruct r; lia.
  - injection H as <- <-. destruct (Hm _ _ _ E) as (evs1 & Htr1 & H1).
    exists evs1. split; [done|]. lia.
Qed.

Lemma mutates_wrap {A} k front (m : M A) : mutates k m -> mutates k (wrap front m).
Proof.
  intros Hm w w' r H. unfold wrap, try_catch, throw in H.
  destruct (m w) as [w1 [a|e]] eqn:E; injection H as <- <-;
    destruct (Hm _ _ _ E) as (evs1 & Htr1 & H1); by exists evs1.
Qed.

Lemma mutates_fmap {A B} k (g : A -> B) (m : M A) : mutates k m -> mutates k (fmap g m).
Proof.
  intros Hm. replace k with (k + 0)%nat by lia.
  apply mutates_bind; [done|]. intros a. apply mutates_ret.
Qed.

End Mutations.

Ltac mutates_step :=
  lazymatch goal with
  | |- mutates _ (throw _) => apply mutates_throw
  | |- mutates 0 (ret _) => apply mutates_ret
  | |- mutates 0 (gets _) => apply mutates_gets
  | |- mutates 0 (read _) => apply mutates_gets
  | |- mutates 0 (new_node _) => apply mutates_new_node
  | |- mutates 0 (modify _) => apply mutates_modify; intros; reflexivity
  | |- mutates 0 (update_heap _) => apply mutates_modify; intros; reflexivity
  | |- mutates _ (request ?c _) => apply (mutates_request c)
  | |- mutates 0 (clock _) => apply (mutates_request Drive.Now)
  | |- mutates _ (wrap _ _) => apply mutates_wrap
  | |- mutates _ (fmap _ _) => apply mutates_fmap
  | |- mutates 1 (bind (request (Drive.FilesCreate _ _ _ _) _) _) =>
      apply (mutates_bind 1 0); [|intros ?]
  | |- mutates 1 (bind (request (Drive.FilesUpdate _ _ _ _ _) _) _) =>
      apply (mutates_bind 1 0); [|intros ?]
  | |- mutates 1 (bind (request (Drive.FilesDelete _) _) _) =>
      apply (mutates_bind 1 0); [|intros ?]
  | |- mutates 1 (bind (request (Drive.FilesCopy _ _ _) _) _) =>
      apply (mutates_bind 1 0); [|intros ?]
  | |- mutates ?k (bind _ _) => apply (mutates_bind 0 k); [|intros ?]
  | |- mutates _ (if ?b then _ else _) => destruct b
  | |- mutates _ (match ?x with _ => _ end) => destruct x
  end.

Section MutationsOfOperations.

Variable drive : Drive.Client.
Variable stack : nat.

Lemma mutates_connect : mutates 0 (connect drive).
Proof. unfold connect. repeat mutates_step. Qed.

Lemma mutates_autoConnect : mutates 0 (autoConnect drive).
Proof. unfold autoConnect. repeat first [apply mutates_connect | mutates_step]. Qed.

Lemma mutates_walk path parts : forall cur, mutates 0 (walk drive path parts cur).
Proof.
  induction parts as [|part rest IH]; intros cur; cbn [walk].
  - apply mutates_ret.
  - repeat first [apply IH | mutates_step].
Qed.

Lemma mutates_resolvePath path : mutates 0 (resolvePath drive path).
Proof. unfold resolvePath. repeat first [apply mutates_walk | mutates_step]. Qed.

Lemma mutates_readdir_map node files : mutates 0 (readdir_map node files).
Proof.
  induction files as [|file rest IH]; cbn [readdir_map].
  - apply mutates_ret.
  - repeat first [apply IH | mutates_step].
Qed.

Lemma mutates_search_map files : mutates 0 (search_map files).
Proof.
  induction files as [|file rest IH]; cbn [search_map].
  - apply mutates_ret.
  - repeat first [apply IH | mutates_step].
Qed.

Lemma mutates_detach node : mutates 0 (detach node).
Proof. unfold detach. repeat mutates_step. Qed.

Lemma mutates_run o : mutates (if reads_only o then 0 else 1) (run drive stack o).
Proof.
  destruct o; cbn [run reads_only];
    unfold readdir, readdir_body, mkdir, mkdir_body, writeFile, writeFile_body,
      findFileInFolder, readFile, readFile_body, unlink, unlink_body, rename,
      rename_body, stat, stat_body, search, search_body, copy, copy_body;
    repeat first
      [ apply mutates_autoConnect | apply mutates_connect
      | apply mutates_resolvePath | apply mutates_readdir_map
      | apply mutates_search_map | apply mutates_detach | mutates_step ].
Qed.

(** X9.  [connect], resolution, [readdir], [readFile], [stat] and [search] send
    no request that changes the remote store.  [mkdir], [writeFile],
    [unlink], [rename] and [copy] send exactly one when they return, and at
    most one when they throw. *)
Theorem one_mutation_per_operation o w w' r :
  run drive stack o w = (w', r) ->
  exists evs, trace w' = trace w ++ evs /\
    (reads_only o = true -> mutations evs = 0%nat) /\
    (reads_only o = false ->
     match r with
     | Ok _ => mutations evs = 1%nat
     | Err _ => (mutations evs <= 1)%nat
     end).
Proof.
  intros H. destruct (mutates_run o _ _ _ H) as (evs & Htr & Hm).
  exists evs. split; [done|].
  destruct (reads_only o); split; try done; intros _; destruct r; lia.
Qed.

End MutationsOfOperations.

Lemma one_mutation_per_operation_witness :
  let w := Example.connected in
  let w' := (run Example.client 0 (OMkdir "/b") w).1 in
  run Example.client 0 (OMkdir "/b") w = (w', Ok (VNode 1%nat)) /\
  exists evs, trace w' = trace w ++ evs /\ mutations evs = 1%nat.
Proof.
  intros w w'.
  assert (run Example.client 0 (OMkdir "/b") w = (w', Ok (VNode 1%nat))) as Hrun
    by (vm_compute; reflexivity).
  split; [exact Hrun|].
  destruct (one_mutation_per_operation Example.client 0 (OMkdir "/b") w w' _ Hrun)
    as (evs & Htr & _ & Hm).
  exists evs. split; [exact Htr|]. apply Hm. reflexivity.
Defined.

(** ** Connecting *)

Section Connecting.

Variable drive : Drive.Client.
Variable stack : nat.

Implicit Types (w : World).

Lemma autoConnect_runs w :
  autoConnect drive w =
    if negb (connected w) ||
       match lastConnect w with
       | Some t => CONNECTION_TIMEOUT <? Drive.now drive (trace w) - t
       | None => false
       end
    then connect drive (logged w Drive.Now None)
    else (logged w Drive.Now None, Ok tt).
Proof. unfold autoConnect. unfold_m. simpl. by destruct (negb _ || _). Qed.

Lemma connect_refused w :
  (falsy (email (options w)) || falsy (privateKey (options w))) = true ->
  connect drive w = (w, Err "Invalid authentication credentials").
Proof. intros H. unfold connect. unfold_m. by rewrite H. Qed.

Lemma after_failed_autoConnect {A B} (k : M A) (g : A -> B) w w' e :
  autoConnect drive w = (w', Err e) ->
  fmap g (autoConnect drive >> k) w = (w', Err e).
Proof. intros H. unfold fmap, bind. by rewrite H. Qed.

Lemma connect_fresh w w' :
  connect drive w = (w', Ok tt) ->
  exists data,
    heap w' = heap w ++ [node_of_file data] /\
    rootNode w' = Some (List.length (heap w)) /\
    Drive.files_get drive (trace w ++ [Drive.mkEvent Drive.Now None])
                    (root (options w)) = Ok data /\
    (falsy (Drive.id data) || falsy (Drive.name data)) = false /\
    connected w' = true /\
    lastConnect w' = Some (Drive.now drive (trace w)).
Proof.
  unfold connect. unfold_m.
  destruct (falsy _ || falsy _); [done|]. simpl.
  destruct (Drive.files_get drive _ _) as [data|m] eqn:E; [|done].
  destruct (falsy (Drive.id data) || falsy (Drive.name data)) eqn:F; [done|].
  intros [= <-]. exists data. simpl. done.
Qed.

(** X10.  Without an e-mail address or without a private key, nothing works on an
    instance that is not connected: [connect] and every operation throw
    'Invalid authentication credentials', without the message of the
    operation in front of it; no request is sent, only the clock is read,
    and the instance stays as it was, not connected. *)
Theorem missing_credentials_stop_everything o w w' r :
  (falsy (email (options w)) || falsy (privateKey (options w))) = true ->
  connected w = false ->
  (forall path, o <> OResolve path) ->
  run drive stack o w = (w', r) ->
  r = Err "Invalid authentication credentials" /\
  (w' = w \/ w' = logged w Drive.Now None) /\
  connected w' = false /\ heap w' = heap w /\ rootNode w' = rootNode w.
Proof.
  intros Hcred Hc Hres Hrun.
  assert (autoConnect drive w =
            (logged w Drive.Now None, Err "Invalid authentication credentials"))
    as Ha.
  { rewrite autoConnect_runs, Hc. simpl. by apply connect_refused. }
  assert ((w', r) = (w, Err "Invalid authentication credentials") \/
          (w', r) = (logged w Drive.Now None,
                     Err "Invalid authentication credentials")) as Hcases.
  { rewrite <- Hrun. destruct o; cbn [run];
      try (right; apply after_failed_autoConnect; exact Ha).
    - left. unfold fmap, bind. by rewrite connect_refused.
    - by destruct (Hres path). }
  destruct Hcases as [[= -> ->]|[= -> ->]]; split_and!; auto.
Qed.

(** X11.  When [connect] throws after the credentials were accepted, because the
    root folder could not be fetched or came without id or name, the
    instance is left connected, with the time of this attempt as
    [lastConnect], and with the root it had. *)
Theorem failed_connect_stays_connected w w' e :
  (falsy (email (options w)) || falsy (privateKey (options w))) = false ->
  connect drive w = (w', Err e) ->
  connected w' = true /\
  lastConnect w' = Some (Drive.now drive (trace w)) /\
  rootNode w' = rootNode w /\ heap w' = heap w /\
  exists cause, e = "Failed to connect to Google Drive: " +:+ cause.
Proof.
  intros Hcred. unfold connect. unfold_m. rewrite Hcred. simpl.
  destruct (Drive.files_get drive _ _) as [data|m].
  - destruct (falsy (Drive.id data) || falsy (Drive.name data)); [|done].
    intros [= <- <-]. split_and!; eauto.
  - intros [= <- <-]. split_and!; eauto.
Qed.

(** X12.  On an instance that is connected and has no root, within three hours
    of [lastConnect], every operation throws its own message followed by
    'Root node not initialized. Please connect first.': it neither
    reconnects nor sends a request. *)
Theorem operation_without_root o front b w t :
  body drive stack o = Some (front, b) ->
  connected w = true -> rootNode w = None -> lastConnect w = Some t ->
  Drive.now drive (trace w) - t <= 10800000 ->
  run drive stack o w =
    (logged w Drive.Now None,
     Err (front +:+ "Root node not initialized. Please connect first.")).
Proof.
  intros Hb Hc Hr Hl Hnow.
  assert (autoConnect drive w = (logged w Drive.Now None, Ok tt)) as Ha.
  { rewrite autoConnect_runs, Hc, Hl. simpl.
    destruct (Z.ltb_spec CONNECTION_TIMEOUT (Drive.now drive (trace w) - t));
      [|done].
    unfold CONNECTION_TIMEOUT in *. lia. }
  assert (forall path, resolvePath drive path (logged w Drive.Now None) =
            (logged w Drive.Now None,
             Err "Root node not initialized. Please connect first.")) as Hres.
  { intros path. by apply resolvePath_no_root. }
  destruct o; try discriminate Hb; injection Hb as <- <-; cbn [run];
    unfold readdir, readdir_body, mkdir, mkdir_body, writeFile, writeFile_body,
      readFile, readFile_body, unlink, unlink_body, rename, rename_body, stat,
      stat_body, search, search_body, copy, copy_body;
    unfold fmap, wrap, try_catch, bind at 1 2; rewrite Ha;
    unfold bind; rewrite Hres; reflexivity.
Qed.

(** X13.  A successful [connect] makes a new node of what the store answers for
    the root folder and installs it as root.  The new root has no
    [children] and no [parent]: whatever was cached before hangs on the old
    root and is no longer looked at. *)
Theorem connect_installs_fresh_root w w' :
  connect drive w = (w', Ok tt) ->
  exists data,
    Drive.files_get drive (trace w ++ [Drive.mkEvent Drive.Now None])
                    (root (options w)) = Ok data /\
    Path.truthy (Drive.id data) = true /\ Path.truthy (Drive.name data) = true /\
    heap w' = heap w ++ [node_of_file data] /\
    rootNode w' = Some (List.length (heap w)) /\
    Node.get (heap w') (List.length (heap w)) = node_of_file data /\
    (forall part, find_child (heap w') (List.length (heap w)) part = None) /\
    connected w' = true /\
    lastConnect w' = Some (Drive.now drive (trace w)).
Proof.
  intros H. destruct (connect_fresh _ _ H) as (data & Hh & Hr & Hd & F & Hc & Hl).
  exists data. apply orb_false_elim in F as [F1 F2]. unfold falsy in F1, F2.
  apply negb_false_iff in F1, F2.
  assert (Node.get (heap w') (List.length (heap w)) = node_of_file data) as Hget.
  { rewrite Hh. apply get_app_new. }
  split_and!; try done.
  intros part. unfold find_child. by rewrite Hget.
Qed.

(** X14.  A connection is good for three hours.  Up to then an operation only
    reads the clock before its own work; after that it connects again
    first, and a reconnection that succeeds starts from a new, unpopulated
    root. *)
Theorem connection_expires_after_three_hours w t :
  connected w = true -> lastConnect w = Some t ->
  let now := Drive.now drive (trace w) in
  (now - t <= 10800000 ->
   autoConnect drive w = (logged w Drive.Now None, Ok tt)) /\
  (10800000 < now - t ->
   autoConnect drive w = connect drive (logged w Drive.Now None) /\
   forall w', autoConnect drive w = (w', Ok tt) ->
     rootNode w' = Some (List.length (heap w)) /\
     Node.children (Node.get (heap w') (List.length (heap w))) = None /\
     (forall l, (l < List.length (heap w))%nat ->
        Node.get (heap w') l = Node.get (heap w) l)).
Proof.
  intros Hc Hl now. rewrite autoConnect_runs, Hc, Hl. simpl.
  fold now. unfold CONNECTION_TIMEOUT.
  destruct (Z.ltb_spec (3 * 60 * 60 * 1000) (now - t)); split; try lia; try done.
  intros _. split; [done|]. intros w' H'.
  destruct (connect_fresh _ _ H') as (data & Hh & Hr & Hg).
  simpl in *. rewrite Hh. split_and!; [done|by rewrite get_app_new|].
  intros l Hlt. by rewrite get_app_old.
Qed.

End Connecting.

Lemma missing_credentials_stop_everything_witness :
  let w := init (mkOptions "root" "" "key") in
  exists w',
    run Example.client 0 (OReaddir "/a") w =
      (w', Err "Invalid authentication credentials") /\
    connected w' = false /\ heap w' = heap w.
Proof.
  intros w.
  destruct (run Example.client 0 (OReaddir "/a") w) as [w' r] eqn:Hrun.
  destruct (missing_credentials_stop_everything Example.client 0
              (OReaddir "/a") w w' r) as (-> & _ & Hc & Hh & _).
  - reflexivity.
  - reflexivity.
  - discriminate.
  - exact Hrun.
  - exists w'. split_and!; [reflexivity|exact Hc|exact Hh].
Defined.

Lemma failed_connect_stays_connected_witness :
  let w := init Example.options in
  let w' := (connect Example.unreachable w).1 in
  connect Example.unreachable w =
    (w', Err "Failed to connect to Google Drive: boom") /\
  connected w' = true /\ lastConnect w' = Some 0 /\ rootNode w' = None.
Proof.
  intros w w'.
  assert (connect Example.unreachable w =
            (w', Err "Failed to connect to Google Drive: boom")) as Hrun
    by (vm_compute; reflexivity).
  split; [exact Hrun|].
  destruct (failed_connect_stays_connected Example.unreachable w w' _
              ltac:(reflexivity) Hrun) as (Hc & Hl & Hr & _).
  split_and!; [exact Hc|exact Hl|exact Hr].
Defined.

Lemma operation_without_root_witness :
  let w := (connect Example.unreachable (init Example.options)).1 in
  exists w',
    run Example.unreachable 0 (OMkdir "/b") w =
      (w', Err "Failed to create directory: Root node not initialized. Please connect first.").
Proof.
  intros w. eexists.
  apply (operation_without_root Example.unreachable 0 (OMkdir "/b")
           "Failed to create directory: "
           (fmap VNode (mkdir_body Example.unreachable "/b")) w 0).
  - reflexivity.
  - reflexivity.
  - reflexivity.
  - reflexivity.
  - vm_compute. discriminate.
Defined.

Lemma connect_installs_fresh_root_witness :
  let w := exec Example.client 0 [OConnect; OReaddir "/"] (init Example.options) in
  let w' := (connect Example.client w).1 in
  connect Example.client w = (w', Ok tt) /\
  rootNode w = Some 0%nat /\ Node.children (Node.get (heap w) 0) = Some [1; 2]%nat /\
  rootNode w' = Some 3%nat /\ forall part, find_child (heap w') 3 part = None.
Proof.
  intros w w'.
  assert (connect Example.client w = (w', Ok tt)) as Hrun
    by (vm_compute; reflexivity).
  split; [exact Hrun|]. do 2 (split; [vm_compute; reflexivity|]).
  destruct (connect_installs_fresh_root Example.client w w' Hrun)
    as (data & _ & _ & _ & _ & Hr & _ & Hf & _).
  split; [exact Hr|exact Hf].
Defined.

Lemma connection_expires_after_three_hours_witness :
  let slow := Drive.mkClient
                (fun tr => 20000000 * Z.of_nat (List.length tr))
                (Drive.files_get Example.client)
                (Drive.files_get_media Example.client)
                (Drive.files_list Example.client)
                (Drive.files_create Example.client)
                (Drive.files_update Example.client)
                (Drive.files_delete Example.client)
                (Drive.files_copy Example.client) in
  let w := Example.connected in
  let v := (connect slow (init Example.options)).1 in
  autoConnect Example.client w = (logged w Drive.Now None, Ok tt) /\
  autoConnect slow v = connect slow (logged v Drive.Now None) /\
  rootNode v = Some 0%nat /\ rootNode (autoConnect slow v).1 = Some 1%nat.
Proof.
  intros slow w v.
  destruct (connection_expires_after_three_hours Example.client w 0
              ltac:(reflexivity) ltac:(reflexivity)) as [Hin _].
  destruct (connection_expires_after_three_hours slow v 0
              ltac:(reflexivity) ltac:(reflexivity)) as [_ Hout].
  split; [apply Hin; vm_compute; discriminate|].
  destruct Hout as [Ha _]; [vm_compute; reflexivity|].
  split; [exact Ha|]. split; vm_compute; reflexivity.
Defined.

(** ** What was just made can be resolved *)

Section Attach.

Variable drive : Drive.Client.

Implicit Types (w : World) (h : Node.heap) (l c p : loc).

Lemma cache_walk_grow h h' parts : forall cur l,
  closed h -> grow h h' -> (cur < List.length h)%nat ->
  cache_walk h parts cur = Some l -> cache_walk h' parts cur = Some l.
Proof.
  induction parts as [|part rest IH]; intros cur l Hc Hg Hcur H; [done|].
  simpl in *. destruct (Node.isDirectory (Node.get h cur)) eqn:Hd; [|done].
  rewrite (grow_directory _ _ _ Hg Hd).
  destruct (find_child h cur part) as [c|] eqn:Hfind; [|done]. simpl in H.
  rewrite (find_child_grow _ _ _ _ _ Hc Hg Hcur Hfind). simpl.
  apply IH; [done..| |done]. apply find_name_elem in Hfind.
  destruct (Hc cur Hcur) as [Hk _]. by eapply Forall_forall in Hk.
Qed.

(** A node made for [path] and attached to the node its parent path
    resolved to: [path] resolves to it from the cache, when it bears the
    last piece of [path] as its name and no other child does. *)
Lemma attach_then_resolve path w0 w1 w' p p' n :
  exact_names drive -> wf w0 ->
  resolvePath drive (Path.parentPath path) w0 = (w1, Ok p) ->
  let l := List.length (heap w1) in
  heap w' = Node.addChild (heap w1 ++ [n]) p l ->
  rootNode w' = rootNode w1 ->
  Node.parent n = None ->
  Path.truthy (Path.leaf path) = true ->
  Node.parent (Node.get (heap w') l) = Some p' ->
  Node.name (Node.get (heap w') l) = Path.leaf path ->
  (forall c, c ∈ Node.kids (Node.get (heap w') p') -> c <> l ->
     Node.name (Node.get (heap w') c) <> Path.leaf path) ->
  resolvePath drive path w' = (w', Ok l).
Proof.
  intros Hex [Hok0 Hroot0] Hres l Hheap Hroot Hn Hleaf Hparent Hname Hothers.
  destruct (resolvePath_ok_root _ _ _ _ _ Hres) as [r Hr].
  rewrite (resolvePath_walk _ _ _ _ Hr) in Hres.
  pose proof (walk_spec _ _ _ _ _ _ _ Hres Hok0 (Hroot0 r Hr))
    as (Hok1 & [Hlen0 _] & Hp & (_ & _ & Hr1 & _) & _).
  specialize (Hp p eq_refl). rewrite Hr in Hr1.
  assert (r < List.length (heap w1))%nat as Hrl by (specialize (Hroot0 r Hr); lia).
  pose proof (walk_again _ _ _ _ _ _ _ Hex Hres Hok0 (Hroot0 r Hr)) as Hagain.
  pose proof (walk_fixed_cache _ _ _ _ _ _ Hagain Hok1 Hrl) as Hcache.
  assert (l < List.length (heap w1 ++ [n]))%nat as Hl.
  { rewrite length_app. simpl. unfold l. lia. }
  assert (grow (heap w1) (heap w')) as Hg.
  { rewrite Hheap. eapply grow_trans; [apply grow_alloc|].
    by apply grow_addChild. }
  apply (cache_walk_grow _ _ _ _ _ (proj1 Hok1) Hg Hrl) in Hcache.
  (* the parent is a folder, and the node is the last of its children *)
  assert (Node.get (heap w1 ++ [n]) l = n) as Hnew by apply get_app_new.
  assert (Node.isDirectory (Node.get (heap w1 ++ [n]) p) = true /\ p' = p)
    as [Hd ->].
  { rewrite Hheap, get_addChild in Hparent by done.
    destruct (Node.isDirectory (Node.get (heap w1 ++ [n]) p)).
    - simpl in Hparent. rewrite decide_True in Hparent by done.
      simpl in Hparent. by injection Hparent as <-.
    - rewrite Hnew in Hparent. congruence. }
  assert (p <> l) as Hpl by (unfold l; lia).
  assert (Node.kids (Node.get (heap w') p) =
          Node.kids (Node.get (heap w1 ++ [n]) p) ++ [l]) as Hkids.
  { rewrite Hheap, get_addChild, Hd by done. simpl.
    by repeat case_decide. }
  assert (Node.isDirectory (Node.get (heap w') p) = true) as Hd'.
  { apply (grow_directory (heap w1)); [done|].
    by rewrite get_app_old in Hd by done. }
  assert (rootNode w' = Some r) as Hr' by congruence.
  rewrite (resolvePath_walk _ _ _ _ Hr'), (parts_leaf _ Hleaf), walk_app.
  rewrite (cache_walk_walk _ _ _ _ _ _ Hcache), walk_cons. simpl.
  rewrite Hd'. simpl. unfold find_child.
  rewrite (find_name_only _ _ _ l); [done| |done|done].
  rewrite Hkids. apply elem_of_app. right. constructor.
Qed.

Lemma mkdir_steps path w w' l :
  wf w -> mkdir drive path w = (w', Ok l) ->
  exists w0 w1 p n,
    wf w0 /\
    resolvePath drive (Path.parentPath path) w0 = (w1, Ok p) /\
    l = List.length (heap w1) /\ Node.parent n = None /\
    heap w' = Node.addChild (heap w1 ++ [n]) p l /\
    rootNode w' = rootNode w1.
Proof.
  intros Hwf H. unfold mkdir, mkdir_body in H.
  unfold wrap, bind, try_catch, throw in H.
  destruct (autoConnect drive w) as [w0 [[]|e]] eqn:Ha; [|done].
  apply autoConnect_wf in Ha as Hwf0; [|done].
  destruct (resolvePath drive _ w0) as [w1 [p|e]] eqn:Hres; [|done].
  unfold read, gets, request, update_heap, modify, ret, new_node, Node.alloc in H.
  cbn [heap set_heap trace set_trace] in H.
  destruct (Drive.files_create drive _ _ _ _ _) as [res|m]; [|done].
  injection H as <- <-. eexists w0, w1, p, _.
  cbn [heap set_heap rootNode]. split_and!; try done; reflexivity.
Qed.

Lemma copy_steps src dst w w' l :
  wf w -> copy drive src dst w = (w', Ok l) ->
  exists w1 w2 p n,
    wf w1 /\
    resolvePath drive (Path.parentPath dst) w1 = (w2, Ok p) /\
    l = List.length (heap w2) /\ Node.parent n = None /\
    heap w' = Node.addChild (heap w2 ++ [n]) p l /\
    rootNode w' = rootNode w2.
Proof.
  intros Hwf H. unfold copy, copy_body in H.
  unfold wrap, bind, try_catch, throw in H.
  destruct (autoConnect drive w) as [w0 [[]|e]] eqn:Ha; [|done].
  apply autoConnect_wf in Ha as Hwf0; [|done].
  destruct (resolvePath drive src w0) as [w1 [s|e]] eqn:Hsrc; [|done].
  apply resolvePath_spec in Hsrc as Hspec; [|done].
  destruct Hspec as (Hwf1 & _).
  destruct (resolvePath drive _ w1) as [w2 [p|e]] eqn:Hres; [|done].
  unfold read, gets, request, update_heap, modify, ret, new_node, Node.alloc in H.
  cbn [heap set_heap trace set_trace] in H.
  destruct (Drive.files_copy drive _ _ _ _) as [res|m]; [|done].
  injection H as <- <-. eexists w1, w2, p, _.
  cbn [heap set_heap rootNode]. split_and!; try done; reflexivity.
Qed.

(** X15.  [mkdir(path)], then [path]: when the last piece of [path] is not
    empty, the parent path led to a folder, so that the new node has a
    [parent], the store gave the new folder the name that was asked for,
    and no other cached child of the parent bears it, [path] resolves to
    the node [mkdir] returned, and no request is sent. *)
Theorem mkdir_then_resolve path w w' l p :
  exact_names drive -> wf w ->
  mkdir drive path w = (w', Ok l) ->
  Path.truthy (Path.leaf path) = true ->
  Node.parent (Node.get (heap w') l) = Some p ->
  Node.name (Node.get (heap w') l) = Path.leaf path ->
  (forall c, c ∈ Node.kids (Node.get (heap w') p) -> c <> l ->
     Node.name (Node.get (heap w') c) <> Path.leaf path) ->
  resolvePath drive path w' = (w', Ok l).
Proof.
  intros Hex Hwf H Hleaf Hp Hname Hothers.
  destruct (mkdir_steps _ _ _ _ Hwf H)
    as (w0 & w1 & q & n & Hwf0 & Hres & -> & Hn & Hheap & Hroot).
  by eapply attach_then_resolve.
Qed.

(** X16.  [copy(source, destination)], then [destination]: under the same
    conditions, [destination] resolves to the node [copy] returned, and no
    request is sent. *)
Theorem copy_then_resolve src dst w w' l p :
  exact_names drive -> wf w ->
  copy drive src dst w = (w', Ok l) ->
  Path.truthy (Path.leaf dst) = true ->
  Node.parent (Node.get (heap w') l) = Some p ->
  Node.name (Node.get (heap w') l) = Path.leaf dst ->
  (forall c, c ∈ Node.kids (Node.get (heap w') p) -> c <> l ->
     Node.name (Node.get (heap w') c) <> Path.leaf dst) ->
  resolvePath drive dst w' = (w', Ok l).
Proof.
  intros Hex Hwf H Hleaf Hp Hname Hothers.
  destruct (copy_steps _ _ _ _ _ Hwf H)
    as (w1 & w2 & q & n & Hwf1 & Hres & -> & Hn & Hheap & Hroot).
  by eapply attach_then_resolve.
Qed.

End Attach.

Lemma mkdir_then_resolve_witness :
  let w := exec Example.client 0 [OConnect; OReaddir "/a"] (init Example.options) in
  let w' := (mkdir Example.client "/a/b" w).1 in
  mkdir Example.client "/a/b" w = (w', Ok 4%nat) /\
  Node.kids (Node.get (heap w') 1) = [2; 3; 4]%nat /\
  resolvePath Example.client "/a/b" w' = (w', Ok 4%nat).
Proof.
  intros w w'.
  assert (mkdir Example.client "/a/b" w = (w', Ok 4%nat)) as Hrun
    by (vm_compute; reflexivity).
  assert (Node.kids (Node.get (heap w') 1) = [2; 3; 4]%nat) as Hkids
    by (vm_compute; reflexivity).
  split; [exact Hrun|]. split; [exact Hkids|].
  apply (mkdir_then_resolve Example.client "/a/b" w w' 4%nat 1%nat
           example_exact_names
           (exec_wf Example.client 0 _ _ (wf_init Example.options)) Hrun).
  - vm_compute; reflexivity.
  - vm_compute; reflexivity.
  - vm_compute; reflexivity.
  - intros c Hc Hne. rewrite Hkids in Hc.
    apply elem_of_cons in Hc as [->|Hc]; [vm_compute; discriminate|].
    apply elem_of_cons in Hc as [->|Hc]; [vm_compute; discriminate|].
    apply elem_of_cons in Hc as [->|Hc]; [exfalso; apply Hne; reflexivity|].
    exfalso. revert Hc. apply not_elem_of_nil.
Defined.

Lemma copy_then_resolve_witness :
  let w := exec Example.client 0 [OConnect; OReaddir "/a"] (init Example.options) in
  let w' := (copy Example.client "/f.txt" "/a/g" w).1 in
  copy Example.client "/f.txt" "/a/g" w = (w', Ok 5%nat) /\
  Node.kids (Node.get (heap w') 1) = [2; 3; 5]%nat /\
  resolvePath Example.client "/a/g" w' = (w', Ok 5%nat).
Proof.
  intros w w'.
  assert (copy Example.client "/f.txt" "/a/g" w = (w', Ok 5%nat)) as Hrun
    by (vm_compute; reflexivity).
  assert (Node.kids (Node.get (heap w') 1) = [2; 3; 5]%nat) as Hkids
    by (vm_compute; reflexivity).
  split; [exact Hrun|]. split; [exact Hkids|].
  apply (copy_then_resolve Example.client "/f.txt" "/a/g" w w' 5%nat 1%nat
           example_exact_names
           (exec_wf Example.client 0 _ _ (wf_init Example.options)) Hrun).
  - vm_compute; reflexivity.
  - vm_compute; reflexivity.
  - vm_compute; reflexivity.
  - intros c Hc Hne. rewrite Hkids in Hc.
    apply elem_of_cons in Hc as [->|Hc]; [vm_compute; discriminate|].
    apply elem_of_cons in Hc as [->|Hc]; [vm_compute; discriminate|].
    apply elem_of_cons in Hc as [->|Hc]; [exfalso; apply Hne; reflexivity|].
    exfalso. revert Hc. apply not_elem_of_nil.
Defined.

(** ** [unlink] *)

Section Unlink.

Variable drive : Drive.Client.

Implicit Types (w : World) (h : Node.heap) (l c p n : loc).

(** X17.  After an [unlink] that succeeded: the store was asked to delete the id
    of the node the path resolved to; the first cached child of the node's
    [parent] that bears this id is taken out of its [children], and the
    cache is left as it was when there is none or when the node has no
    [parent], as the root has.  Every other object is untouched, every
    object keeps its [parent], the node itself included, and the root of
    the instance stays. *)
Theorem unlink_detaches path w w0 w1 w' n :
  autoConnect drive w = (w0, Ok tt) ->
  resolvePath drive path w0 = (w1, Ok n) ->
  unlink drive path w = (w', Ok tt) ->
  let i := Node.id (Node.get (heap w1) n) in
  rootNode w' = rootNode w1 /\
  trace w' = trace w1 ++ [Drive.mkEvent (Drive.FilesDelete i) None] /\
  (forall l, Node.parent (Node.get (heap w') l) =
             Node.parent (Node.get (heap w1) l)) /\
  (forall l, Some l <> Node.parent (Node.get (heap w1) n) ->
             Node.get (heap w') l = Node.get (heap w1) l) /\
  (forall p, Node.parent (Node.get (heap w1) n) = Some p ->
     let cs := Node.kids (Node.get (heap w1) p) in
     (Forall (fun c => Node.id (Node.get (heap w1) c) <> i) cs ->
      heap w' = heap w1) /\
     (forall before c after,
        cs = before ++ c :: after ->
        Node.id (Node.get (heap w1) c) = i ->
        Forall (fun x => Node.id (Node.get (heap w1) x) <> i) before ->
        Node.children (Node.get (heap w') p) = Some (before ++ after))).
Proof.
  intros Ha Hres H i. unfold unlink, unlink_body in H.
  unfold wrap, try_catch, throw, bind at 1 in H. rewrite Ha in H.
  unfold bind at 1 in H. rewrite Hres in H.
  unfold detach, read, gets, request, update_heap, modify, ret, bind in H.
  cbn [heap set_heap trace set_trace] in H. fold i in H.
  destruct (Drive.files_delete drive (trace w1) i) as [[]|m]; [|done].
  destruct (Node.parent (Node.get (heap w1) n)) as [p|] eqn:Hp;
    injection H as <-; cbn [heap set_heap trace set_trace rootNode];
    split_and!; try done.
  - intros l. by destruct (get_removeChild (heap w1) p i l) as (_ & _ & _ & ->).
  - intros l Hl. unfold Node.removeChild.
    destruct (Node.children _); [|done].
    destruct (Node.findIndex_id _ _ _); [|done]. simpl.
    apply get_insert_ne. congruence.
  - intros q [= <-]. split.
    + intros Hnone. by rewrite removeChild_none.
    + intros before c after Hcs Hc Hb.
      rewrite (removeChild_cut _ _ _ _ _ _ Hcs Hc Hb). simpl.
      rewrite get_insert_eq; [done|].
      destruct (decide (p < List.length (heap w1))%nat) as [|Hge]; [done|].
      rewrite get_dangling in Hcs by lia. by destruct before.
Qed.

End Unlink.

Lemma unlink_detaches_witness :
  let w := exec Example.client 0 [OConnect; OReaddir "/a"] (init Example.options) in
  let w' := (unlink Example.client "/a/x" w).1 in
  unlink Example.client "/a/x" w = (w', Ok tt) /\
  Node.children (Node.get (heap w) 1) = Some [2; 3]%nat /\
  Node.children (Node.get (heap w') 1) = Some [3]%nat /\
  Node.parent (Node.get (heap w') 2) = Some 1%nat.
Proof.
  intros w w'.
  assert (unlink Example.client "/a/x" w = (w', Ok tt)) as Hrun
    by (vm_compute; reflexivity).
  split; [exact Hrun|]. split; [vm_compute; reflexivity|].
  destruct (unlink_detaches Example.client "/a/x" w
              (autoConnect Example.client w).1
              (resolvePath Example.client "/a/x" (autoConnect Example.client w).1).1
              w' 2%nat)
    as (_ & _ & Hpar & _ & Hkids).
  - vm_compute; reflexivity.
  - vm_compute; reflexivity.
  - exact Hrun.
  - split.
    + destruct (Hkids 1%nat) as [_ Hcut]; [vm_compute; reflexivity|].
      apply (Hcut [] 2%nat [3%nat]); [vm_compute; reflexivity..|constructor].
    + rewrite Hpar. vm_compute; reflexivity.
Defined.

(** ** An operation that throws *)

Section Careful.

Lemma grows_quiet {A} (m : M A) :
  (forall w w' r, m w = (w', r) -> heap w' = heap w /\ rootNode w' = rootNode w) ->
  grows m.
Proof.
  intros H w w' r E [Hok Hroot]. destruct (H _ _ _ E) as [Hh Hr].
  rewrite Hh. split_and!; [|apply grow_refl|done].
  split; rewrite ?Hh, ?Hr; done.
Qed.

Lemma grows_ret {A} (a : A) : grows (ret a).
Proof. apply grows_quiet. by intros w w' r [= <- <-]. Qed.

Lemma grows_throw {A} e : grows (@throw A e).
Proof. apply grows_quiet. by intros w w' r [= <- <-]. Qed.

Lemma grows_gets {A} (g : World -> A) : grows (gets g).
Proof. apply grows_quiet. by intros w w' r [= <- <-]. Qed.

Lemma grows_request {A} (call : Drive.Call)
      (reply : list Drive.Event -> result A) : grows (request call reply).
Proof. apply grows_quiet. by intros w w' r [= <- <-]. Qed.

Lemma grows_bind {A B} (m : M A) (k : A -> M B) :
  grows m -> (forall a, grows (k a)) -> grows (bind m k).
Proof.
  intros Hm Hk w w' r H Hwf. unfold bind in H.
  destruct (m w) as [w1 [a|e]] eqn:E.
  - destruct (Hm _ _ _ E Hwf) as (Hwf1 & Hg1 & Hr1).
    destruct (Hk a _ _ _ H Hwf1) as (Hwf' & Hg' & Hr'). split_and!; [done| |congruence].
    by eapply grow_trans.
  - injection H as <- <-. by apply (Hm _ _ _ E).
Qed.

Lemma grows_wrap {A} front (m : M A) : grows m -> grows (wrap front m).
Proof.
  intros Hm w w' r H. unfold wrap, try_catch, throw in H.
  destruct (m w) as [w1 [a|e]] eqn:E; injection H as <- <-; by apply (Hm _ _ _ E).
Qed.

Lemma unfailing_ret {A} (a : A) : unfailing (ret a).
Proof. intros w. by eexists _, _. Qed.

Lemma unfailing_gets {A} (g : World -> A) : unfailing (gets g).
Proof. intros w. by eexists _, _. Qed.

Lemma unfailing_modify g : unfailing (modify g).
Proof. intros w. by eexists _, _. Qed.

Lemma unfailing_new_node n : unfailing (new_node n).
Proof. intros w. by eexists _, _. Qed.

Lemma unfailing_bind {A B} (m : M A) (k : A -> M B) :
  unfailing m -> (forall a, unfailing (k a)) -> unfailing (bind m k).
Proof.
  intros Hm Hk w. destruct (Hm w) as (w1 & a & E).
  destruct (Hk a w1) as (w2 & b & E'). exists w2, b. unfold bind. by rewrite E.
Qed.

Lemma careful_unfailing {A} (m : M A) : unfailing m -> careful m.
Proof. intros Hm w w' e H. destruct (Hm w) as (w1 & a & E). congruence. Qed.

Lemma careful_grows {A} (m : M A) : grows m -> careful m.
Proof. intros Hm w w' e H Hwf. by destruct (Hm _ _ _ H Hwf) as (_ & ? & ?). Qed.

Lemma careful_bind {A B} (m : M A) (k : A -> M B) :
  grows m -> (forall a, careful (k a)) -> careful (bind m k).
Proof.
  intros Hm Hk w w' e H Hwf. unfold bind in H.
  destruct (m w) as [w1 [a|e1]] eqn:E.
  - destruct (Hm _ _ _ E Hwf) as (Hwf1 & Hg1 & Hr1).
    destruct (Hk a _ _ _ H Hwf1) as [Hg' Hr']. split; [|congruence].
    by eapply grow_trans.
  - injection H as <- <-. by destruct (Hm _ _ _ E Hwf) as (_ & ? & ?).
Qed.

Lemma careful_wrap {A} front (m : M A) : careful m -> careful (wrap front m).
Proof.
  intros Hm w w' e H. unfold wrap, try_catch, throw in H.
  destruct (m w) as [w1 [a|e1]] eqn:E; [done|]. injection H as <- <-.
  by apply (Hm _ _ _ E).
Qed.

Lemma careful_fmap {A B} (g : A -> B) (m : M A) : careful m -> careful (fmap g m).
Proof.
  intros Hm w w' e H. unfold fmap, bind, ret in H.
  destruct (m w) as [w1 [a|e1]] eqn:E; [done|]. injection H as <- <-.
  by apply (Hm _ _ _ E).
Qed.

End Careful.

Ltac unfailing_step :=
  lazymatch goal with
  | |- unfailing (ret _) => apply unfailing_ret
  | |- unfailing (gets _) => apply unfailing_gets
  | |- unfailing (read _) => apply unfailing_gets
  | |- unfailing (modify _) => apply unfailing_modify
  | |- unfailing (update_heap _) => apply unfailing_modify
  | |- unfailing (new_node _) => apply unfailing_new_node
  | |- unfailing (bind _ _) => apply unfailing_bind; [|intros ?]
  | |- unfailing (match ?x with _ => _ end) => destruct x
  end.

Section CarefulOperations.

Variable drive : Drive.Client.
Variable stack : nat.

(** What [connect] does to the cache and to the root: it only adds to the
    cache; the root stays when it throws, and is a new object when it
    returns. *)
Lemma connect_effect w w' r :
  connect drive w = (w', r) ->
  grow (heap w) (heap w') /\
  match r with
  | Ok _ => rootNode w' = Some (List.length (heap w))
  | Err _ => rootNode w' = rootNode w
  end.
Proof.
  unfold connect. unfold_m.
  destruct (falsy _ || falsy _); [intros [= <- <-]; split; [apply grow_refl|done]|].
  simpl.
  destruct (Drive.files_get drive _ _) as [data|m];
    [|intros [= <- <-]; split; [apply grow_refl|done]].
  destruct (falsy (Drive.id data) || falsy (Drive.name data));
    intros [= <- <-]; (split; [first [apply grow_refl|apply grow_alloc]|done]).
Qed.

(** What [autoConnect] does: nothing but a reading of the clock on a
    connected instance within three hours of [lastConnect], and what
    [connect] does otherwise. *)
Lemma autoConnect_effect w w' r :
  autoConnect drive w = (w', r) ->
  grow (heap w) (heap w') /\
  match r with
  | Ok _ => rootNode w' = rootNode w \/ rootNode w' = Some (List.length (heap w))
  | Err _ => rootNode w' = rootNode w
  end /\
  (connected w = true ->
   (forall t, lastConnect w = Some t ->
              Drive.now drive (trace w) - t <= 10800000) ->
   rootNode w' = rootNode w).
Proof.
  intros H. rewrite autoConnect_runs in H.
  destruct (negb (connected w) || _) eqn:Hdue.
  - apply connect_effect in H as [Hg Hr]. cbn [heap logged set_trace] in *.
    split_and!; [done| |].
    + destruct r; [by right|done].
    + intros Hc Hlast. rewrite Hc in Hdue. simpl in Hdue.
      destruct (lastConnect w) as [t|]; [|done].
      specialize (Hlast t eq_refl). apply Z.ltb_lt in Hdue.
      unfold CONNECTION_TIMEOUT in Hdue. lia.
  - injection H as <- <-. split_and!; [apply grow_refl|by left|done].
Qed.

Lemma grows_resolvePath path : grows (resolvePath drive path).
Proof.
  intros w w' r H Hwf.
  by destruct (resolvePath_spec _ _ _ _ _ H Hwf) as (? & ? & _ & (_ & _ & ? & _) & _).
Qed.

Lemma grows_findFileInFolder folderId fileName :
  grows (findFileInFolder drive folderId fileName).
Proof.
  unfold findFileInFolder. apply grows_wrap.
  apply grows_bind; [apply grows_request|]. intros files. apply grows_ret.
Qed.

Lemma unfailing_detach node : unfailing (detach node).
Proof. unfold detach. repeat unfailing_step. Qed.

Lemma unfailing_readdir_map node files : unfailing (readdir_map node files).
Proof.
  induction files as [|file rest IH]; cbn [readdir_map];
    repeat first [apply IH | unfailing_step].
Qed.

Lemma unfailing_search_map files : unfailing (search_map files).
Proof.
  induction files as [|file rest IH]; cbn [search_map];
    repeat first [apply IH | unfailing_step].
Qed.

End CarefulOperations.

Ltac grows_step :=
  lazymatch goal with
  | |- grows (resolvePath _ _) => apply grows_resolvePath
  | |- grows (findFileInFolder _ _ _) => apply grows_findFileInFolder
  | |- grows (request _ _) => apply grows_request
  | |- grows (gets _) => apply grows_gets
  | |- grows (read _) => apply grows_gets
  end.

Ltac settle :=
  apply careful_unfailing;
  repeat first [ apply unfailing_detach | apply unfailing_readdir_map
               | apply unfailing_search_map | unfailing_step ].

Ltac careful_step :=
  lazymatch goal with
  | |- careful (throw _) => apply careful_grows, grows_throw
  | |- careful (wrap _ _) => apply careful_wrap
  | |- careful (fmap _ _) => apply careful_fmap
  | |- careful (resolvePath _ _) => apply careful_grows, grows_resolvePath
  | |- careful (request _ _) => apply careful_grows, grows_request
  | |- careful (bind (new_node _) _) => settle
  | |- careful (bind (update_heap _) _) => settle
  | |- careful (bind (readdir_map _ _) _) => settle
  | |- careful (search_map _) => settle
  | |- careful (detach _) => settle
  | |- careful (ret _) => settle
  | |- careful (bind _ _) => apply careful_bind; [grows_step|intros ?]
  | |- careful (if ?b then _ else _) => destruct b
  | |- careful (match ?x with _ => _ end) => destruct x
  end.

Section FailedOperations.

Variable drive : Drive.Client.
Variable stack : nat.

(** The [try] block of an operation, with the message put in front of its
    failures. *)
Lemma careful_body o front b :
  body drive stack o = Some (front, b) -> careful (wrap front b).
Proof.
  destruct o; intros [= <- <-];
    unfold readdir_body, mkdir_body, writeFile_body, readFile_body,
      unlink_body, rename_body, stat_body, search_body, copy_body;
    repeat careful_step.
Qed.

(** X18.  An operation that throws has removed, replaced and renamed
    nothing in the cache: every object is kept, with its id, its name and
    its type, and every [children] array still starts with the children
    it had.  The root of the instance is the root it was, or a new object
    when the operation connected again before it threw.  On a connected
    instance within three hours of [lastConnect] the root is the root it
    was, and every path that was found in the cache is still found
    there, at the same node. *)
Theorem failed_operation_keeps_cache o w w' e :
  wf w -> run drive stack o w = (w', Err e) ->
  grow (heap w) (heap w') /\ wf w' /\
  (rootNode w' = rootNode w \/ rootNode w' = Some (List.length (heap w))) /\
  (connected w = true ->
   (forall t, lastConnect w = Some t ->
              Drive.now drive (trace w) - t <= 10800000) ->
   rootNode w' = rootNode w /\
   forall root parts l,
     rootNode w = Some root ->
     cache_walk (heap w) parts root = Some l ->
     cache_walk (heap w') parts root = Some l).
Proof.
  intros Hwf H.
  assert (wf w') as Hwf'.
  { pose proof (run_wf drive stack o w Hwf) as H'. by rewrite H in H'. }
  assert (grow (heap w) (heap w') /\
          (rootNode w' = rootNode w \/ rootNode w' = Some (List.length (heap w))) /\
          (connected w = true ->
           (forall t, lastConnect w = Some t ->
                      Drive.now drive (trace w) - t <= 10800000) ->
           rootNode w' = rootNode w)) as (Hg & Hr & Hsame).
  { destruct (body drive stack o) as [[front b]|] eqn:Hb.
    - rewrite (run_body _ _ _ _ _ _ Hb) in H. unfold bind in H.
      destruct (autoConnect drive w) as [w0 [[]|e0]] eqn:Ha.
      + destruct (autoConnect_effect _ _ _ _ Ha) as (Hg0 & Hr0 & Hs0).
        apply autoConnect_wf in Ha as Hwf0; [|done].
        destruct (careful_body _ _ _ Hb _ _ _ H Hwf0) as [Hg1 Hr1].
        split_and!.
        * by eapply grow_trans.
        * rewrite Hr1. exact Hr0.
        * intros Hc Hl. rewrite Hr1. by apply Hs0.
      + injection H as <- <-.
        destruct (autoConnect_effect _ _ _ _ Ha) as (Hg0 & Hr0 & Hs0).
        split_and!; [done|by left|done].
    - destruct o; try discriminate Hb; cbn [run] in H;
        unfold fmap, bind, ret in H.
      + destruct (connect drive w) as [w1 [[]|e1]] eqn:Hc; [done|].
        injection H as <- <-. apply connect_effect in Hc as [Hg0 Hr0].
        split_and!; [done|by left|done].
      + destruct (resolvePath drive path w) as [w1 [l|e1]] eqn:Hres; [done|].
        injection H as <- <-.
        destruct (grows_resolvePath _ _ _ _ _ Hres Hwf) as (_ & Hg0 & Hr0).
        split_and!; [done|by left|done]. }
  split_and!; try done.
  intros Hc Hl. split; [by apply Hsame|].
  intros root parts l Hroot. apply cache_walk_grow; [apply Hwf|done|].
  by apply Hwf.
Qed.

End FailedOperations.

Lemma failed_operation_keeps_cache_witness :
  let w := exec Example.client 0 [OConnect; OReaddir "/a"] (init Example.options) in
  let w' := (run Example.failing 0 (OWriteFile "/a/x" "new") w).1 in
  run Example.failing 0 (OWriteFile "/a/x" "new") w =
    (w', Err "Failed to write file: Failed to search for file: boom") /\
  grow (heap w) (heap w') /\
  rootNode w' = rootNode w /\
  cache_walk (heap w) ["a"; "x"] 0 = Some 2%nat /\
  cache_walk (heap w') ["a"; "x"] 0 = Some 2%nat.
Proof.
  intros w w'.
  assert (run Example.failing 0 (OWriteFile "/a/x" "new") w =
            (w', Err "Failed to write file: Failed to search for file: boom"))
    as Hrun by (vm_compute; reflexivity).
  assert (cache_walk (heap w) ["a"; "x"] 0 = Some 2%nat) as Hcache
    by (vm_compute; reflexivity).
  split; [exact Hrun|].
  destruct (failed_operation_keeps_cache Example.failing 0
              (OWriteFile "/a/x" "new") w w' _
              (exec_wf Example.client 0 _ _ (wf_init Example.options)) Hrun)
    as (Hg & _ & _ & Hsame).
  split; [exact Hg|].
  destruct Hsame as [Hroot Hwalk].
  - vm_compute; reflexivity.
  - intros t Ht. vm_compute in Ht. injection Ht as <-. vm_compute. discriminate.
  - split; [exact Hroot|]. split; [exact Hcache|].
    apply (Hwalk 0%nat); [vm_compute; reflexivity|exact Hcache].
Defined.

(** When the operation had to connect again before it threw, the root is a
    new object: what was cached hangs on the old root, and nothing is
    found from the new one.  Here three hours pass between two calls, and
    the listing that [readdir] asks for fails. *)
Lemma failed_operation_may_replace_root :
  let late := Drive.mkClient
                (fun tr => 20000000 * Z.of_nat (List.length tr))
                (Drive.files_get Example.client)
                (Drive.files_get_media Example.client)
                (fun tr q => if (4 <? List.length tr)%nat then Err "boom"
                             else Drive.files_list Example.client tr q)
                (Drive.files_create Example.client)
                (Drive.files_update Example.client)
                (Drive.files_delete Example.client)
                (Drive.files_copy Example.client) in
  let w := exec late 0 [OConnect; OResolve "/a/x"] (init Example.options) in
  let failed := run late 0 (OReaddir "/a") w in
  failed.2 = Err "Failed to read directory: boom" /\
  rootNode w = Some 0%nat /\
  cache_walk (heap w) ["a"; "x"] 0 = Some 2%nat /\
  rootNode failed.1 = Some 3%nat /\
  cache_walk (heap failed.1) ["a"; "x"] 3 = None /\
  cache_walk (heap failed.1) ["a"; "x"] 0 = Some 2%nat.
Proof. vm_compute. repeat split. Qed.

(** ** Listing, reading and searching *)

Section Reading.

Variable drive : Drive.Client.

Implicit Types (w : World) (h : Node.heap) (l c node : loc).

(** X19.  After a [readdir] that succeeded, the children of the folder are new
    objects, one for each entry of the listing and in its order, each with
    the folder as [parent] and without [children] of its own.  The
    children that were cached before are not among them, and no other
    object changes: what had been cached below the folder is no longer
    reached from it. *)
Theorem readdir_replaces_children path w w' cs :
  wf w -> readdir drive path w = (w', Ok cs) ->
  exists w1 node files,
    resolvePath drive path (autoConnect drive w).1 = (w1, Ok node) /\
    Drive.files_list drive (trace w1)
      (Drive.QChildren (Node.id (Node.get (heap w1) node))) = Ok files /\
    cs = seq (List.length (heap w1)) (List.length files) /\
    Node.children (Node.get (heap w') node) = Some cs /\
    (forall i f, files !! i = Some f ->
       Node.get (heap w') (List.length (heap w1) + i) =
         Node.set_parent (Some node) (node_of_file f)) /\
    (forall l, (l < List.length (heap w1))%nat -> l <> node ->
       Node.get (heap w') l = Node.get (heap w1) l) /\
    (forall c, c ∈ Node.kids (Node.get (heap w1) node) -> c ∉ cs).
Proof.
  intros Hwf H. unfold readdir, readdir_body in H. unfold_m.
  destruct (autoConnect drive w) as [w0 [[]|e]] eqn:Ha; [|done].
  apply autoConnect_wf in Ha as Hwf0; [|done].
  destruct (resolvePath drive path w0) as [w1 [node|e]] eqn:Hres; [|done].
  apply resolvePath_spec in Hres as Hspec; [|done].
  destruct Hspec as (Hwf1 & _ & Hl & _). specialize (Hl _ eq_refl).
  destruct (Node.isDirectory (Node.get (heap w1) node)) eqn:Hd; [|done].
  simpl in H.
  destruct (Drive.files_list drive (trace w1) _) as [files|m] eqn:Hlist; [|done].
  match type of H with
  | context [readdir_map node files ?w2] =>
      destruct (readdir_map_nodes node files w2 Hd)
        as (w3 & Hrun & Hlen & Htr & Hd3 & Hframe & Hnodes)
  end.
  rewrite Hrun in H. injection H as <- <-.
  cbn [heap set_heap trace set_trace] in *.
  pose proof (directory_allocated _ _ Hd3) as Hn3.
  exists w1, node, files. split_and!; try done.
  - by rewrite get_alter_eq.
  - intros i f Hf. rewrite get_alter_ne by lia. by apply Hnodes.
  - intros l Hlt Hne. rewrite get_alter_ne by done. by apply Hframe.
  - intros c Hc Hin. apply elem_of_seq in Hin as [Hge _].
    destruct (proj1 (proj1 Hwf1) node Hl) as [Hk _].
    eapply Forall_forall in Hk; [|exact Hc]. lia.
Qed.

(** X20.  [readdir] of a file and [readFile] of a folder are refused after the
    path has resolved, without another request. *)
Theorem wrong_kind_is_refused path w w0 w1 node :
  autoConnect drive w = (w0, Ok tt) ->
  resolvePath drive path w0 = (w1, Ok node) ->
  (Node.isFile (Node.get (heap w1) node) = true ->
   readdir drive path w =
     (w1, Err "Failed to read directory: Not a directory")) /\
  (Node.isDirectory (Node.get (heap w1) node) = true ->
   readFile drive path w =
     (w1, Err "Failed to read file: Cannot read a directory as a file")).
Proof.
  intros Ha Hres. split; intros Hk.
  - unfold readdir, readdir_body.
    unfold wrap, try_catch, throw, bind at 1. rewrite Ha.
    unfold bind at 1. rewrite Hres. unfold bind, read, gets.
    unfold Node.isFile in Hk. apply negb_true_iff in Hk. by rewrite Hk.
  - unfold readFile, readFile_body.
    unfold wrap, try_catch, throw, bind at 1. rewrite Ha.
    unfold bind at 1. rewrite Hres. unfold bind, read, gets. by rewrite Hk.
Qed.

(** X21.  [readFile] of a file asks the store for the content of the node's id
    and returns what the store answers. *)
Theorem readFile_returns_content path w w0 w1 node :
  autoConnect drive w = (w0, Ok tt) ->
  resolvePath drive path w0 = (w1, Ok node) ->
  Node.isFile (Node.get (heap w1) node) = true ->
  let i := Node.id (Node.get (heap w1) node) in
  match Drive.files_get_media drive (trace w1) i with
  | Ok text =>
      readFile drive path w =
        (logged w1 (Drive.FilesGetMedia i) None, Ok text)
  | Err m =>
      readFile drive path w =
        (logged w1 (Drive.FilesGetMedia i) (Some m),
         Err ("Failed to read file: " +:+ m))
  end.
Proof.
  intros Ha Hres Hk i. unfold Node.isFile in Hk. apply negb_true_iff in Hk.
  destruct (Drive.files_get_media drive (trace w1) i) as [text|m] eqn:E;
    unfold readFile, readFile_body;
    unfold wrap, try_catch, throw, bind at 1; rewrite Ha;
    unfold bind at 1; rewrite Hres; unfold bind, read, gets, request;
    rewrite Hk; fold i; rewrite E; reflexivity.
Qed.

Lemma search_map_nodes files : forall w,
  search_map files w =
    (set_heap (heap w ++ (node_of_file <$> files)) w,
     Ok (seq (List.length (heap w)) (List.length files))).
Proof.
  induction files as [|file rest IH]; intros w.
  - simpl. unfold ret. rewrite app_nil_r. by destruct w.
  - cbn [search_map]. unfold bind, new_node, Node.alloc, ret. rewrite IH.
    cbn [heap set_heap]. rewrite length_app. simpl.
    rewrite Nat.add_1_r, <- app_assoc. done.
Qed.

Lemma getPath_detached fuel h l :
  Node.parent (Node.get h l) = None ->
  Node.getPath fuel h l = Some ("/" +:+ Node.name (Node.get h l)).
Proof. intros Hp. unfold Node.getPath. rewrite Hp. by destruct fuel. Qed.

(** X22.  The nodes [search] returns are new objects, one for each entry of the
    listing and in its order.  They hang on nothing: they have no [parent],
    so that [getPath] gives a slash and their name whatever the folder
    searched, and no [children]; the folder searched does not get them as
    children, and nothing that was cached changes. *)
Theorem search_results_are_detached o path w w' ls :
  search drive o path w = (w', Ok ls) ->
  exists w1 folder files,
    resolvePath drive path (autoConnect drive w).1 = (w1, Ok folder) /\
    Drive.files_list drive (trace w1)
      (search_query (Node.id (Node.get (heap w1) folder)) o) = Ok files /\
    heap w' = heap w1 ++ (node_of_file <$> files) /\
    rootNode w' = rootNode w1 /\
    ls = seq (List.length (heap w1)) (List.length files) /\
    forall l, l ∈ ls ->
      Node.parent (Node.get (heap w') l) = None /\
      Node.children (Node.get (heap w') l) = None /\
      forall fuel, Node.getPath fuel (heap w') l =
                     Some ("/" +:+ Node.name (Node.get (heap w') l)).
Proof.
  intros H. unfold search, search_body in H.
  unfold wrap, try_catch, throw, bind at 1 in H.
  destruct (autoConnect drive w) as [w0 [[]|e]] eqn:Ha; [|done].
  unfold bind at 1 in H.
  destruct (resolvePath drive path w0) as [w1 [folder|e]] eqn:Hres; [|done].
  unfold bind, read, gets, request in H.
  cbn [heap set_heap trace set_trace] in H.
  destruct (Drive.files_list drive (trace w1) _) as [files|m] eqn:Hlist; [|done].
  rewrite search_map_nodes in H. injection H as <- <-.
  cbn [heap set_heap trace set_trace rootNode].
  exists w1, folder, files. split_and!; try done.
  intros l Hl. apply elem_of_seq in Hl as [Hge Hlt].
  assert (exists f, Node.get (heap w1 ++ (node_of_file <$> files)) l =
                      node_of_file f) as [f Hf].
  { destruct (files !! (l - List.length (heap w1))%nat) as [f|] eqn:E.
    - exists f. unfold Node.get. rewrite lookup_app_r by done.
      by rewrite list_lookup_fmap, E.
    - apply lookup_ge_None in E. lia. }
  split_and!; [by rewrite Hf..|]. intros fuel. apply getPath_detached.
  by rewrite Hf.
Qed.

End Reading.

(** ** The query of [search] *)

(** X23.  An option of [search] that is an empty string or the number 0 counts as
    absent: an empty [name], [mimeType] or [orderBy], and a [minSize],
    [maxSize] or [limit] of 0, send the query that is sent without them.
    Without any option, [search] lists the children of the folder, the
    latest modified first, 100 at most. *)
Theorem search_ignores_falsy_options o parentId :
  let nonempty (x : option string) :=
    match x with Some s => if Path.truthy s then Some s else None | None => None end in
  let nonzero (x : option Z) :=
    match x with Some n => if n =? 0 then None else Some n | None => None end in
  search_query parentId o =
    search_query parentId
      (mkSearch (nonempty (so_name o)) (nonempty (so_mimeType o))
                (nonzero (so_minSize o)) (nonzero (so_maxSize o))
                (so_modifiedAfter o) (so_modifiedBefore o)
                (nonempty (so_orderBy o)) (nonzero (so_limit o))) /\
  search_query parentId (mkSearch None None None None None None None None) =
    Drive.QSearch parentId [] "modifiedTime desc" 100 /\
  search_query parentId
      (mkSearch (Some "") (Some "") (Some 0) (Some 0) None None (Some "") (Some 0)) =
    Drive.QSearch parentId [] "modifiedTime desc" 100.
Proof.
  split; [|done].
  unfold search_query, search_clauses. destruct o as [n m a b c d e f]. simpl.
  destruct n as [n|]; [destruct (Path.truthy n) eqn:En; simpl; rewrite ?En|];
  destruct m as [m|]; [destruct (Path.truthy m) eqn:Em; simpl; rewrite ?Em| |
                       destruct (Path.truthy m) eqn:Em; simpl; rewrite ?Em| |
                       destruct (Path.truthy m) eqn:Em; simpl; rewrite ?Em|];
  destruct a as [a|]; try (destruct (a =? 0) eqn:Ea; simpl; rewrite ?Ea);
  destruct b as [b|]; try (destruct (b =? 0) eqn:Eb; simpl; rewrite ?Eb);
  destruct e as [e|]; try (destruct (Path.truthy e) eqn:Ee; simpl; rewrite ?Ee);
  destruct f as [f|]; try (destruct (f =? 0) eqn:Ef; simpl; rewrite ?Ef);
  reflexivity.
Qed.

Lemma readdir_replaces_children_witness :
  let w := exec Example.client 0 [OConnect; OReaddir "/a"] (init Example.options) in
  let w' := (readdir Example.client "/a" w).1 in
  readdir Example.client "/a" w = (w', Ok [4; 5]%nat) /\
  Node.children (Node.get (heap w) 1) = Some [2; 3]%nat /\
  exists node,
    Node.children (Node.get (heap w') node) = Some [4; 5]%nat /\
    forall c, c ∈ Node.kids (Node.get (heap w') node) -> (4 <= c)%nat.
Proof.
  intros w w'.
  assert (readdir Example.client "/a" w = (w', Ok [4; 5]%nat)) as Hrun
    by (vm_compute; reflexivity).
  split; [exact Hrun|]. split; [vm_compute; reflexivity|].
  destruct (readdir_replaces_children Example.client "/a" w w' [4; 5]%nat
              (exec_wf Example.client 0 _ _ (wf_init Example.options)) Hrun)
    as (w1 & node & files & _ & _ & _ & Hc & _).
  exists node. split; [exact Hc|].
  intros c. unfold Node.kids. rewrite Hc. simpl. intros Hin.
  apply elem_of_cons in Hin as [->|Hin]; [lia|].
  apply elem_of_cons in Hin as [->|Hin]; [lia|].
  exfalso. revert Hin. apply not_elem_of_nil.
Defined.

Lemma wrong_kind_is_refused_witness :
  let w := Example.connected in
  (exists w1, readdir Example.client "/f.txt" w =
                (w1, Err "Failed to read directory: Not a directory")) /\
  (exists w1, readFile Example.client "/a" w =
                (w1, Err "Failed to read file: Cannot read a directory as a file")).
Proof.
  intros w. split.
  - eexists.
    apply (wrong_kind_is_refused Example.client "/f.txt" w
             (autoConnect Example.client w).1 _ 1%nat);
      vm_compute; reflexivity.
  - eexists.
    apply (wrong_kind_is_refused Example.client "/a" w
             (autoConnect Example.client w).1 _ 1%nat);
      vm_compute; reflexivity.
Defined.

Lemma readFile_returns_content_witness :
  exists w', readFile Example.client "/f.txt" Example.connected = (w', Ok "hello").
Proof.
  eexists.
  apply (readFile_returns_content Example.client "/f.txt" Example.connected
           (autoConnect Example.client Example.connected).1
           (resolvePath Example.client "/f.txt"
              (autoConnect Example.client Example.connected).1).1 1%nat);
    vm_compute; reflexivity.
Defined.

Lemma search_results_are_detached_witness :
  let o := mkSearch (Some "x") None None None None None None None in
  let w := Example.connected in
  let w' := (search Example.client o "/a" w).1 in
  search Example.client o "/a" w = (w', Ok [2; 3]%nat) /\
  Node.children (Node.get (heap w') 1) = None /\
  Node.getPath 0 (heap w') 2 = Some ("/" +:+ Node.name (Node.get (heap w') 2)).
Proof.
  intros o w w'.
  assert (search Example.client o "/a" w = (w', Ok [2; 3]%nat)) as Hrun
    by (vm_compute; reflexivity).
  split; [exact Hrun|]. split; [vm_compute; reflexivity|].
  destruct (search_results_are_detached Example.client o "/a" w w' _ Hrun)
    as (w1 & folder & files & _ & _ & _ & _ & _ & Hls).
  destruct (Hls 2%nat) as (_ & _ & Hpath); [|apply Hpath].
  constructor.
Defined.

(** ** [stat] *)

Section Stat.

Variable drive : Drive.Client.
Variable stack : nat.

(** X24.  What [stat] reports is read off the node the path resolves to, without
    another request: exactly one of [isDirectory] and [isFile] holds, the
    times are the node's, and the size of a file is the size the node
    records. *)
Theorem stat_describes_node path w w' st :
  stat drive stack path w = (w', Ok st) ->
  exists node,
    resolvePath drive path (autoConnect drive w).1 = (w', Ok node) /\
    let n := Node.get (heap w') node in
    st_isDirectory st = Node.isDirectory n /\
    st_isFile st = negb (st_isDirectory st) /\
    st_mtime st = Node.modifiedTime n /\ st_ctime st = Node.createdTime n /\
    (st_isFile st = true -> st_size st = Node.size n).
Proof.
  intros H. unfold stat, stat_body in H.
  unfold wrap, try_catch, throw, bind at 1 in H.
  destruct (autoConnect drive w) as [w0 [[]|e]] eqn:Ha; [|done].
  unfold bind at 1 in H.
  destruct (resolvePath drive path w0) as [w1 [node|e]] eqn:Hres; [|done].
  unfold bind, read, gets, ret in H.
  destruct (Node.getSize stack (heap w1) node) as [sz|] eqn:Hsz; [|done].
  injection H as <- <-. exists node. simpl. split_and!; try done.
  intros Hf. destruct stack as [|fuel]; [done|].
  rewrite getSize_file in Hsz by done. by injection Hsz as <-.
Qed.

End Stat.

Lemma stat_describes_node_witness :
  let w' := (stat Example.client 8 "/f.txt" Example.connected).1 in
  let st := mkStat false true 7 (Some 1) (Some 1) in
  stat Example.client 8 "/f.txt" Example.connected = (w', Ok st) /\
  exists node,
    resolvePath Example.client "/f.txt"
      (autoConnect Example.client Example.connected).1 = (w', Ok node) /\
    Node.size (Node.get (heap w') node) = 7.
Proof.
  intros w' st.
  assert (stat Example.client 8 "/f.txt" Example.connected = (w', Ok st)) as Hrun
    by (vm_compute; reflexivity).
  split; [exact Hrun|].
  destruct (stat_describes_node Example.client 8 "/f.txt" Example.connected w' st
              Hrun) as (node & Hres & _ & _ & _ & _ & Hsize).
  exists node. split; [exact Hres|]. symmetry. apply Hsize. reflexivity.
Defined.

(** ** The cost of a resolution *)

Section ResolutionCost.

Variable drive : Drive.Client.

Implicit Types (w : World) (l c cur : loc).

Lemma walk_cost path parts : forall cur w w' r,
  walk drive path parts cur w = (w', r) ->
  exists evs,
    trace w' = trace w ++ evs /\
    (List.length evs <= List.length parts)%nat /\
    Forall (fun e => exists p n,
              Drive.call e = Drive.FilesList (Drive.QNamed p n) /\ n ∈ parts) evs /\
    (forall l, r = Ok l ->
       Forall (fun e => Drive.threw e = None) evs /\
       List.length (heap w') = (List.length (heap w) + List.length evs)%nat).
Proof.
  induction parts as [|part rest IH]; intros cur w w' r H.
  - injection H as <- <-. exists []. rewrite app_nil_r.
    split_and!;
      first [done | simpl; lia | intros l _; split; [constructor|simpl; lia]].
  - rewrite walk_cons in H. simpl in H.
    destruct (negb _).
    { injection H as <- <-. exists []. rewrite app_nil_r.
      split_and!; try done. simpl. lia. }
    destruct (find_child _ _ _) as [c|].
    { destruct (IH _ _ _ _ H) as (evs & Htr & Hlen & Hall & Hok).
      exists evs. split_and!; try done; [simpl; lia|].
      eapply Forall_impl; [exact Hall|]. simpl.
      intros e (p & n & He & Hn). exists p, n. split; [done|]. by right. }
    destruct (Drive.files_list _ _ _) as [[|file fs]|m].
    + injection H as <- <-. eexists [_]. split_and!; try done; [simpl; lia|].
      constructor; [|constructor]. eexists _, _. split; [done|]. by left.
    + destruct (IH _ _ _ _ H) as (evs & Htr & Hlen & Hall & Hok).
      eexists (_ :: evs). split_and!.
      * rewrite Htr. simpl. by rewrite <- app_assoc.
      * simpl. lia.
      * constructor; [eexists _, _; split; [done|by left]|].
        eapply Forall_impl; [exact Hall|]. simpl.
        intros e (p & n & He & Hn). exists p, n. split; [done|]. by right.
      * intros l Hl. destruct (Hok l Hl) as [Hnone Hheap]. split.
        -- by constructor.
        -- rewrite Hheap, length_attached. simpl. lia.
    + injection H as <- <-. eexists [_]. split_and!; try done; [simpl; lia|].
      constructor; [|constructor]. eexists _, _. split; [done|]. by left.
Qed.

(** X25.  Resolving a path sends at most one request for each of its segments,
    each of them a listing of one folder filtered by the name of a
    segment, and nothing else.  When the path resolves, none of the
    requests failed and each made exactly one new node: a segment found
    in the cache costs no request. *)
Theorem resolve_lists_once_per_missing_segment path w w' r :
  resolvePath drive path w = (w', r) ->
  exists evs,
    trace w' = trace w ++ evs /\
    (List.length evs <= List.length (Path.parts path))%nat /\
    Forall (fun e => exists p n,
              Drive.call e = Drive.FilesList (Drive.QNamed p n) /\
              n ∈ Path.parts path) evs /\
    (forall l, r = Ok l ->
       Forall (fun e => Drive.threw e = None) evs /\
       List.length (heap w') = (List.length (heap w) + List.length evs)%nat).
Proof.
  intros H. destruct (rootNode w) as [root|] eqn:Hr.
  - rewrite (resolvePath_walk _ _ _ _ Hr) in H. by eapply walk_cost.
  - rewrite resolvePath_no_root in H by done. injection H as <- <-.
    exists []. rewrite app_nil_r. split_and!; try done. simpl. lia.
Qed.

End ResolutionCost.

Lemma resolve_lists_once_per_missing_segment_witness :
  let w := Example.connected in
  let w' := (resolvePath Example.client "/a/x" w).1 in
  resolvePath Example.client "/a/x" w = (w', Ok 2%nat) /\
  exists evs, trace w' = trace w ++ evs /\ (List.length evs <= 2)%nat /\
              List.length (heap w') = (List.length (heap w) + List.length evs)%nat.
Proof.
  intros w w'.
  assert (resolvePath Example.client "/a/x" w = (w', Ok 2%nat)) as Hrun
    by (vm_compute; reflexivity).
  split; [exact Hrun|].
  destruct (resolve_lists_once_per_missing_segment Example.client "/a/x" w w' _
              Hrun) as (evs & Htr & Hlen & _ & Hok).
  exists evs. split; [exact Htr|]. split; [exact Hlen|].
  exact (proj2 (Hok 2%nat eq_refl)).
Defined.

(** ** The request of [rename] *)

Section RenameRequest.

Variable drive : Drive.Client.

Implicit Types (w : World) (l n d : loc).

(** X26.  Once both paths have resolved, [rename] sends one request and no other:
    an update of the node's id that sets the last piece of the new path as
    name, without content, adds the id of the destination parent, and
    removes the id of the node's cached [parent], or nothing when the node
    has none.  A rename within one folder thus asks the store to add and to
    remove the same parent. *)
Theorem rename_request_names_both_parents a b w w0 w1 w2 n d w' r :
  autoConnect drive w = (w0, Ok tt) ->
  resolvePath drive a w0 = (w1, Ok n) ->
  resolvePath drive (Path.parentPath b) w1 = (w2, Ok d) ->
  rename drive a b w = (w', r) ->
  let h := heap w2 in
  let removed := (fun p => Node.id (Node.get h p)) <$> Node.parent (Node.get h n) in
  let sent := Drive.FilesUpdate (Node.id (Node.get h n)) (Path.leaf b) None
                (Some (Node.id (Node.get h d))) removed in
  (exists failure, trace w' = trace w2 ++ [Drive.mkEvent sent failure]) /\
  (Node.parent (Node.get h n) = Some d -> removed = Some (Node.id (Node.get h d))) /\
  (Node.parent (Node.get h n) = None -> removed = None).
Proof.
  intros Ha Hold Hnew H h removed sent. split.
  - unfold rename, rename_body in H.
    unfold wrap, try_catch, throw, bind at 1 in H. rewrite Ha in H.
    unfold bind at 1 in H. rewrite Hold in H.
    unfold bind at 1 in H. rewrite Hnew in H.
    unfold detach, read, gets, request, update_heap, modify, ret, bind in H.
    cbn [heap set_heap trace set_trace] in H.
    fold h in H. fold removed in H. fold sent in H.
    destruct (Drive.files_update drive _ _ _ _ _ _) as [res|m].
    + destruct (Node.parent (Node.get (alter _ n h) n));
        injection H as <- <-; by eexists.
    + injection H as <- <-. by eexists.
  - unfold removed. split; by intros ->.
Qed.

End RenameRequest.

Lemma rename_request_names_both_parents_witness :
  let w := exec Example.client 0 [OConnect; OReaddir "/a"] (init Example.options) in
  let w' := (rename Example.client "/a/x" "/a/z" w).1 in
  exists failure,
    last (trace w') =
      Some (Drive.mkEvent
              (Drive.FilesUpdate "idx" "z" None (Some "ida") (Some "ida")) failure).
Proof.
  intros w w'.
  destruct (rename_request_names_both_parents Example.client "/a/x" "/a/z" w
              (autoConnect Example.client w).1
              (resolvePath Example.client "/a/x" (autoConnect Example.client w).1).1
              (resolvePath Example.client "/a"
                 (resolvePath Example.client "/a/x"
                    (autoConnect Example.client w).1).1).1
              2%nat 1%nat w' (Ok 2%nat))
    as [[failure Htr] _].
  - vm_compute; reflexivity.
  - vm_compute; reflexivity.
  - vm_compute; reflexivity.
  - vm_compute; reflexivity.
  - exists failure. rewrite Htr, last_snoc. vm_compute. reflexivity.
Defined.
